(** * Incremental MCFG chart parser: a shallow embedding and its properties

    The development follows the Python sources
    [aux_functions_and_classes.py] (grammar, items, chart),
    [simplified_rules.py] (grammar simplification) and [MCFG.py]
    (the predict / scan / combine engine).

    Conventions of the embedding:
    - a Python exception is the outcome [Raise]; a loop that needs more
      iterations than the supplied fuel is the outcome [OutOfFuel];
    - [ActiveItem] objects live in a store indexed by their [id] (the
      class counter gives every object a distinct id), and the chart
      roles hold ids, in dictionary insertion order;
    - rule objects are referred to by their position in the grammar's
      rule list; the [used] flag is part of the rule object. *)

From stdpp Require Import gmap strings list.
From Stdlib Require Import String Ascii DecimalString.

Open Scope string_scope.
Open Scope list_scope.
Open Scope nat_scope.

(** ** Python string primitives *)

Module PyStr.

  (** [sep.join(l)] *)
Fixpoint join (sep : string) (l : list string) : string :=
    match l with
    | [] => ""
    | [x] => x
    | x :: rest => x +:+ sep +:+ join sep rest
    end.

  (** [s.split(' ')]: cut at every single space, keeping empty pieces. *)
Fixpoint split_space (s : string) : list string :=
    match s with
    | EmptyString => [""]
    | String c s' =>
        if Ascii.eqb c " "%char then "" :: split_space s'
        else match split_space s' with
             | h :: t => String c h :: t
             | [] => [String c ""]
             end
    end.

  (** [sub in s] on strings: [sub] occurs in [s] as a contiguous run of
      characters. *)
Fixpoint contains (sub s : string) : bool :=
    String.prefix sub s ||
    match s with
    | EmptyString => false
    | String _ s' => contains sub s'
    end.

  (** The relational reading of [contains]. *)
Definition infix_of (sub s : string) : Prop :=
    ∃ l r, s = l +:+ sub +:+ r.

  (** [x in l] for a list of strings. *)
Definition mem (x : string) (l : list string) : bool :=
    bool_decide (x ∈ l).

  (** [str(n)] for a non-negative integer. *)
Definition str_of_nat (n : nat) : string :=
    NilEmpty.string_of_uint (Nat.to_uint n).

  (** Position of the first occurrence of character [c]. *)
Fixpoint find_char (c : ascii) (s : string) : option nat :=
    match s with
    | EmptyString => None
    | String d s' =>
        if Ascii.eqb c d then Some 0 else S <$> find_char c s'
    end.

  (** Position of the last occurrence of character [c]. *)
Fixpoint rfind_char (c : ascii) (s : string) : option nat :=
    match s with
    | EmptyString => None
    | String d s' =>
        match rfind_char c s' with
        | Some n => Some (S n)
        | None => if Ascii.eqb c d then Some 0 else None
        end
    end.

Definition newline : ascii := "010"%char.

  (** [re.match] with the placeholder pattern of the sources (any run
      without an opening parenthesis, an opening parenthesis, a greedy
      run, a closing parenthesis), followed by [.groups()]: the first
      group runs up to the first opening parenthesis; the second group
      ends at the last closing parenthesis that is on the same line.
      [None] when the pattern does not match (the caller then fails on
      the missing match object). *)
Definition match_placeholder (s : string) : option (string * string) :=
    i ← find_char "("%char s;
    let rest := String.substring (S i) (String.length s - S i) s in
    let line := match find_char newline rest with
                | Some n => String.substring 0 n rest
                | None => rest
                end in
    j ← rfind_char ")"%char line;
    Some (String.substring 0 i s, String.substring 0 j line).

  (** [l.index(x)]: first position of [x], [None] for [ValueError]. *)
Fixpoint index_of (x : string) (l : list string) : option nat :=
    match l with
    | [] => None
    | y :: l' => if String.eqb x y then Some 0 else S <$> index_of x l'
    end.

End PyStr.

(** ** Grammar model *)

(** [MCFGFunc] *)
Record MCFGFunc := {
  func_name : string;
  input_args : list string;
  result_vector : list (list string)
}.

(** The right-hand element of a rule once [connect_rules_to_funcs] has
    run: a terminal (the rule is then marked terminating) or the
    function object that replaced the function name. *)
Inductive rule_function :=
| RTerminal (t : string)
| RFunc (f : MCFGFunc).

(** [MCFGRule].  The field is named [rule_symbol] because items have a
    [symbol] field too. *)
Record MCFGRule := {
  rule_symbol : string;
  function : rule_function;
  vars : list string;
  used : bool
}.

(** [rule.is_terminating_rule]: set by [connect_rules_to_funcs] exactly
    for the rules whose right-hand element is a terminal. *)
Definition is_terminating_rule (r : MCFGRule) : bool :=
  match function r with RTerminal _ => true | RFunc _ => false end.

Definition mark_used (r : MCFGRule) : MCFGRule :=
  {| rule_symbol := rule_symbol r; function := function r;
     vars := vars r; used := true |}.

Definition used_in_prediction (r : MCFGRule) : bool := used r.

(** The grammar object a parser is built on: the simplified rules in
    the order in which [vars_to_rules] was filled. *)
Record MCFG := {
  start_symbol : string;
  terminals : list string;
  rules : list MCFGRule
}.

(** [MCFGFunc.__eq__] *)
Definition func_eq (f g : MCFGFunc) : bool :=
  String.eqb (func_name f) (func_name g)
  && bool_decide (input_args f = input_args g)
  && bool_decide (result_vector f = result_vector g).

(** [self.function == other.function] inside [MCFGRule.__eq__]: two
    terminals compare as strings, two function objects with
    [MCFGFunc.__eq__]; a function object compared with a string fails
    with [AttributeError] (the string has no [func_name]). *)
Definition function_eq (a b : rule_function) : option bool :=
  match a, b with
  | RTerminal s, RTerminal t => Some (String.eqb s t)
  | RFunc f, RFunc g => Some (func_eq f g)
  | _, _ => None
  end.

(** [MCFGRule.__eq__]: a short-circuit conjunction. *)
Definition rule_eq (r1 r2 : MCFGRule) : option bool :=
  if negb (String.eqb (rule_symbol r1) (rule_symbol r2)) then Some false
  else
    b ← function_eq (function r1) (function r2);
    Some (b && bool_decide (vars r1 = vars r2)).

(** ** Item model *)

Inductive action := predict | scan | combine | complete.

#[global] Instance action_eq_dec : EqDecision action.
Proof. solve_decision. Defined.

(** [ActiveItem].  [rule] refers to a rule object of the grammar by its
    position; [item_id] is the field [id]. *)
Record ActiveItem := {
  symbol : string;
  dot_position : nat * nat;
  found_start : nat;
  found_end : nat;
  range_order : list nat;
  token_index : nat;
  action_type : action;
  rule : nat;
  found_sequence : list string;
  antecedent_ids : list nat;
  scanned : bool;
  combined : bool;
  ignored : bool;
  item_id : nat;
  vector_binding : list (list string)
}.

Definition get_item_id (i : ActiveItem) : nat := item_id i.
Definition is_scanned (i : ActiveItem) : bool := scanned i.

Definition mark_scanned (i : ActiveItem) : ActiveItem :=
  {| symbol := symbol i; dot_position := dot_position i;
     found_start := found_start i; found_end := found_end i;
     range_order := range_order i; token_index := token_index i;
     action_type := action_type i; rule := rule i;
     found_sequence := found_sequence i;
     antecedent_ids := antecedent_ids i;
     scanned := true; combined := combined i; ignored := ignored i;
     item_id := item_id i; vector_binding := vector_binding i |}.

Definition mark_ignored (i : ActiveItem) : ActiveItem :=
  {| symbol := symbol i; dot_position := dot_position i;
     found_start := found_start i; found_end := found_end i;
     range_order := range_order i; token_index := token_index i;
     action_type := action_type i; rule := rule i;
     found_sequence := found_sequence i;
     antecedent_ids := antecedent_ids i;
     scanned := scanned i; combined := combined i; ignored := true;
     item_id := item_id i; vector_binding := vector_binding i |}.

(** [get_next_dot_position_and_check_if_complete].  The component is
    looked up at [dot_position[0]] in [vector_binding] (an [IndexError],
    here [None], when there is none). *)
Definition get_next_dot_position_and_check_if_complete
    (i : ActiveItem) (force_complete : bool) : option ((nat * nat) * bool) :=
  vector_component ← vector_binding i !! (dot_position i).1;
  let vector_component_index := (dot_position i).1 in
  if force_complete then
    Some ((vector_component_index + 1, 0), false)
  else
    let next_position_in_vector_component := (dot_position i).2 + 1 in
    if bool_decide (next_position_in_vector_component < List.length vector_component)
    then Some ((vector_component_index, next_position_in_vector_component), false)
    else if bool_decide (next_position_in_vector_component = List.length vector_component)
    then Some ((vector_component_index, next_position_in_vector_component), true)
    else Some ((vector_component_index + 1, 0), false).

(** A Python dictionary with string keys, in insertion order:
    assigning to a key that is present keeps its place. *)
Fixpoint dict_set {V} (k : string) (v : V) (d : list (string * V))
  : list (string * V) :=
  match d with
  | [] => [(k, v)]
  | (k', v') :: d' =>
      if String.eqb k k' then (k, v) :: d' else (k', v') :: dict_set k v d'
  end.

Fixpoint dict_get {V} (k : string) (d : list (string * V)) : option V :=
  match d with
  | [] => None
  | (k', v') :: d' => if String.eqb k k' then Some v' else dict_get k d'
  end.

Definition dict_keys {V} (d : list (string * V)) : list string := d.*1.

(** The key [symbol(j)] of a completed component. *)
Definition range_constraint (sym : string) (j : nat) : string :=
  sym +:+ "(" +:+ PyStr.str_of_nat j +:+ ")".

(** [get_all_completed_components_and_values]: the loop over
    [range(0, dot_position[0])]. *)
Fixpoint completed_components_loop (i : ActiveItem) (indexes : list nat)
    (acc : list (string * list string)) : option (list (string * list string)) :=
  match indexes with
  | [] => Some acc
  | index :: rest =>
      j ← range_order i !! index;
      value ← vector_binding i !! j;
      completed_components_loop i rest
        (dict_set (range_constraint (symbol i) j) value acc)
  end.

Definition get_all_completed_components_and_values (i : ActiveItem)
  : option (list (string * list string)) :=
  if bool_decide (0 < (dot_position i).1)
  then completed_components_loop i (seq 0 (dot_position i).1) []
  else Some [].

(** [MCFGParser.get_symbol_after_dot]: every exception is caught and
    turned into the result [None]. *)
Definition get_symbol_after_dot (i : ActiveItem) : option string :=
  component_index ← range_order i !! (dot_position i).1;
  component ← vector_binding i !! component_index;
  component !! (dot_position i).2.

(** [MCFGParser.get_new_vector_binding]: a deep copy with one cell
    replaced.  Any failure is re-raised. *)
Definition get_new_vector_binding (i : ActiveItem) (new_component_value : string)
  : option (list (list string)) :=
  component_index ← range_order i !! (dot_position i).1;
  component ← vector_binding i !! component_index;
  if bool_decide ((dot_position i).2 < List.length component)
  then Some (<[component_index := <[(dot_position i).2 := new_component_value]> component]>
               (vector_binding i))
  else None.

(** [ActiveItem.__eq__]: the attributes are compared in the order in
    which [__init__] assigns them, skipping [id] and [antecedent_ids];
    the first difference answers [False].  The [rule] attribute is
    compared with [MCFGRule.__eq__], which can fail. *)
Definition rule_ref_eq (rs : list MCFGRule) (i j : nat) : option bool :=
  r1 ← rs !! i; r2 ← rs !! j; rule_eq r1 r2.

Definition item_eq (rs : list MCFGRule) (a b : ActiveItem) : option bool :=
  if negb (String.eqb (symbol a) (symbol b)
           && bool_decide (dot_position a = dot_position b)
           && bool_decide (found_start a = found_start b)
           && bool_decide (found_end a = found_end b)
           && bool_decide (range_order a = range_order b)
           && bool_decide (token_index a = token_index b)
           && bool_decide (action_type a = action_type b))
  then Some false
  else
    same_rule ← rule_ref_eq rs (rule a) (rule b);
    Some (same_rule
          && bool_decide (found_sequence a = found_sequence b)
          && bool_decide (scanned a = scanned b)
          && bool_decide (combined a = combined b)
          && bool_decide (ignored a = ignored b)
          && bool_decide (vector_binding a = vector_binding b)).

(** ** Parser state *)

(** The three roles of the chart that hold items. *)
Inductive chart_name :=
| active_items
| active_items_with_completed_components
| completed_items.

(** [MCFGParserChart.chart]: the dictionaries of items are kept as their
    keys in insertion order (the values are the objects in the store);
    the prediction strategy is a set, kept without repetitions. *)
Record Chart := {
  tokens : list string;
  chart_terminals : list string;
  role_active_items : list nat;
  role_active_items_with_completed_components : list nat;
  role_completed_items : list nat;
  prediction_strategy : list string;
  combined_couples : list (nat * nat);
  all_items : list nat
}.

Definition role (c : Chart) (n : chart_name) : list nat :=
  match n with
  | active_items => role_active_items c
  | active_items_with_completed_components =>
      role_active_items_with_completed_components c
  | completed_items => role_completed_items c
  end.

Definition set_role (c : Chart) (n : chart_name) (l : list nat) : Chart :=
  {| tokens := tokens c; chart_terminals := chart_terminals c;
     role_active_items :=
       match n with active_items => l | _ => role_active_items c end;
     role_active_items_with_completed_components :=
       match n with
       | active_items_with_completed_components => l
       | _ => role_active_items_with_completed_components c
       end;
     role_completed_items :=
       match n with completed_items => l | _ => role_completed_items c end;
     prediction_strategy := prediction_strategy c;
     combined_couples := combined_couples c;
     all_items := all_items c |}.

Definition set_all_items (c : Chart) (l : list nat) : Chart :=
  {| tokens := tokens c; chart_terminals := chart_terminals c;
     role_active_items := role_active_items c;
     role_active_items_with_completed_components :=
       role_active_items_with_completed_components c;
     role_completed_items := role_completed_items c;
     prediction_strategy := prediction_strategy c;
     combined_couples := combined_couples c;
     all_items := l |}.

Definition set_prediction_strategy (c : Chart) (l : list string) : Chart :=
  {| tokens := tokens c; chart_terminals := chart_terminals c;
     role_active_items := role_active_items c;
     role_active_items_with_completed_components :=
       role_active_items_with_completed_components c;
     role_completed_items := role_completed_items c;
     prediction_strategy := l;
     combined_couples := combined_couples c;
     all_items := all_items c |}.

Definition set_combined_couples (c : Chart) (l : list (nat * nat)) : Chart :=
  {| tokens := tokens c; chart_terminals := chart_terminals c;
     role_active_items := role_active_items c;
     role_active_items_with_completed_components :=
       role_active_items_with_completed_components c;
     role_completed_items := role_completed_items c;
     prediction_strategy := prediction_strategy c;
     combined_couples := l;
     all_items := all_items c |}.

(** [MCFGParserChart.__init__] *)
Definition new_chart (toks terms : list string) : Chart :=
  {| tokens := toks; chart_terminals := terms;
     role_active_items := [];
     role_active_items_with_completed_components := [];
     role_completed_items := [];
     prediction_strategy := [];
     combined_couples := [];
     all_items := [] |}.

(** Everything a parse reads and writes: the grammar object (whose rule
    objects carry the [used] flag), the chart, the item objects by id,
    and the class attribute [ActiveItem.items_counter]. *)
Record PState := {
  grammar : MCFG;
  chart : Chart;
  store : gmap nat ActiveItem;
  items_counter : nat
}.

Definition with_grammar (s : PState) (g : MCFG) : PState :=
  {| grammar := g; chart := chart s; store := store s;
     items_counter := items_counter s |}.
Definition with_chart (s : PState) (c : Chart) : PState :=
  {| grammar := grammar s; chart := c; store := store s;
     items_counter := items_counter s |}.
Definition with_store (s : PState) (h : gmap nat ActiveItem) : PState :=
  {| grammar := grammar s; chart := chart s; store := h;
     items_counter := items_counter s |}.

(** ** The monad of parser actions *)

Inductive outcome (A : Type) :=
| Done (a : A) (s : PState)
| Raise
| OutOfFuel.
Arguments Done {A} a s.
Arguments Raise {A}.
Arguments OutOfFuel {A}.

Definition M (A : Type) : Type := PState → outcome A.

Definition ret {A} (a : A) : M A := λ s, Done a s.
Definition bind {A B} (m : M A) (k : A → M B) : M B :=
  λ s, match m s with
       | Done a s' => k a s'
       | Raise => Raise
       | OutOfFuel => OutOfFuel
       end.
Definition raise {A} : M A := λ _, Raise.
Definition out_of_fuel {A} : M A := λ _, OutOfFuel.
Definition get : M PState := λ s, Done s s.
Definition put (s : PState) : M unit := λ _, Done tt s.
Definition modify (f : PState → PState) : M unit := λ s, Done tt (f s).
Definition lift {A} (o : option A) : M A :=
  match o with Some a => ret a | None => raise end.

Declare Scope parser_scope.
Delimit Scope parser_scope with parser.
Notation "x <~ m ;; k" := (bind m (λ x, k))
  (at level 100, m at next level, right associativity,
   format "'[v' x  <~  m ;;  '/' k ']'") : parser_scope.
Notation "m ;;; k" := (bind m (λ _, k))
  (at level 100, right associativity) : parser_scope.
Open Scope parser_scope.

(** [for x in l: body(x)] *)
Fixpoint for_each {A} (l : list A) (body : A → M unit) : M unit :=
  match l with
  | [] => ret tt
  | x :: l' => body x ;;; for_each l' body
  end.

(** Reading an object through a reference. *)
Definition deref (i : nat) : M ActiveItem :=
  s <~ get ;; lift (store s !! i).

(** In-place update of an object. *)
Definition update_item (i : nat) (f : ActiveItem → ActiveItem) : M unit :=
  modify (λ s, with_store s (alter f i (store s))).

(** ** Chart store *)

(** [d[k] = v] on the keys of a dictionary: a new key goes last. *)
Definition key_add (k : nat) (keys : list nat) : list nat :=
  if bool_decide (k ∈ keys) then keys else keys ++ [k].

(** [d.pop(k)] on the keys, for a key that is present. *)
Definition key_pop (k : nat) (keys : list nat) : list nat :=
  filter (λ k', k' ≠ k) keys.

(** [set.update] on a set kept without repetitions. *)
Definition set_update (s l : list string) : list string :=
  foldl (λ acc x, if PyStr.mem x acc then acc else acc ++ [x]) s l.

(** [set(l)] *)
Definition set_of_list (l : list string) : list string := set_update [] l.

(** [add_item_to_prediction_strategy]: as soon as one element of the
    given set is a non-empty non-terminal, the whole set is merged. *)
Definition add_item_to_prediction_strategy (strategy_set : list string) : M unit :=
  modify (λ s,
    let c := chart s in
    if existsb (λ item, negb (String.eqb item "")
                        && negb (PyStr.mem item (chart_terminals c)))
               strategy_set
    then with_chart s
           (set_prediction_strategy c (set_update (prediction_strategy c) strategy_set))
    else s).

(** [all_terminals] *)
Definition all_terminals (terms : list string) (l : list string) : bool :=
  forallb (λ s, forallb (λ c, PyStr.mem c terms) (PyStr.split_space s)) l.

(** The test of [filter_out_non_compatible_items] on one item. *)
Definition compatible (c : Chart) (i : ActiveItem) : bool :=
  let original_text := PyStr.join " " (tokens c) in
  let item_sequence := found_sequence i in
  if negb (all_terminals (chart_terminals c) item_sequence) then true
  else PyStr.contains (PyStr.join " " item_sequence) original_text.

(** [filter_out_non_compatible_items] *)
Fixpoint filter_out_non_compatible_items (items_list : list nat) : M (list nat) :=
  match items_list with
  | [] => ret []
  | r :: rest =>
      s <~ get ;;
      item <~ deref r ;;
      filtered <~ filter_out_non_compatible_items rest ;;
      ret (if compatible (chart s) item then r :: filtered else filtered)
  end.

(** [item in self.chart[chart_name].values()]: the values are visited
    in order; an object is found when it is the very same object or
    when [__eq__] answers [True]. *)
Fixpoint item_in_values (item : ActiveItem) (keys : list nat) : M bool :=
  match keys with
  | [] => ret false
  | k :: rest =>
      s <~ get ;;
      v <~ deref k ;;
      if bool_decide (item_id v = item_id item) then ret true
      else
        same <~ lift (item_eq (rules (grammar s)) v item) ;;
        if same then ret true else item_in_values item rest
  end.

(** [add_items_to_chart] *)
Definition add_item_to_chart (chart_name : chart_name) (r : nat) : M unit :=
  item <~ deref r ;;
  let item_id := get_item_id item in
  modify (λ s, with_chart s
                 (set_all_items (chart s) (key_add item_id (all_items (chart s))))) ;;;
  s <~ get ;;
  dup <~ item_in_values item (role (chart s) chart_name) ;;
  (if dup then update_item r mark_ignored else ret tt) ;;;
  modify (λ s, with_chart s
                 (set_role (chart s) chart_name
                    (key_add item_id (role (chart s) chart_name)))).

Definition add_items_to_chart (items_list : list nat) (chart_name : chart_name)
  : M unit :=
  for_each items_list (add_item_to_chart chart_name).

(** [add_active_items_to_chart] *)
Definition add_active_items_to_chart (active_items_list : list nat) : M bool :=
  filtered_active_items_list <~ filter_out_non_compatible_items active_items_list ;;
  add_items_to_chart filtered_active_items_list active_items ;;;
  ret (match filtered_active_items_list with [] => false | _ => true end).

(** [add_completed_items_to_chart] *)
Definition add_completed_items_to_chart (completed_items_list : list nat) : M bool :=
  filtered_completed_items_list <~
    filter_out_non_compatible_items completed_items_list ;;
  for_each filtered_completed_items_list (λ r,
    item <~ deref r ;;
    if bool_decide ((dot_position item).1 = List.length (vector_binding item))
    then
      add_items_to_chart [r] completed_items ;;;
      let item_id := get_item_id item in
      modify (λ s,
        if bool_decide (item_id ∈ role (chart s) active_items)
        then with_chart s
               (set_role (chart s) active_items
                  (key_pop item_id (role (chart s) active_items)))
        else s)
    else ret tt) ;;;
  add_items_to_chart filtered_completed_items_list
    active_items_with_completed_components ;;;
  ret (match filtered_completed_items_list with [] => false | _ => true end).

(** [get_items_list] for a role other than ['all_items']: the values
    that are not flagged [ignored], in order. *)
Fixpoint get_items_list_of (keys : list nat) : M (list nat) :=
  match keys with
  | [] => ret []
  | k :: rest =>
      v <~ deref k ;;
      l <~ get_items_list_of rest ;;
      ret (if ignored v then l else k :: l)
  end.

Definition get_items_list (chart_name : chart_name) : M (list nat) :=
  s <~ get ;; get_items_list_of (role (chart s) chart_name).

(** [get_current_prediction_strategy]: a copy of the set. *)
Definition get_current_prediction_strategy : M (list string) :=
  s <~ get ;; ret (prediction_strategy (chart s)).

(** [update_combined_couples] *)
Definition update_combined_couples (ids_tuple : nat * nat) : M unit :=
  modify (λ s, with_chart s
    (set_combined_couples (chart s) (combined_couples (chart s) ++ [ids_tuple]))).

(** [check_if_couple_is_already_combined] *)
Definition check_if_couple_is_already_combined (ids_tuple : nat * nat) : M bool :=
  s <~ get ;;
  let '(id1, id2) := ids_tuple in
  ret (bool_decide ((id1, id2) ∈ combined_couples (chart s))
       || bool_decide ((id2, id1) ∈ combined_couples (chart s))).

(** ** Item construction *)

(** [ActiveItem.__init__]: the class counter is incremented and becomes
    the id of the new object; the three processing flags start unset. *)
Definition new_ActiveItem (sym : string) (fstart fend : nat) (dot : nat * nat)
    (act : action) (order : list nat) (tindex : nat)
    (binding : list (list string)) (rule_ref : nat)
    (antecedents : list nat) (fseq : list string) : M nat :=
  s <~ get ;;
  let n := items_counter s + 1 in
  let item := {| symbol := sym; dot_position := dot; found_start := fstart;
                 found_end := fend; range_order := order;
                 token_index := tindex; action_type := act; rule := rule_ref;
                 found_sequence := fseq; antecedent_ids := antecedents;
                 scanned := false; combined := false; ignored := false;
                 item_id := n; vector_binding := binding |} in
  put {| grammar := grammar s; chart := chart s;
         store := <[n := item]> (store s); items_counter := n |} ;;;
  ret n.

(** [ActiveItem.create_complete_item] *)
Definition create_complete_item (r : nat) : M nat :=
  self <~ deref r ;;
  next <~ lift (get_next_dot_position_and_check_if_complete self true) ;;
  new_ActiveItem (symbol self) (found_start self) (found_end self) next.1
    complete (range_order self) (token_index self) (vector_binding self)
    (rule self) [get_item_id self] (found_sequence self).

(** ** Grammar access *)

(** [itertools.permutations(range(0, n), n)]: all orders of the
    positions, lexicographically. *)
Fixpoint permutations_of (n : nat) (l : list nat) : list (list nat) :=
  match n with
  | 0 => [[]]
  | S n' =>
      flat_map (λ x, map (cons x) (permutations_of n' (filter (λ y, y ≠ x) l))) l
  end.

Definition get_all_possible_orders_for_result_vector (f : MCFGFunc)
  : list (list nat) :=
  permutations_of (List.length (result_vector f))
                  (seq 0 (List.length (result_vector f))).

(** [MCFGParser.call_func]: one atom of the result vector. *)
Definition call_func_atom (terms : list string) (func : MCFGFunc)
    (args : list string) (item : string) : option string :=
  if PyStr.mem item terms then Some item
  else
    groups ← PyStr.match_placeholder item;
    arg_index ← PyStr.index_of groups.1 (input_args func);
    arg ← args !! arg_index;
    Some (arg +:+ "(" +:+ groups.2 +:+ ")").

(** [MCFGParser.call_func] *)
Definition call_func (terms : list string) (func : MCFGFunc) (args : list string)
  : option (list (list string)) :=
  if bool_decide (List.length args ≠ List.length (input_args func)) then None
  else mapM (λ component, mapM (call_func_atom terms func args) component)
            (result_vector func).

(** [grammar.vars_to_rules[symbol]]: the rule objects with that
    left-hand side, in the order of the rule list; a default
    dictionary, so a symbol without rules gives the empty list. *)
Fixpoint vars_to_rules_from (pos : nat) (rs : list MCFGRule) (sym : string)
  : list nat :=
  match rs with
  | [] => []
  | r :: rs' =>
      if String.eqb (rule_symbol r) sym
      then pos :: vars_to_rules_from (S pos) rs' sym
      else vars_to_rules_from (S pos) rs' sym
  end.

Definition vars_to_rules (g : MCFG) (sym : string) : list nat :=
  vars_to_rules_from 0 (rules g) sym.

Definition with_rules (g : MCFG) (rs : list MCFGRule) : MCFG :=
  {| start_symbol := start_symbol g; terminals := terminals g; rules := rs |}.

(** [rule.mark_used()] on the rule object at position [i]. *)
Definition mark_rule_used (i : nat) : M unit :=
  modify (λ s, with_grammar s
    (with_rules (grammar s) (alter mark_used i (rules (grammar s))))).

(** ** Predict *)

(** The loop over the possible orders in [do_predict]: one new item per
    order. *)
Fixpoint predict_orders (sym : string) (tindex : nat)
    (vector_binding : list (list string)) (rule_ref : nat)
    (possible_arg_index_order : list (list nat)) : M (list nat) :=
  match possible_arg_index_order with
  | [] => ret []
  | possible_order :: rest =>
      active_item <~ new_ActiveItem sym tindex tindex (0, 0) predict
                       possible_order tindex vector_binding rule_ref [] [] ;;
      items <~ predict_orders sym tindex vector_binding rule_ref rest ;;
      ret (active_item :: items)
  end.

(** The body of the loop over the rules of one symbol in [do_predict];
    the result is the list of items created for the rule. *)
Definition predict_rule (token : string) (tindex : nat) (sym : string)
    (rule_ref : nat) : M (list nat) :=
  s <~ get ;;
  rule <~ lift (rules (grammar s) !! rule_ref) ;;
  if used_in_prediction rule then ret []
  else
    bo <~ lift (match function rule with
                | RTerminal t => Some ([[t]], [[0]])
                | RFunc rule_func =>
                    vb ← call_func (terminals (grammar s)) rule_func (vars rule);
                    Some (vb, get_all_possible_orders_for_result_vector rule_func)
                end) ;;
    let vector_binding := bo.1 in
    let possible_arg_index_order := bo.2 in
    first_symbol_in_yield <~ lift (c ← vector_binding !! 0; c !! 0) ;;
    if PyStr.mem first_symbol_in_yield (terminals (grammar s))
       && negb (String.eqb first_symbol_in_yield token)
    then ret []
    else
      mark_rule_used rule_ref ;;;
      add_item_to_prediction_strategy (set_of_list (vars rule)) ;;;
      predict_orders sym tindex vector_binding rule_ref possible_arg_index_order.

(** Collecting the results of a loop body that appends to a list. *)
Fixpoint collect {A B} (l : list A) (body : A → M (list B)) : M (list B) :=
  match l with
  | [] => ret []
  | x :: l' => ys <~ body x ;; rest <~ collect l' body ;; ret (ys ++ rest)
  end.

(** [MCFGParser.do_predict] *)
Definition do_predict (token : string) (tindex : nat)
    (strategy : list string) : M (list nat) :=
  collect strategy (λ sym,
    s <~ get ;;
    collect (vars_to_rules (grammar s) sym) (predict_rule token tindex sym)).

(** ** Scan *)

(** [MCFGParser.do_scan]: the pair of the new active items and the new
    completed items. *)
Definition do_scan (r : nat) (token : string) (tindex : nat)
  : M (list nat * list nat) :=
  active_item <~ deref r ;;
  if bool_decide (tindex < token_index active_item) then ret ([], [])
  else if is_scanned active_item then ret ([], [])
  else
    let symbol_after_dot := get_symbol_after_dot active_item in
    if bool_decide (symbol_after_dot = Some token) then
      let antecedent_ids := [get_item_id active_item] in
      let vector_binding_copy := vector_binding active_item in
      nc <~ lift (get_next_dot_position_and_check_if_complete active_item false) ;;
      let next_dot_position := nc.1 in
      let complete := nc.2 in
      let found_sequence := found_sequence active_item ++ [token] in
      scanned_active_item <~
        new_ActiveItem (symbol active_item) (found_start active_item)
          (found_end active_item + 1) next_dot_position scan
          (range_order active_item) tindex vector_binding_copy
          (rule active_item) antecedent_ids found_sequence ;;
      update_item r mark_scanned ;;;
      if complete then
        update_item scanned_active_item mark_ignored ;;;
        complete_active_item <~ create_complete_item scanned_active_item ;;
        ret ([scanned_active_item], [complete_active_item])
      else ret ([scanned_active_item], [])
    else ret ([], []).

(** ** Combine *)

(** The candidates of [do_combine] for one completed component: the
    items of the snapshot whose symbol after the dot is that component. *)
Fixpoint candidates_for_combining (completed_component : string)
    (current_active_items : list nat) : M (list nat) :=
  match current_active_items with
  | [] => ret []
  | r :: rest =>
      item <~ deref r ;;
      l <~ candidates_for_combining completed_component rest ;;
      ret (if bool_decide (get_symbol_after_dot item = Some completed_component)
           then r :: l else l)
  end.

(** The keys that two dictionaries share. *)
Definition common_components {V} (d1 d2 : list (string * V)) : list string :=
  filter (λ k, k ∈ dict_keys d2) (dict_keys d1).

(** The body of the loop over the candidates in [do_combine]. *)
Definition combine_candidate (completed_item : nat) (tindex : nat)
    (completed_components_and_values : list (string * list string))
    (completed_component : string) (completed_component_value : string)
    (r : nat) : M (list nat * list nat) :=
  active_item <~ deref r ;;
  donor <~ deref completed_item ;;
  if bool_decide (tindex < token_index active_item) then ret ([], [])
  else
    let couple_ids := (get_item_id active_item, get_item_id donor) in
    seen <~ check_if_couple_is_already_combined couple_ids ;;
    if seen then ret ([], [])
    else
      update_combined_couples couple_ids ;;;
      item_completed_components <~
        lift (get_all_completed_components_and_values active_item) ;;
      if negb (bool_decide (item_completed_components = []))
         && bool_decide (1 < List.length (dict_keys completed_components_and_values))
      then
        (* the loop over the common components: a mismatch continues
           this inner loop, and nothing follows it *)
        for_each (common_components completed_components_and_values
                    item_completed_components)
          (λ component,
             if bool_decide (dict_get component item_completed_components
                             ≠ dict_get component completed_components_and_values)
             then ret tt else ret tt) ;;;
        ret ([], [])
      else
        let antecedent_ids := [get_item_id active_item; get_item_id donor] in
        new_vector_binding <~
          lift (get_new_vector_binding active_item completed_component_value) ;;
        nc <~ lift (get_next_dot_position_and_check_if_complete active_item false) ;;
        let next_dot_position := nc.1 in
        let complete := nc.2 in
        let new_found_sequence :=
          found_sequence active_item ++ [completed_component_value] in
        let new_found_start := found_start active_item in
        let new_found_end := found_end active_item + 1 in
        combined_item <~
          new_ActiveItem (symbol active_item) new_found_start new_found_end
            next_dot_position combine (range_order active_item) tindex
            new_vector_binding (rule active_item) antecedent_ids
            new_found_sequence ;;
        if complete then
          update_item combined_item mark_ignored ;;;
          completed_combined_item <~ create_complete_item combined_item ;;
          ret ([combined_item], [completed_combined_item])
        else ret ([combined_item], []).

(** Loops whose bodies append to two result lists. *)
Fixpoint collect2 {A B C} (l : list A) (body : A → M (list B * list C))
  : M (list B * list C) :=
  match l with
  | [] => ret ([], [])
  | x :: l' =>
      p <~ body x ;;
      q <~ collect2 l' body ;;
      ret (p.1 ++ q.1, p.2 ++ q.2)
  end.

(** [MCFGParser.do_combine] *)
Definition do_combine (completed_item : nat) (tindex : nat)
    (current_active_items : list nat) : M (list nat * list nat) :=
  donor <~ deref completed_item ;;
  completed_components_and_values <~
    lift (get_all_completed_components_and_values donor) ;;
  collect2 completed_components_and_values (λ kv,
    let completed_component := kv.1 in
    let completed_component_value := PyStr.join " " kv.2 in
    candidates <~ candidates_for_combining completed_component current_active_items ;;
    collect2 candidates
      (combine_candidate completed_item tindex completed_components_and_values
         completed_component completed_component_value)).

(** ** Engine *)

(** [run_action_and_add_items_to_chart], one definition per action. *)
Definition run_predict (strategy : list string) (tindex : nat) (token : string)
  : M bool :=
  active_items <~ do_predict token tindex strategy ;;
  add_active_items_to_chart active_items.

Definition run_combine (completed_item : nat) (tindex : nat)
    (current_active_items : list nat) : M bool :=
  p <~ do_combine completed_item tindex current_active_items ;;
  f1 <~ add_active_items_to_chart p.1 ;;
  f2 <~ add_active_items_to_chart p.2 ;;
  f3 <~ add_completed_items_to_chart p.2 ;;
  ret (f1 || f2 || f3).

Definition run_scan (active_item : nat) (token : string) (tindex : nat) : M bool :=
  p <~ do_scan active_item token tindex ;;
  f1 <~ add_active_items_to_chart p.1 ;;
  f2 <~ add_active_items_to_chart p.2 ;;
  f3 <~ add_completed_items_to_chart p.2 ;;
  ret (f1 || f2 || f3).

(** A loop that accumulates [not_finished or added]. *)
Fixpoint any_added {A} (l : list A) (body : A → M bool) (acc : bool) : M bool :=
  match l with
  | [] => ret acc
  | x :: l' => added <~ body x ;; any_added l' body (acc || added)
  end.

(** One pass of the [while not_finished] loop: predict, combine, scan. *)
Definition sweep (token : string) (index : nat) : M bool :=
  strategy <~ get_current_prediction_strategy ;;
  predicted_items_added <~ run_predict strategy index token ;;
  let not_finished := false || predicted_items_added in
  current_active_items <~ get_items_list active_items ;;
  donors <~ get_items_list active_items_with_completed_components ;;
  not_finished <~
    any_added donors
      (λ completed_item, run_combine completed_item index current_active_items)
      not_finished ;;
  current_active_items <~ get_items_list active_items ;;
  any_added current_active_items
    (λ active_item, run_scan active_item token index) not_finished.

(** The [while not_finished] loop, with a bound on its passes. *)
Fixpoint sweeps (fuel : nat) (token : string) (index : nat) : M unit :=
  match fuel with
  | 0 => out_of_fuel
  | S fuel' =>
      not_finished <~ sweep token index ;;
      if not_finished then sweeps fuel' token index else ret tt
  end.

(** [run_incremental_parse_for_max_position_i] *)
Definition run_incremental_parse_for_max_position_i (fuel : nat)
    (toks : list string) (index : nat) : M unit :=
  token <~ lift (toks !! index) ;;
  (if bool_decide (index = 0) then
     s <~ get ;;
     run_predict [start_symbol (grammar s)] 0 token ;;; ret tt
   else ret tt) ;;;
  sweeps fuel token index.

(** ** Trace extraction *)

(** [self.chart['all_items'][i]]: [KeyError] for an unknown id. *)
Definition all_items_lookup (i : nat) : M ActiveItem :=
  s <~ get ;;
  if bool_decide (i ∈ all_items (chart s)) then deref i else raise.

(** [item in parsing_table] for a list of objects. *)
Fixpoint item_in_table (rs : list MCFGRule) (item : ActiveItem)
    (table : list ActiveItem) : option bool :=
  match table with
  | [] => Some false
  | v :: rest =>
      if bool_decide (item_id v = item_id item) then Some true
      else
        same ← item_eq rs v item;
        if (same : bool) then Some true else item_in_table rs item rest
  end.

(** The [while antecedents] loop of [get_parsing_table]. *)
Fixpoint parsing_table_loop (fuel : nat) (antecedents : list nat)
    (parsing_table : list ActiveItem) : M (list ActiveItem) :=
  match antecedents with
  | [] => ret parsing_table
  | active_item_id :: antecedents' =>
      match fuel with
      | 0 => out_of_fuel
      | S fuel' =>
          item <~ all_items_lookup active_item_id ;;
          s <~ get ;;
          present <~ lift (item_in_table (rules (grammar s)) item parsing_table) ;;
          if present then parsing_table_loop fuel' antecedents' parsing_table
          else parsing_table_loop fuel' (antecedents' ++ antecedent_ids item)
                 (item :: parsing_table)
      end
  end.

(** [MCFGParserChart.get_parsing_table] *)
Definition get_parsing_table (fuel : nat) (active_item_id : nat)
  : M (list ActiveItem) :=
  item <~ all_items_lookup active_item_id ;;
  parsing_table_loop fuel (antecedent_ids item) [item].

(** ** Parse *)

(** The search for a goal among the completed items, with [break]. *)
Fixpoint find_goal (start text : string) (items : list nat) : M (option nat) :=
  match items with
  | [] => ret None
  | r :: rest =>
      item <~ deref r ;;
      if String.eqb (symbol item) start
         && String.eqb (PyStr.join " " (found_sequence item)) text
      then ret (Some r)
      else find_goal start text rest
  end.

(** The [for index in range(0, len(tokens))] loop of [parse]. *)
Fixpoint token_loop (fuel : nat) (text : string) (toks : list string)
    (indexes : list nat) (successful_parsing_item : option nat)
  : M (option nat) :=
  match indexes with
  | [] => ret successful_parsing_item
  | index :: rest =>
      run_incremental_parse_for_max_position_i fuel toks index ;;;
      s <~ get ;;
      items <~ get_items_list completed_items ;;
      found <~ find_goal (start_symbol (grammar s)) text items ;;
      token_loop fuel text toks rest
        (match found with Some r => Some r | None => successful_parsing_item end)
  end.

(** [MCFGParser.parse]: a new chart, the token loop, and the parsing
    table of the goal when there is one. *)
Definition parse (fuel : nat) (text : string) : M (option (list ActiveItem)) :=
  let toks := PyStr.split_space text in
  modify (λ s, with_chart s (new_chart toks (terminals (grammar s)))) ;;;
  successful_parsing_item <~
    token_loop fuel text toks (seq 0 (List.length toks)) None ;;
  match successful_parsing_item with
  | Some r =>
      item <~ deref r ;;
      table <~ get_parsing_table fuel (get_item_id item) ;;
      ret (Some table)
  | None => ret None
  end.

(** A parser on a grammar, before its first parse, with the class
    counter at [n0]. *)
Definition initial_state (g : MCFG) (n0 : nat) : PState :=
  {| grammar := g; chart := new_chart [] (terminals g);
     store := ∅; items_counter := n0 |}.

(** ** Grammar simplification *)

Module Simplify.

  (** [MCFGRule.__eq__] as used by the set of rule objects: the set
      compares two rules only when their hashes agree, which is the case
      for rules with the same symbol, right-hand element and variables. *)
Definition same_rule (r1 r2 : MCFGRule) : bool :=
    String.eqb (rule_symbol r1) (rule_symbol r2)
    && match function r1, function r2 with
       | RTerminal s, RTerminal t => String.eqb s t
       | RFunc f, RFunc g => func_eq f g
       | _, _ => false
       end
    && bool_decide (vars r1 = vars r2).

  (** [set.add] on a set of rules kept without repetitions. *)
Definition set_add (r : MCFGRule) (s : list MCFGRule) : list MCFGRule :=
    if existsb (same_rule r) s then s else s ++ [r].

  (** [set.add] / [set.update] on a set of strings. *)
Definition str_add (x : string) (s : list string) : list string :=
    if PyStr.mem x s then s else s ++ [x].

  (** [set(s)] for a string [s]: its characters. *)
Fixpoint chars (s : string) : list string :=
    match s with
    | EmptyString => []
    | String c s' => str_add (String c "") (chars s')
    end.

  (** One atom of the result vector in [get_right_hand_side]. *)
Definition rhs_atom (terms : list string) (f : MCFGFunc) (vs : list string)
      (c : string) : option string :=
    if PyStr.mem c terms then Some c
    else
      groups ← PyStr.match_placeholder c;
      arg_index ← PyStr.index_of groups.1 (input_args f);
      vs !! arg_index.

  (** [get_right_hand_side] *)
Definition get_right_hand_side (terms : list string) (r : MCFGRule)
    : option (list string) :=
    match function r with
    | RTerminal t => Some (chars t)
    | RFunc f =>
        atoms ← mapM (rhs_atom terms f (vars r)) (List.concat (result_vector f));
        Some (foldl (λ acc c, str_add c acc) [] atoms)
    end.

  (** [all_vector_components_in_set] *)
Definition all_vector_components_in_set (l predicate_set : list string) : bool :=
    forallb (λ v, PyStr.mem v predicate_set) l.

  (** [rule in original_rules] for a list of rules. *)
Fixpoint rule_in (r : MCFGRule) (l : list MCFGRule) : option bool :=
    match l with
    | [] => Some false
    | x :: l' =>
        same ← rule_eq x r;
        if (same : bool) then Some true else rule_in r l'
    end.

  (** [original_rules.remove(rule)]: the first equal element goes. *)
Fixpoint rule_remove (r : MCFGRule) (l : list MCFGRule) : option (list MCFGRule) :=
    match l with
    | [] => None
    | x :: l' =>
        same ← rule_eq x r;
        if (same : bool) then Some l' else cons x <$> rule_remove r l'
    end.

  (** [update_original_rules]: the remaining rules and the flag. *)
Fixpoint update_original_rules (useful_rules original_rules : list MCFGRule)
      (found : bool) : option (list MCFGRule * bool) :=
    match useful_rules with
    | [] => Some (original_rules, found)
    | r :: rest =>
        present ← rule_in r original_rules;
        if (present : bool) then
          l ← rule_remove r original_rules;
          update_original_rules rest l true
        else update_original_rules rest original_rules found
    end.

  (** The loop that collects the rules all of whose right-hand side is
      known to lead to terminals. *)
Fixpoint useful_pass (terms : list string) (original_rules : list MCFGRule)
      (useful_rules : list MCFGRule) (terminal_predicates : list string)
    : option (list MCFGRule * list string) :=
    match original_rules with
    | [] => Some (useful_rules, terminal_predicates)
    | r :: rest =>
        right_hand_side ← get_right_hand_side terms r;
        if all_vector_components_in_set right_hand_side terminal_predicates
        then useful_pass terms rest (set_add r useful_rules)
               (str_add (rule_symbol r) terminal_predicates)
        else useful_pass terms rest useful_rules terminal_predicates
    end.

  (** The first loop of [eliminate_useless_rules]. *)
Fixpoint terminating_pass (original_rules : list MCFGRule)
      (useful_rules : list MCFGRule) (terminal_predicates : list string)
    : list MCFGRule * list string :=
    match original_rules with
    | [] => (useful_rules, terminal_predicates)
    | r :: rest =>
        if is_terminating_rule r
        then terminating_pass rest (set_add r useful_rules)
               (str_add (rule_symbol r) terminal_predicates)
        else terminating_pass rest useful_rules terminal_predicates
    end.

  (** The [while found_useful_rules] loop. *)
Fixpoint useful_loop (fuel : nat) (terms : list string)
      (original_rules useful_rules : list MCFGRule)
      (terminal_predicates : list string) : option (option (list MCFGRule)) :=
    match fuel with
    | 0 => Some None
    | S fuel' =>
        p ← useful_pass terms original_rules useful_rules terminal_predicates;
        q ← update_original_rules p.1 original_rules false;
        if (q.2 : bool) then useful_loop fuel' terms q.1 p.1 p.2
        else Some (Some p.1)
    end.

  (** [eliminate_useless_rules].  The outer [None] is an exception, the
      inner one a loop that outlived its fuel. *)
Definition eliminate_useless_rules (fuel : nat) (terms : list string)
      (rules : list MCFGRule) : option (option (list MCFGRule)) :=
    let original_rules := rules in
    let t := terminating_pass original_rules []
               (foldl (λ acc c, str_add c acc) [] terms) in
    p ← useful_pass terms original_rules t.1 t.2;
    q ← update_original_rules p.1 original_rules false;
    if negb (q.2 : bool) then Some (Some [])
    else useful_loop fuel terms q.1 p.1 p.2.

  (** The loop that collects the rules with a reachable left-hand side. *)
Fixpoint reachable_pass (terms : list string) (original_rules : list MCFGRule)
      (test : MCFGRule → list string → bool)
      (reachable_rules : list MCFGRule) (reachable_predicates : list string)
    : option (list MCFGRule * list string) :=
    match original_rules with
    | [] => Some (reachable_rules, reachable_predicates)
    | r :: rest =>
        if test r reachable_predicates then
          right_hand_side ← get_right_hand_side terms r;
          reachable_pass terms rest test (set_add r reachable_rules)
            (foldl (λ acc c, str_add c acc) reachable_predicates right_hand_side)
        else reachable_pass terms rest test reachable_rules reachable_predicates
    end.

  (** The [while found_reachable_rules] loop. *)
Fixpoint reachable_loop (fuel : nat) (terms : list string)
      (original_rules reachable_rules : list MCFGRule)
      (reachable_predicates : list string) : option (option (list MCFGRule)) :=
    match fuel with
    | 0 => Some None
    | S fuel' =>
        p ← reachable_pass terms original_rules
               (λ r preds, PyStr.mem (rule_symbol r) preds)
               reachable_rules reachable_predicates;
        q ← update_original_rules p.1 original_rules false;
        if (q.2 : bool) then reachable_loop fuel' terms q.1 p.1 p.2
        else Some (Some p.1)
    end.

  (** [eliminate_unreachable_rules] *)
Definition eliminate_unreachable_rules (fuel : nat) (terms : list string)
      (start : string) (rules : list MCFGRule) : option (option (list MCFGRule)) :=
    let original_rules := rules in
    p ← reachable_pass terms original_rules
           (λ r _, String.eqb (rule_symbol r) start) [] [];
    q ← update_original_rules p.1 original_rules false;
    if negb (q.2 : bool) then Some (Some [])
    else reachable_loop fuel terms q.1 p.1 p.2.

  (** [simplify] *)
Definition simplify (fuel : nat) (terms : list string) (start : string)
      (rules : list MCFGRule) : option (option (list MCFGRule)) :=
    useful ← eliminate_useless_rules fuel terms rules;
    match useful with
    | None => Some None
    | Some rs => eliminate_unreachable_rules fuel terms start rs
    end.

End Simplify.

(** A rule as it is written, before [connect_rules_to_funcs]: the
    right-hand element is a terminal or the name of a function. *)
Record RawRule := {
  raw_symbol : string;
  raw_function : string;
  raw_vars : list string
}.

(** [func_name_to_func[name]]: with several functions of one name the
    last one is kept; [None] for [KeyError]. *)
Definition func_name_to_func (functions : list MCFGFunc) (name : string)
  : option MCFGFunc :=
  last (filter (λ f, func_name f = name) functions).

(** [MCFG.connect_rules_to_funcs] *)
Definition connect_rules_to_funcs (terms : list string)
    (functions : list MCFGFunc) (rs : list RawRule) : option (list MCFGRule) :=
  mapM (λ r,
    if PyStr.mem (raw_function r) terms
    then Some {| rule_symbol := raw_symbol r;
                 function := RTerminal (raw_function r);
                 vars := raw_vars r; used := false |}
    else
      f ← func_name_to_func functions (raw_function r);
      Some {| rule_symbol := raw_symbol r; function := RFunc f;
              vars := raw_vars r; used := false |}) rs.

(** [MCFG.__init__] *)
Definition MCFG_init (fuel : nat) (terms : list string)
    (functions : list MCFGFunc) (rs : list RawRule) (start : string)
  : option (option MCFG) :=
  connected ← connect_rules_to_funcs terms functions rs;
  simplified ← Simplify.simplify fuel terms start connected;
  Some (rs' ← simplified;
        Some {| start_symbol := start; terminals := terms; rules := rs' |}).

(** * Properties *)

(** ** Strings *)

Lemma prefix_app (p s : string) :
  String.prefix p s = true ↔ ∃ r, s = p +:+ r.
Proof.
  revert s. induction p as [|c p IH]; intros s.
  - split; [intros _; exists s; reflexivity | intros _; by destruct s].
  - destruct s as [|d s]; simpl.
    + split; [done | intros [r Hr]; discriminate].
    + destruct (Ascii.ascii_dec c d) as [->|Hne].
      * rewrite IH. split; intros [r Hr]; exists r; simpl in *.
        -- by rewrite Hr.
        -- by inversion Hr.
      * split; [done | intros [r Hr]; simpl in Hr; by inversion Hr].
Qed.

Lemma contains_cons (sub : string) (c : ascii) (s : string) :
  PyStr.contains sub (String c s)
  = String.prefix sub (String c s) || PyStr.contains sub s.
Proof. reflexivity. Qed.

Lemma contains_infix_of (sub s : string) :
  PyStr.contains sub s = true ↔ PyStr.infix_of sub s.
Proof.
  unfold PyStr.infix_of. induction s as [|c s IH].
  - destruct sub as [|a sub]; simpl.
    + split; [intros _; by exists "", "" | done].
    + split; [done | intros (l & r & H)].
      destruct l; simpl in H; discriminate.
  - rewrite contains_cons, orb_true_iff, prefix_app, IH. split.
    + intros [[r Hr] | (l & r & Hr)].
      * by exists "", r.
      * exists (String c l), r. simpl. by rewrite Hr.
    + intros (l & r & H). destruct l as [|d l]; simpl in H.
      * left. by exists r.
      * right. exists l, r. by inversion H.
Qed.

(** ** Reasoning about parser actions *)

Lemma bind_Done {A B} (m : M A) (k : A → M B) s b s'' :
  bind m k s = Done b s'' ↔ ∃ a s', m s = Done a s' ∧ k a s' = Done b s''.
Proof.
  unfold bind. destruct (m s) as [a s'| |]; split.
  - intros H. by exists a, s'.
  - intros (a' & s0 & [= -> ->] & H). done.
  - done.
  - intros (? & ? & [=] & _).
  - done.
  - intros (? & ? & [=] & _).
Qed.

Lemma lift_Done {A} (o : option A) s a s' :
  lift o s = Done a s' ↔ o = Some a ∧ s' = s.
Proof.
  destruct o; simpl; unfold ret, raise; split;
    try (intros [= -> ->]; done); try (intros [[=] ?]; congruence); done.
Qed.

Lemma deref_Done i s a s' :
  deref i s = Done a s' ↔ store s !! i = Some a ∧ s' = s.
Proof.
  unfold deref. rewrite bind_Done. split.
  - intros (x & s0 & [= <- <-] & H). by apply lift_Done in H.
  - intros [H ->]. exists s, s. split; [done | by apply lift_Done].
Qed.

(** An action preserves a relation between the state before and the
    state after when every run that finishes relates the two. *)
Definition preserves {A} (R : relation PState) (m : M A) : Prop :=
  ∀ s a s', m s = Done a s' → R s s'.

Section Preserves.
Context (R : relation PState) `{!PreOrder R}.

Lemma preserves_ret {A} (a : A) : preserves R (ret a).
Proof. intros s a' s' [= _ <-]. reflexivity. Qed.

Lemma preserves_raise {A} : preserves R (@raise A).
Proof. intros s a s' [=]. Qed.

Lemma preserves_out_of_fuel {A} : preserves R (@out_of_fuel A).
Proof. intros s a s' [=]. Qed.

Lemma preserves_get : preserves R get.
Proof. intros s a s' [= _ <-]. reflexivity. Qed.

Lemma preserves_lift {A} (o : option A) : preserves R (lift o).
Proof. intros s a s' [_ ->]%lift_Done. reflexivity. Qed.

Lemma preserves_deref i : preserves R (deref i).
Proof. intros s a s' [_ ->]%deref_Done. reflexivity. Qed.

Lemma preserves_bind {A B} (m : M A) (k : A → M B) :
    preserves R m → (∀ a, preserves R (k a)) → preserves R (bind m k).
Proof.
    intros Hm Hk s b s'' (a & s' & H1 & H2)%bind_Done.
    transitivity s'; [by eapply Hm | by eapply Hk].
Qed.

Lemma preserves_modify (f : PState → PState) :
    (∀ s, R s (f s)) → preserves R (modify f).
Proof. intros Hf s a s' [= _ <-]. apply Hf. Qed.

Lemma preserves_for_each {A} (l : list A) (body : A → M unit) :
    (∀ x, x ∈ l → preserves R (body x)) → preserves R (for_each l body).
Proof.
    induction l as [|x l IH]; intros H; simpl.
    - apply preserves_ret.
    - apply preserves_bind; [apply H; left | intros _; apply IH].
      intros y Hy. apply H. by right.
Qed.

Lemma preserves_collect {A B} (l : list A) (body : A → M (list B)) :
    (∀ x, x ∈ l → preserves R (body x)) → preserves R (collect l body).
Proof.
    induction l as [|x l IH]; intros H; simpl.
    - apply preserves_ret.
    - apply preserves_bind; [apply H; left | intros ys].
      apply preserves_bind; [|intros ?; apply preserves_ret].
      apply IH. intros y Hy. apply H. by right.
Qed.

Lemma preserves_collect2 {A B C} (l : list A) (body : A → M (list B * list C)) :
    (∀ x, x ∈ l → preserves R (body x)) → preserves R (collect2 l body).
Proof.
    induction l as [|x l IH]; intros H; simpl.
    - apply preserves_ret.
    - apply preserves_bind; [apply H; left | intros ys].
      apply preserves_bind; [|intros ?; apply preserves_ret].
      apply IH. intros y Hy. apply H. by right.
Qed.

Lemma preserves_any_added {A} (l : list A) (body : A → M bool) acc :
    (∀ x, x ∈ l → preserves R (body x)) → preserves R (any_added l body acc).
Proof.
    revert acc. induction l as [|x l IH]; intros acc H; simpl.
    - apply preserves_ret.
    - apply preserves_bind; [apply H; left | intros b].
      apply IH. intros y Hy. apply H. by right.
Qed.
End Preserves.

(** One step of a proof that a composite action preserves a relation. *)
Ltac pres_tc :=
  lazymatch goal with
  | |- PreOrder _ => apply _
  | |- Reflexive _ => apply _
  | _ => idtac
  end.

Ltac pres_step :=
  lazymatch goal with
  | |- preserves _ (bind _ _) =>
      apply preserves_bind; pres_tc; [try done | intros ?]
  | |- preserves _ (ret _) => apply preserves_ret; pres_tc
  | |- preserves _ raise => apply preserves_raise
  | |- preserves _ out_of_fuel => apply preserves_out_of_fuel
  | |- preserves _ get => apply preserves_get; pres_tc
  | |- preserves _ (lift _) => apply preserves_lift; pres_tc
  | |- preserves _ (deref _) => apply preserves_deref; pres_tc
  | |- preserves _ (for_each _ _) =>
      apply preserves_for_each; pres_tc; [intros ? ?]
  | |- preserves _ (collect _ _) =>
      apply preserves_collect; pres_tc; [intros ? ?]
  | |- preserves _ (collect2 _ _) =>
      apply preserves_collect2; pres_tc; [intros ? ?]
  | |- preserves _ (any_added _ _ _) =>
      apply preserves_any_added; pres_tc; [intros ? ?]
  | |- preserves _ (if ?b then _ else _) => destruct b
  | |- preserves _ (match ?o with _ => _ end) => destruct o
  | |- preserves _ (let _ := _ in _) => cbv zeta
  end.

Ltac pres := repeat pres_step.

(** Actions that only read the state. *)
Definition read_only {A} (m : M A) : Prop := preserves eq m.

Lemma read_only_preserves {A} (R : relation PState) `{!Reflexive R} (m : M A) :
  read_only m → preserves R m.
Proof. intros H s a s' Hm. by rewrite (H _ _ _ Hm). Qed.

Lemma read_only_filter l : read_only (filter_out_non_compatible_items l).
Proof. unfold read_only. induction l; simpl; pres; try done. Qed.

Lemma read_only_item_in_values item keys : read_only (item_in_values item keys).
Proof. unfold read_only. induction keys; simpl; pres; try done. Qed.

Lemma read_only_get_items_list_of keys : read_only (get_items_list_of keys).
Proof. unfold read_only. induction keys; simpl; pres; try done. Qed.

Lemma read_only_get_items_list n : read_only (get_items_list n).
Proof.
  unfold read_only, get_items_list. pres. apply read_only_get_items_list_of.
Qed.

Lemma read_only_get_current_prediction_strategy :
  read_only get_current_prediction_strategy.
Proof. unfold read_only, get_current_prediction_strategy. pres. Qed.

Lemma read_only_check_couple p : read_only (check_if_couple_is_already_combined p).
Proof.
  unfold read_only, check_if_couple_is_already_combined. destruct p. pres.
Qed.

Lemma read_only_candidates c l : read_only (candidates_for_combining c l).
Proof. unfold read_only. induction l; simpl; pres; try done. Qed.

Lemma read_only_find_goal start text l : read_only (find_goal start text l).
Proof. unfold read_only. induction l; simpl; pres; try done. Qed.

Lemma read_only_all_items_lookup i : read_only (all_items_lookup i).
Proof. unfold read_only, all_items_lookup. pres. Qed.

Lemma read_only_parsing_table_loop fuel ants table :
  read_only (parsing_table_loop fuel ants table).
Proof.
  unfold read_only. revert ants table.
  induction fuel; intros [|a ants] table; simpl; pres;
    try apply read_only_all_items_lookup; apply IHfuel.
Qed.

Lemma read_only_get_parsing_table fuel i : read_only (get_parsing_table fuel i).
Proof.
  unfold read_only, get_parsing_table. pres;
    [apply read_only_all_items_lookup | apply read_only_parsing_table_loop].
Qed.

(** The engine preserves every relation that its elementary updates
    and the two insertion operations of the chart preserve. *)
Section Engine.
Context (R : relation PState) `{!PreOrder R}.
Hypothesis R_new_item : ∀ sym fs fe dot act order ti vb rl ants fseq,
    preserves R (new_ActiveItem sym fs fe dot act order ti vb rl ants fseq).
Hypothesis R_mark_scanned : ∀ r, preserves R (update_item r mark_scanned).
Hypothesis R_mark_ignored : ∀ r, preserves R (update_item r mark_ignored).
Hypothesis R_mark_rule_used : ∀ i, preserves R (mark_rule_used i).
Hypothesis R_strategy : ∀ l, preserves R (add_item_to_prediction_strategy l).
Hypothesis R_couples : ∀ p, preserves R (update_combined_couples p).
Hypothesis R_add_active : ∀ l, preserves R (add_active_items_to_chart l).
Hypothesis R_add_completed : ∀ l, preserves R (add_completed_items_to_chart l).

Local Ltac ro :=
    first [ apply read_only_preserves; [apply _ |];
            first [ apply read_only_get_items_list
                  | apply read_only_get_current_prediction_strategy
                  | apply read_only_check_couple
                  | apply read_only_candidates
                  | apply read_only_find_goal ] ].

Lemma preserves_create_complete_item r : preserves R (create_complete_item r).
Proof. unfold create_complete_item. pres. apply R_new_item. Qed.

Lemma preserves_predict_rule token ti sym r :
    preserves R (predict_rule token ti sym r).
Proof.
    unfold predict_rule. pres; try apply R_mark_rule_used; try apply R_strategy.
    match goal with |- preserves _ (predict_orders _ _ _ _ ?l) => generalize l end.
    intros l. induction l as [|o l IH]; simpl; pres; done.
Qed.

Lemma preserves_do_predict token ti strategy :
    preserves R (do_predict token ti strategy).
Proof. unfold do_predict. pres. apply preserves_predict_rule. Qed.

Lemma preserves_do_scan r token ti : preserves R (do_scan r token ti).
Proof.
    unfold do_scan. pres;
      first [apply R_new_item | apply R_mark_scanned | apply R_mark_ignored
            | apply preserves_create_complete_item].
Qed.

Lemma preserves_combine_candidate d ti ccv cc v r :
    preserves R (combine_candidate d ti ccv cc v r).
Proof.
    unfold combine_candidate. pres;
      first [ro | apply R_new_item | apply R_couples | apply R_mark_ignored
            | apply preserves_create_complete_item].
Qed.

Lemma preserves_do_combine d ti l : preserves R (do_combine d ti l).
Proof.
    unfold do_combine. pres; first [ro | apply preserves_combine_candidate].
Qed.

Lemma preserves_run_predict strategy ti token :
    preserves R (run_predict strategy ti token).
Proof.
    unfold run_predict. pres; [apply preserves_do_predict | apply R_add_active].
Qed.

Lemma preserves_run_combine d ti l : preserves R (run_combine d ti l).
Proof.
    unfold run_combine. pres;
      first [apply preserves_do_combine | apply R_add_active | apply R_add_completed].
Qed.

Lemma preserves_run_scan r token ti : preserves R (run_scan r token ti).
Proof.
    unfold run_scan. pres;
      first [apply preserves_do_scan | apply R_add_active | apply R_add_completed].
Qed.

Lemma preserves_sweep token index : preserves R (sweep token index).
Proof.
    unfold sweep. pres;
      first [ro | apply preserves_run_predict | apply preserves_run_combine
            | apply preserves_run_scan].
Qed.

Lemma preserves_sweeps fuel token index : preserves R (sweeps fuel token index).
Proof. induction fuel; simpl; pres; try done. apply preserves_sweep. Qed.

Lemma preserves_run_incremental fuel toks index :
    preserves R (run_incremental_parse_for_max_position_i fuel toks index).
Proof.
    unfold run_incremental_parse_for_max_position_i. pres;
      first [apply preserves_run_predict | apply preserves_sweeps].
Qed.

Lemma preserves_token_loop fuel text toks indexes goal :
    preserves R (token_loop fuel text toks indexes goal).
Proof.
    revert goal. induction indexes as [|i l IH]; intros goal; simpl; pres;
      first [ro | apply preserves_run_incremental | apply IH].
Qed.
End Engine.

(** Relations that do not look at the chart: every operation of the
    chart store preserves them, and so does a whole parse. *)
Section ChartFree.
Context (R : relation PState) `{!PreOrder R}.
Hypothesis R_chart : ∀ s c, R s (with_chart s c).
Hypothesis R_new_item : ∀ sym fs fe dot act order ti vb rl ants fseq,
    preserves R (new_ActiveItem sym fs fe dot act order ti vb rl ants fseq).
Hypothesis R_mark_scanned : ∀ r, preserves R (update_item r mark_scanned).
Hypothesis R_mark_ignored : ∀ r, preserves R (update_item r mark_ignored).
Hypothesis R_mark_rule_used : ∀ i, preserves R (mark_rule_used i).

Lemma chart_free_strategy l : preserves R (add_item_to_prediction_strategy l).
Proof.
    unfold add_item_to_prediction_strategy. apply preserves_modify; pres_tc.
    intros s. destruct (existsb _ _); [apply R_chart | reflexivity].
Qed.

Lemma chart_free_couples p : preserves R (update_combined_couples p).
Proof.
    unfold update_combined_couples. apply preserves_modify; pres_tc.
    intros s. apply R_chart.
Qed.

Lemma chart_free_add_item n r : preserves R (add_item_to_chart n r).
Proof.
    unfold add_item_to_chart. pres;
      try (apply preserves_modify; pres_tc; intros s; apply R_chart);
      try apply R_mark_ignored.
    apply read_only_preserves; pres_tc; apply read_only_item_in_values.
Qed.

Lemma chart_free_add_items l n : preserves R (add_items_to_chart l n).
Proof. unfold add_items_to_chart. pres. apply chart_free_add_item. Qed.

Lemma chart_free_add_active l : preserves R (add_active_items_to_chart l).
Proof.
    unfold add_active_items_to_chart. pres.
    - apply read_only_preserves; pres_tc; apply read_only_filter.
    - apply chart_free_add_items.
Qed.

Lemma chart_free_add_completed l : preserves R (add_completed_items_to_chart l).
Proof.
    unfold add_completed_items_to_chart. pres;
      try apply chart_free_add_items.
    - apply read_only_preserves; pres_tc; apply read_only_filter.
    - apply preserves_modify; pres_tc; intros s.
      destruct (bool_decide _); [apply R_chart | reflexivity].
Qed.

Lemma chart_free_sweep token index : preserves R (sweep token index).
Proof.
    apply preserves_sweep; auto using chart_free_strategy, chart_free_couples,
      chart_free_add_active, chart_free_add_completed.
Qed.

Lemma chart_free_run_scan r token ti : preserves R (run_scan r token ti).
Proof.
    apply preserves_run_scan; auto using chart_free_add_active,
      chart_free_add_completed.
Qed.

Lemma chart_free_run_combine d ti l : preserves R (run_combine d ti l).
Proof.
    apply preserves_run_combine; auto using chart_free_couples,
      chart_free_add_active, chart_free_add_completed.
Qed.

Lemma chart_free_run_predict strategy ti token :
    preserves R (run_predict strategy ti token).
Proof.
    apply preserves_run_predict; auto using chart_free_strategy,
      chart_free_add_active.
Qed.

Lemma chart_free_do_predict token ti strategy :
    preserves R (do_predict token ti strategy).
Proof. apply preserves_do_predict; auto using chart_free_strategy. Qed.

Lemma chart_free_sweeps fuel token index : preserves R (sweeps fuel token index).
Proof.
    apply preserves_sweeps; auto using chart_free_strategy, chart_free_couples,
      chart_free_add_active, chart_free_add_completed.
Qed.

Lemma chart_free_parse fuel text : preserves R (parse fuel text).
Proof.
    unfold parse. pres.
    - apply preserves_modify; pres_tc; intros s; apply R_chart.
    - apply preserves_token_loop; auto using chart_free_strategy,
        chart_free_couples, chart_free_add_active, chart_free_add_completed.
    - apply read_only_preserves; pres_tc; apply read_only_get_parsing_table.
Qed.
End ChartFree.

(** ** What a parse may change *)

(** Ids above the class counter are unused, and every object is stored
    under its own id. *)
Definition store_fresh (s : PState) : Prop :=
  ∀ k, items_counter s < k → store s !! k = None.

Definition store_ids_ok (s : PState) : Prop :=
  ∀ k i, store s !! k = Some i → item_id i = k.

Definition wf (s : PState) : Prop := store_fresh s ∧ store_ids_ok s.

(** Two versions of one item: all fields agree except the flags
    [scanned] and [ignored], which can only be raised. *)
Definition same_but_flags (i j : ActiveItem) : Prop :=
  symbol i = symbol j ∧ dot_position i = dot_position j
  ∧ found_start i = found_start j ∧ found_end i = found_end j
  ∧ range_order i = range_order j ∧ token_index i = token_index j
  ∧ action_type i = action_type j ∧ rule i = rule j
  ∧ found_sequence i = found_sequence j
  ∧ antecedent_ids i = antecedent_ids j
  ∧ combined i = combined j ∧ item_id i = item_id j
  ∧ vector_binding i = vector_binding j
  ∧ (scanned i = true → scanned j = true)
  ∧ (ignored i = true → ignored j = true).

(** Two versions of one rule: only [used] may differ, and only be raised. *)
Definition same_but_used (r r' : MCFGRule) : Prop :=
  rule_symbol r = rule_symbol r' ∧ function r = function r'
  ∧ vars r = vars r' ∧ (used r = true → used r' = true).

Definition grammar_frame (g g' : MCFG) : Prop :=
  start_symbol g = start_symbol g' ∧ terminals g = terminals g'
  ∧ Forall2 same_but_used (rules g) (rules g').

Definition store_frame (h h' : gmap nat ActiveItem) : Prop :=
  ∀ k i, h !! k = Some i → ∃ j, h' !! k = Some j ∧ same_but_flags i j.

(** The effect of parser actions on the grammar and on the objects. *)
Definition frame (s s' : PState) : Prop :=
  wf s →
  wf s' ∧ (items_counter s ≤ items_counter s')%nat
  ∧ grammar_frame (grammar s) (grammar s')
  ∧ store_frame (store s) (store s').

Lemma same_but_flags_refl i : same_but_flags i i.
Proof. by repeat split. Qed.

Lemma same_but_flags_trans i j k :
  same_but_flags i j → same_but_flags j k → same_but_flags i k.
Proof.
  unfold same_but_flags. intros H1 H2.
  destruct H1 as (?&?&?&?&?&?&?&?&?&?&?&?&?&?&?).
  destruct H2 as (?&?&?&?&?&?&?&?&?&?&?&?&?&?&?).
  repeat split; try congruence; auto.
Qed.

Lemma same_but_used_refl r : same_but_used r r.
Proof. by repeat split. Qed.

Lemma same_but_used_trans r1 r2 r3 :
  same_but_used r1 r2 → same_but_used r2 r3 → same_but_used r1 r3.
Proof.
  intros (?&?&?&?) (?&?&?&?). repeat split; try congruence; auto.
Qed.

Lemma grammar_frame_refl g : grammar_frame g g.
Proof.
  repeat split. apply Forall2_same_length_lookup_2; [done|].
  intros i x y Hx Hy. rewrite Hx in Hy. injection Hy as <-.
  apply same_but_used_refl.
Qed.

Lemma grammar_frame_trans g1 g2 g3 :
  grammar_frame g1 g2 → grammar_frame g2 g3 → grammar_frame g1 g3.
Proof.
  intros (?&?&H12) (?&?&H23). repeat split; try congruence.
  revert H23. generalize (rules g3). induction H12; intros l3 H23.
  - by inversion H23.
  - inversion H23; subst. constructor; [by eapply same_but_used_trans | auto].
Qed.

Lemma store_frame_refl h : store_frame h h.
Proof. intros k i H. exists i. split; [done | apply same_but_flags_refl]. Qed.

Lemma store_frame_trans h1 h2 h3 :
  store_frame h1 h2 → store_frame h2 h3 → store_frame h1 h3.
Proof.
  intros H12 H23 k i H. destruct (H12 _ _ H) as (j & Hj & Hij).
  destruct (H23 _ _ Hj) as (l & Hl & Hjl). exists l.
  split; [done | by eapply same_but_flags_trans].
Qed.

#[global] Instance frame_preorder : PreOrder frame.
Proof.
  split.
  - intros s Hs. repeat split; try apply Hs; [lia | apply grammar_frame_refl|].
    apply store_frame_refl.
  - intros s1 s2 s3 H12 H23 H1.
    destruct (H12 H1) as (Hw2 & ? & ? & ?).
    destruct (H23 Hw2) as (Hw3 & ? & ? & ?).
    split; [done|]. split; [lia|].
    split; [by eapply grammar_frame_trans | by eapply store_frame_trans].
Qed.

(** The item that [ActiveItem.__init__] builds in a given state. *)
Definition fresh_item (s : PState) (sym : string) (fs fe : nat) (dot : nat * nat)
    (act : action) (order : list nat) (ti : nat) (vb : list (list string))
    (rl : nat) (ants : list nat) (fseq : list string) : ActiveItem :=
  {| symbol := sym; dot_position := dot; found_start := fs; found_end := fe;
     range_order := order; token_index := ti; action_type := act; rule := rl;
     found_sequence := fseq; antecedent_ids := ants;
     scanned := false; combined := false; ignored := false;
     item_id := items_counter s + 1; vector_binding := vb |}.

Lemma new_ActiveItem_Done sym fs fe dot act order ti vb rl ants fseq s :
  new_ActiveItem sym fs fe dot act order ti vb rl ants fseq s
  = Done (items_counter s + 1)
      {| grammar := grammar s; chart := chart s;
         store := <[items_counter s + 1 :=
                     fresh_item s sym fs fe dot act order ti vb rl ants fseq]>
                    (store s);
         items_counter := items_counter s + 1 |}.
Proof. reflexivity. Qed.

Lemma update_item_Done r f s :
  update_item r f s = Done tt (with_store s (alter f r (store s))).
Proof. reflexivity. Qed.

Lemma frame_chart s c : frame s (with_chart s c).
Proof.
  intros Hs. repeat split; try apply Hs; simpl;
    [lia | apply grammar_frame_refl | apply store_frame_refl].
Qed.

Lemma frame_new_item sym fs fe dot act order ti vb rl ants fseq :
  preserves frame (new_ActiveItem sym fs fe dot act order ti vb rl ants fseq).
Proof.
  intros s a s'. rewrite new_ActiveItem_Done. intros [= <- <-] [Hf Hi].
  unfold wf, store_fresh, store_ids_ok, store_frame in *.
  split; [split|]; simpl.
  - intros k Hk. rewrite lookup_insert_ne by lia. apply Hf. simpl in Hk. lia.
  - intros k i. simpl. destruct (decide (k = items_counter s + 1)) as [->|Hne].
    + rewrite lookup_insert_eq. by intros [= <-].
    + rewrite lookup_insert_ne by done. apply Hi.
  - split; [lia|]. split; [apply grammar_frame_refl|].
    intros k i Hk. exists i. split; [|apply same_but_flags_refl].
    rewrite lookup_insert_ne; [done|]. intros <-.
    rewrite Hf in Hk; [done | lia].
Qed.

Lemma frame_update_item r f :
  (∀ i, same_but_flags i (f i)) → preserves frame (update_item r f).
Proof.
  intros Hsame s a s'. rewrite update_item_Done. intros [= _ <-] [Hf Hi].
  unfold wf, store_fresh, store_ids_ok, store_frame in *.
  split; [split|]; simpl.
  - intros k Hk. rewrite lookup_alter.
    case_decide; [subst|]; rewrite Hf; done.
  - intros k i. simpl. rewrite lookup_alter. case_decide; [subst|apply Hi].
    destruct (store s !! k) as [j|] eqn:Hj; simpl; [|done].
    intros [= <-]. rewrite <- (Hi _ _ Hj). symmetry. apply Hsame.
  - split; [lia|]. split; [apply grammar_frame_refl|].
    intros k i Hk. rewrite lookup_alter. case_decide; [subst|].
    + rewrite Hk. simpl. eauto.
    + exists i. split; [done | apply same_but_flags_refl].
Qed.

Lemma frame_mark_scanned r : preserves frame (update_item r mark_scanned).
Proof. apply frame_update_item. intros i. by repeat split. Qed.

Lemma frame_mark_ignored r : preserves frame (update_item r mark_ignored).
Proof. apply frame_update_item. intros i. by repeat split. Qed.

Lemma same_but_used_alter (l : list MCFGRule) i :
  Forall2 same_but_used l (alter mark_used i l).
Proof.
  revert i. induction l as [|r l IH]; intros [|i]; simpl; constructor;
    try apply IH; try by repeat split.
  apply Forall2_same_length_lookup_2; [done|].
  intros k x y Hx Hy. rewrite Hx in Hy. injection Hy as <-. by repeat split.
Qed.

Lemma frame_mark_rule_used i : preserves frame (mark_rule_used i).
Proof.
  intros s a s' [= _ <-] Hs. split; [apply Hs|]. simpl. split; [lia|].
  split; [|apply store_frame_refl].
  repeat split. apply same_but_used_alter.
Qed.

(** A whole parse, and each of its steps, satisfies [frame]. *)
Lemma frame_parse fuel text : preserves frame (parse fuel text).
Proof.
  apply chart_free_parse; auto using frame_chart, frame_new_item,
    frame_mark_scanned, frame_mark_ignored, frame_mark_rule_used; apply _.
Qed.

Lemma frame_sweeps fuel token index : preserves frame (sweeps fuel token index).
Proof.
  apply chart_free_sweeps; auto using frame_chart, frame_new_item,
    frame_mark_scanned, frame_mark_ignored, frame_mark_rule_used; apply _.
Qed.

Lemma frame_run_scan r token ti : preserves frame (run_scan r token ti).
Proof.
  apply chart_free_run_scan; auto using frame_chart, frame_new_item,
    frame_mark_scanned, frame_mark_ignored, frame_mark_rule_used; apply _.
Qed.

Lemma frame_run_combine d ti l : preserves frame (run_combine d ti l).
Proof.
  apply chart_free_run_combine; auto using frame_chart, frame_new_item,
    frame_mark_scanned, frame_mark_ignored, frame_mark_rule_used; apply _.
Qed.

Lemma frame_run_predict strategy ti token :
  preserves frame (run_predict strategy ti token).
Proof.
  apply chart_free_run_predict; auto using frame_chart, frame_new_item,
    frame_mark_scanned, frame_mark_ignored, frame_mark_rule_used; apply _.
Qed.

(** ** Prediction fires once per rule *)

(** The rule object at position [r] has its [used] flag set. *)
Definition used_at (s : PState) (r : nat) : Prop :=
  ∃ rl, rules (grammar s) !! r = Some rl ∧ used rl = true.

(** The object [i] exists and is an instance of a rule other than [r]. *)
Definition not_instance_of (r : nat) (i : nat) (s : PState) : Prop :=
  ∃ it, store s !! i = Some it ∧ rule it ≠ r.

Lemma used_at_frame s s' r : wf s → frame s s' → used_at s r → used_at s' r.
Proof.
  intros Hw Hf (rl & Hrl & Hu). destruct (Hf Hw) as (_ & _ & (_ & _ & H2) & _).
  destruct (Forall2_lookup_l _ _ _ _ _ H2 Hrl) as (rl' & Hrl' & Hs).
  exists rl'. split; [done|]. by apply Hs.
Qed.

Lemma not_instance_of_frame s s' r i :
  wf s → frame s s' → not_instance_of r i s → not_instance_of r i s'.
Proof.
  intros Hw Hf (it & Hit & Hr). destruct (Hf Hw) as (_ & _ & _ & Hst).
  destruct (Hst _ _ Hit) as (j & Hj & Hsame). exists j. split; [done|].
  destruct Hsame as (?&?&?&?&?&?&?&Hrule&?). congruence.
Qed.

Lemma collect_post {A B} (P : PState → Prop) (Q : B → PState → Prop)
    (l : list A) (body : A → M (list B)) :
  (∀ s s', P s → frame s s' → P s') →
  (∀ b s s', P s → frame s s' → Q b s → Q b s') →
  (∀ x s ys s', x ∈ l → P s → body x s = Done ys s' →
     frame s s' ∧ ∀ b, b ∈ ys → Q b s') →
  ∀ s ys s', P s → collect l body s = Done ys s' →
    frame s s' ∧ ∀ b, b ∈ ys → Q b s'.
Proof.
  intros HP HQ. induction l as [|x l IH]; intros Hbody s ys s' Hs; simpl.
  - intros [= <- <-]. split; [reflexivity | intros b Hb; inversion Hb].
  - intros (zs & s1 & H1 & (rest & s2 & H2 & [= <- <-])%bind_Done)%bind_Done.
    destruct (Hbody x s zs s1) as [Hf1 Hq1]; [left | done | done |].
    assert (P s1) as Hs1 by eauto.
    destruct (IH (λ y s0 ys0 s0' Hy, Hbody y s0 ys0 s0' (list_elem_of_further _ _ _ Hy))
                s1 rest s2 Hs1 H2) as [Hf2 Hq2].
    split; [by etransitivity|].
    intros b [Hb|Hb]%elem_of_app; [eapply HQ; eauto | by apply Hq2].
Qed.

Lemma predict_orders_spec sym ti vb r l s ids s' :
  wf s → predict_orders sym ti vb r l s = Done ids s' →
  frame s s' ∧ grammar s' = grammar s ∧ List.length ids = List.length l
  ∧ ∀ i, i ∈ ids → ∃ it, store s' !! i = Some it ∧ rule it = r
                        ∧ action_type it = predict.
Proof.
  revert s ids s'. induction l as [|o l IH]; intros s ids s' Hw; simpl.
  - intros [= <- <-]. split; [reflexivity|]. do 2 (split; [done|]).
    intros i Hi; inversion Hi.
  - intros (i & s1 & H1 & (rest & s2 & H2 & [= <- <-])%bind_Done)%bind_Done.
    pose proof (frame_new_item _ _ _ _ _ _ _ _ _ _ _ _ _ _ H1) as Hf1.
    rewrite new_ActiveItem_Done in H1. injection H1 as <- <-.
    destruct (Hf1 Hw) as (Hw1 & _).
    destruct (IH _ _ _ Hw1 H2) as (Hf2 & Hg & Hlen & Hall).
    split; [by etransitivity|]. split; [by rewrite Hg|].
    split; [simpl; by rewrite Hlen|].
    intros i [->|Hi]%elem_of_cons; [|by apply Hall].
    destruct (Hf2 Hw1) as (_ & _ & _ & Hst).
    destruct (Hst (items_counter s + 1)
                (fresh_item s sym ti ti (0, 0) predict o ti vb r [] []))
      as (j & Hj & Hsame); [simpl; apply lookup_insert_eq|].
    exists j. split; [done|].
    destruct Hsame as (?&?&?&?&?&?&Ha&Hr&?). by split.
Qed.

Lemma wf_same_store s s' :
  store s' = store s → items_counter s' = items_counter s → wf s → wf s'.
Proof.
  intros Hst Hc [Hf Hi]. split.
  - intros k Hk. rewrite Hst. apply Hf. lia.
  - intros k i. rewrite Hst. apply Hi.
Qed.

Lemma frame_predict_rule token ti sym r :
  preserves frame (predict_rule token ti sym r).
Proof.
  apply preserves_predict_rule; [apply _ | apply frame_new_item
    | apply frame_mark_rule_used |].
  intros l. apply chart_free_strategy; [apply _ | apply frame_chart].
Qed.

Lemma predict_rule_skips_used token ti sym r s :
  used_at s r → predict_rule token ti sym r s = Done [] s.
Proof.
  intros (rl & Hrl & Hu). unfold predict_rule, bind, get. rewrite Hrl. simpl.
  unfold used_in_prediction. by rewrite Hu.
Qed.

Lemma predict_rule_spec token ti sym r s ids s' :
  wf s → predict_rule token ti sym r s = Done ids s' →
  (∀ i, i ∈ ids → ∃ it, store s' !! i = Some it ∧ rule it = r
                        ∧ action_type it = predict)
  ∧ (ids ≠ [] → used_at s' r).
Proof.
  intros Hw. unfold predict_rule.
  intros (s0 & ? & [= <- <-] & (rl & ? & [Hrl ->]%lift_Done & H)%bind_Done)%bind_Done.
  destruct (used_in_prediction rl).
  { injection H as <- <-. split; [intros i Hi; inversion Hi | done]. }
  apply bind_Done in H as (bo & ? & [Hbo ->]%lift_Done & H).
  cbv zeta in H.
  apply bind_Done in H as (fst & ? & [Hfst ->]%lift_Done & H).
  destruct (_ && _).
  { injection H as <- <-. split; [intros i Hi; inversion Hi | done]. }
  apply bind_Done in H as ([] & s1 & [= <-] & H).
  apply bind_Done in H as ([] & s2 & H2 & H).
  assert (store s2 = store s ∧ items_counter s2 = items_counter s
          ∧ grammar s2 = with_rules (grammar s) (alter mark_used r (rules (grammar s))))
    as (Hst & Hc & Hg).
  { unfold add_item_to_prediction_strategy, modify in H2.
    injection H2 as <-. by destruct (existsb _ _). }
  apply predict_orders_spec in H as (_ & Hg' & _ & Hall);
    [|by eapply wf_same_store].
  split; [done|]. intros _. exists (mark_used rl). split; [|done].
  rewrite Hg', Hg. simpl. by rewrite list_lookup_alter_eq, Hrl.
Qed.

Lemma do_predict_skips_used token ti strategy r s ids s' :
  wf s → used_at s r → do_predict token ti strategy s = Done ids s' →
  ∀ i, i ∈ ids → not_instance_of r i s'.
Proof.
  intros Hw Hu H.
  pose (P := λ s0, wf s0 ∧ used_at s0 r).
  assert (∀ s0 s0', P s0 → frame s0 s0' → P s0') as HP.
  { intros s0 s0' [Hw0 Hu0] Hf. split; [by apply Hf | by eapply used_at_frame]. }
  assert (∀ b s0 s0', P s0 → frame s0 s0' →
            not_instance_of r b s0 → not_instance_of r b s0') as HQ.
  { intros b s0 s0' [Hw0 _] Hf. by apply not_instance_of_frame. }
  eapply (collect_post P (not_instance_of r)); [done | done | | split; done | exact H].
  clear H. intros sym s0 ys s0' _ Hs0.
  intros (s1 & ? & [= <- <-] & H)%bind_Done. revert H.
  apply (collect_post P (not_instance_of r)); [done | done | | done].
  intros r' s1 zs s1' _ [Hw1 Hu1] H. split; [by eapply frame_predict_rule|].
  destruct (decide (r' = r)) as [->|Hne].
  - rewrite predict_rule_skips_used in H by done. injection H as <- <-.
    intros i Hi. inversion Hi.
  - apply predict_rule_spec in H as [Hall _]; [|done].
    intros i Hi. destruct (Hall i Hi) as (it & Hit & Hr & _).
    exists it. split; [done | congruence].
Qed.

Lemma wf_initial_state g n : wf (initial_state g n).
Proof.
  split.
  - intros k _. apply lookup_empty.
  - intros k i H. simpl in H. by rewrite lookup_empty in H.
Defined.

(** *** Example grammars *)

(** The grammar of the third test of [tests.py] (two-component [B]),
    with the rules in the order in which they are written. *)
Definition grammar_two_components : MCFG :=
  {| start_symbol := "S"; terminals := ["a"; "b"];
     rules :=
       [ {| rule_symbol := "S";
            function := RFunc {| func_name := "f1"; input_args := ["B"];
                                 result_vector := [["B(0)"; "B(1)"]] |};
            vars := ["B"]; used := false |};
         {| rule_symbol := "B";
            function := RFunc {| func_name := "f2"; input_args := [];
                                 result_vector := [["a"]; ["b"]] |};
            vars := []; used := false |};
         {| rule_symbol := "B";
            function := RFunc {| func_name := "f3"; input_args := ["B"];
                                 result_vector := [["B(0)"]] |};
            vars := ["B"]; used := false |};
         {| rule_symbol := "B";
            function := RFunc {| func_name := "f4"; input_args := ["C"];
                                 result_vector := [["C(0)"]] |};
            vars := ["C"]; used := false |};
         {| rule_symbol := "C"; function := RTerminal "a";
            vars := []; used := false |} ] |}.

(** A grammar whose only rule has already been used in a prediction. *)
Definition grammar_used_rule : MCFG :=
  {| start_symbol := "S"; terminals := ["a"];
     rules :=
       [ {| rule_symbol := "S";
            function := RFunc {| func_name := "f"; input_args := [];
                                 result_vector := [["a"]] |};
            vars := []; used := true |} ] |}.

(** C6.  For every rule [r] of the grammar: [do_predict] skips [r] when
    its [used] flag is set; a prediction of [r] that creates items sets
    the flag, and the items are instances of [r]; once the flag is set
    no invocation of [do_predict] creates an instance of [r]; and the
    flag stays set through the sweeps and through a whole parse. *)
Theorem prediction_fires_at_most_once (s : PState) (r : nat) :
  wf s →
  (used_at s r → ∀ token ti sym, predict_rule token ti sym r s = Done [] s)
  ∧ (∀ token ti sym ids s',
       predict_rule token ti sym r s = Done ids s' → ids ≠ [] →
       used_at s' r
       ∧ ∀ i, i ∈ ids → ∃ it, store s' !! i = Some it ∧ rule it = r)
  ∧ (used_at s r → ∀ token ti strategy ids s',
       do_predict token ti strategy s = Done ids s' →
       ∀ i, i ∈ ids → not_instance_of r i s')
  ∧ (used_at s r →
       (∀ fuel token index u s',
          sweeps fuel token index s = Done u s' → used_at s' r)
       ∧ (∀ fuel text res s',
          parse fuel text s = Done res s' → used_at s' r)).
Proof.
  intros Hw. split; [|split; [|split]].
  - intros Hu token ti sym. by apply predict_rule_skips_used.
  - intros token ti sym ids s' H Hne.
    apply predict_rule_spec in H as [Hall Hused]; [|done].
    split; [by apply Hused|]. intros i Hi.
    destruct (Hall i Hi) as (it & ? & ? & _). by exists it.
  - intros Hu token ti strategy ids s' H. by eapply do_predict_skips_used.
  - intros Hu. split.
    + intros fuel token index u s' H.
      eapply used_at_frame; [done | by eapply frame_sweeps | done].
    + intros fuel text res s' H.
      eapply used_at_frame; [done | by eapply frame_parse | done].
Qed.

Lemma prediction_fires_at_most_once_witness :
  predict_rule "a" 0 "S" 0 (initial_state grammar_used_rule 0)
  = Done [] (initial_state grammar_used_rule 0).
Proof.
  apply (prediction_fires_at_most_once (initial_state grammar_used_rule 0) 0
           (wf_initial_state grammar_used_rule 0)).
  eexists. split; reflexivity.
Defined.

(** A grammar with one rule, [S → f] with [f = <a>]. *)
Definition grammar_single_rule : MCFG :=
  {| start_symbol := "S"; terminals := ["a"];
     rules :=
       [ {| rule_symbol := "S";
            function := RFunc {| func_name := "f"; input_args := [];
                                 result_vector := [["a"]] |};
            vars := []; used := false |} ] |}.

(** C8, as stated, fails: a parse sets the [used] flag of the rule
    objects of the grammar it is given. *)
Lemma parse_mutates_grammar :
  ∃ res s',
    parse 3 "a" (initial_state grammar_single_rule 0) = Done res s'
    ∧ grammar s' ≠ grammar (initial_state grammar_single_rule 0)
    ∧ used <$> rules (grammar s') = [true].
Proof.
  eexists _, _. split; [vm_compute; reflexivity|].
  split; [|reflexivity]. simpl. intros H. discriminate H.
Qed.

(** C8, amended.  A parse, and each of its predict, scan and combine
    steps, leaves the start symbol, the terminals and, rule by rule, the
    symbol, right-hand element and variables of the grammar unchanged,
    and may only raise [used] flags; every item object that exists
    before is still there afterwards with all its fields unchanged
    except [scanned] and [ignored], which may only be raised. *)
Theorem parse_changes_only_flags (s s' : PState) :
  wf s →
  (∃ fuel text res, parse fuel text s = Done res s')
  ∨ (∃ strategy ti token b, run_predict strategy ti token s = Done b s')
  ∨ (∃ r token ti b, run_scan r token ti s = Done b s')
  ∨ (∃ d ti l b, run_combine d ti l s = Done b s') →
  grammar_frame (grammar s) (grammar s') ∧ store_frame (store s) (store s').
Proof.
  intros Hw H. enough (frame s s') as Hf by (by destruct (Hf Hw) as (_ & _ & ?)).
  destruct H as [(fuel & text & res & H) | [(st & ti & token & b & H)
    | [(r & token & ti & b & H) | (d & ti & l & b & H)]]].
  - by eapply frame_parse.
  - by eapply frame_run_predict.
  - by eapply frame_run_scan.
  - by eapply frame_run_combine.
Qed.

Lemma parse_changes_only_flags_witness :
  ∃ s', (grammar_frame grammar_single_rule (grammar s')
         ∧ store_frame ∅ (store s'))
        ∧ used <$> rules (grammar s') = [true].
Proof.
  eexists. split.
  - apply (parse_changes_only_flags (initial_state grammar_single_rule 0) _
             (wf_initial_state grammar_single_rule 0)).
    left. exists 3, "a". eexists. vm_compute. reflexivity.
  - reflexivity.
Defined.

(** ** Scan *)

Lemma deref_eq s r i : store s !! r = Some i → deref r s = Done i s.
Proof. intros H. by apply deref_Done. Qed.

Lemma wf_lookup_le s r i : wf s → store s !! r = Some i → r ≤ items_counter s.
Proof.
  intros [Hf _] H. destruct (decide (r ≤ items_counter s)) as [|Hn]; [done|].
  rewrite Hf in H; [done | lia].
Qed.

(** Nothing is produced, and nothing changes, when the symbol after the
    dot is not the current token. *)
Lemma do_scan_other_symbol s r i token ti :
  store s !! r = Some i → get_symbol_after_dot i ≠ Some token →
  do_scan r token ti s = Done ([], []) s.
Proof.
  intros Hr Hne. unfold do_scan, bind. rewrite (deref_eq _ _ _ Hr).
  destruct (bool_decide _); [done|]. destruct (is_scanned i); [done|].
  by rewrite bool_decide_false.
Qed.

(** The scanned item that [do_scan] builds from [i]. *)
Definition scanned_item (s : PState) (i : ActiveItem) (token : string) (ti : nat)
    (dot : nat * nat) : ActiveItem :=
  fresh_item s (symbol i) (found_start i) (found_end i + 1) dot scan
    (range_order i) ti (vector_binding i) (rule i) [get_item_id i]
    (found_sequence i ++ [token]).

Lemma do_scan_advances s r i token ti comp :
  wf s → store s !! r = Some i → scanned i = false → token_index i ≤ ti →
  get_symbol_after_dot i = Some token →
  vector_binding i !! (dot_position i).1 = Some comp →
  let c := (dot_position i).1 in
  let k := (dot_position i).2 in
  let n := items_counter s + 1 in
  (k + 1 < List.length comp →
   ∃ s', do_scan r token ti s = Done ([n], []) s'
         ∧ store s' !! n = Some (scanned_item s i token ti (c, k + 1))
         ∧ store s' !! r = Some (mark_scanned i))
  ∧ (k + 1 = List.length comp →
     ∃ s' done_item,
       do_scan r token ti s = Done ([n], [n + 1]) s'
       ∧ store s' !! n
         = Some (mark_ignored (scanned_item s i token ti (c, k + 1)))
       ∧ store s' !! (n + 1) = Some done_item
       ∧ dot_position done_item = (c + 1, 0)
       ∧ action_type done_item = complete
       ∧ antecedent_ids done_item = [n]
       ∧ found_sequence done_item = found_sequence i ++ [token]
       ∧ ignored done_item = false
       ∧ store s' !! r = Some (mark_scanned i)).
Proof.
  intros Hw Hr Hsc Hti Hsym Hcomp c k n. subst c k n.
  set (n := items_counter s + 1).
  pose proof (wf_lookup_le _ _ _ Hw Hr) as Hle.
  assert (r ≠ n) as Hrn by (unfold n; lia).
  assert (do_scan r token ti s
          = (nc <~ lift (get_next_dot_position_and_check_if_complete i false) ;;
             scanned_active_item <~
               new_ActiveItem (symbol i) (found_start i) (found_end i + 1) nc.1
                 scan (range_order i) ti (vector_binding i) (rule i)
                 [get_item_id i] (found_sequence i ++ [token]) ;;
             update_item r mark_scanned ;;;
             if nc.2 then
               update_item scanned_active_item mark_ignored ;;;
               complete_active_item <~ create_complete_item scanned_active_item ;;
               ret ([scanned_active_item], [complete_active_item])
             else ret ([scanned_active_item], [])) s) as ->.
  { unfold do_scan at 1, bind at 1. rewrite (deref_eq _ _ _ Hr).
    rewrite bool_decide_false by lia. unfold is_scanned. rewrite Hsc.
    by rewrite bool_decide_true. }
  unfold get_next_dot_position_and_check_if_complete. rewrite Hcomp. simpl.
  split; intros Hk.
  - rewrite bool_decide_true by done. eexists. split; [reflexivity|]. simpl.
    split.
    + rewrite lookup_alter_ne by done. apply lookup_insert_eq.
    + rewrite lookup_alter_eq, lookup_insert_ne by done. by rewrite Hr.
  - rewrite bool_decide_false by lia. rewrite bool_decide_true by done.
    unfold bind, lift, update_item, modify, create_complete_item, bind, deref,
      bind, get, lift. simpl.
    rewrite lookup_alter_eq, lookup_alter_ne, lookup_insert_eq by done. simpl.
    unfold get_next_dot_position_and_check_if_complete. simpl.
    rewrite Hcomp. simpl. eexists _, _. split; [reflexivity|]. simpl.
    rewrite lookup_insert_eq.
    rewrite lookup_insert_ne, lookup_alter_eq, lookup_alter_ne,
      lookup_insert_eq by (fold n; lia).
    repeat (split; [reflexivity|]).
    rewrite lookup_insert_ne by (fold n; lia).
    rewrite lookup_alter_ne by done.
    rewrite lookup_alter_eq, lookup_insert_ne by done. by rewrite Hr.
Qed.

(** A predicted item of the one-rule grammar, about to scan its only
    terminal, and a parser state that holds just this item. *)
Definition item_before_a : ActiveItem :=
  {| symbol := "S"; dot_position := (0, 0); found_start := 0; found_end := 0;
     range_order := [0]; token_index := 0; action_type := predict; rule := 0;
     found_sequence := []; antecedent_ids := [];
     scanned := false; combined := false; ignored := false;
     item_id := 1; vector_binding := [["a"]] |}.

Definition state_one_item (i : ActiveItem) : PState :=
  {| grammar := grammar_single_rule;
     chart := set_all_items
                (set_role (new_chart ["a"] ["a"]) active_items [item_id i])
                [item_id i];
     store := {[ item_id i := i ]};
     items_counter := item_id i |}.

Lemma wf_state_one_item i : wf (state_one_item i).
Proof.
  split.
  - intros k Hk. simpl in *. apply lookup_singleton_ne. lia.
  - intros k j. simpl. by intros [<- <-]%lookup_singleton_Some.
Defined.

(** An item whose next atom is the placeholder [B(0)]. *)
Definition item_before_placeholder : ActiveItem :=
  {| symbol := "S"; dot_position := (0, 0); found_start := 0; found_end := 0;
     range_order := [0]; token_index := 0; action_type := predict; rule := 0;
     found_sequence := []; antecedent_ids := [];
     scanned := false; combined := false; ignored := false;
     item_id := 1; vector_binding := [["B(0)"; "a"]] |}.

(** C3, as stated, fails.  When the scanned terminal ends its component
    ([k + 1] is the length of the component) the dot of the scanned
    item is [(c, k + 1)], not [(c + 1, 0)]: the position [(c + 1, 0)]
    belongs to the separate completed item. *)
Lemma do_scan_counterexample :
  ∃ s' it done_item,
    get_symbol_after_dot item_before_a = Some "a"
    ∧ PyStr.mem "a" (terminals grammar_single_rule) = true
    ∧ do_scan 1 "a" 0 (state_one_item item_before_a) = Done ([2], [3]) s'
    ∧ store s' !! 2 = Some it
    ∧ dot_position it = (0, 1) ∧ dot_position it ≠ (0 + 1, 0)
    ∧ store s' !! 3 = Some done_item
    ∧ dot_position done_item = (0 + 1, 0).
Proof.
  eexists _, _, _. do 2 (split; [reflexivity|]).
  split; [vm_compute; reflexivity|].
  split; [vm_compute; reflexivity|]. split; [reflexivity|].
  split; [discriminate|]. split; [vm_compute; reflexivity | reflexivity].
Qed.

(** An item scheduled in the order [(1, 0)]: its first scheduled
    component is [binding[1]], and a parser state that holds it. *)
Definition item_permuted : ActiveItem :=
  {| symbol := "B"; dot_position := (0, 0); found_start := 0; found_end := 0;
     range_order := [1; 0]; token_index := 0; action_type := predict; rule := 1;
     found_sequence := []; antecedent_ids := [];
     scanned := false; combined := false; ignored := false;
     item_id := 1; vector_binding := [["a"; "b"]; ["b"; "a"]] |}.

Definition state_permuted : PState :=
  {| grammar := grammar_two_components;
     chart := set_all_items
                (set_role (new_chart ["b"; "a"] ["a"; "b"]) active_items [1])
                [1];
     store := {[ 1 := item_permuted ]};
     items_counter := 1 |}.

Lemma wf_state_permuted : wf state_permuted.
Proof.
  split.
  - intros k Hk. simpl in *. apply lookup_singleton_ne. lia.
  - intros k j. simpl. by intros [<- <-]%lookup_singleton_Some.
Defined.

(** C3, amended.  On an unscanned active item [i] (created no later than
    the current token) with dot [(c, k)] and [j = range_order[c]]: when
    the atom [binding[j][k]] is missing or differs from the current
    token (as every non-terminal atom does when the token is a
    terminal), nothing is produced and nothing changes.  When the atom
    is a terminal and is the current token, and slot [c] of the binding
    has at least [k + 1] atoms, exactly one scanned item is produced;
    its dot is [(c, k + 1)], its antecedent is [i] and its found
    sequence is that of [i] followed by the token.  Either it is the
    only item produced and is not ignored, or it is flagged ignored and
    a completed item with dot [(c + 1, 0)], not ignored, with the
    scanned item as its antecedent, is produced as well.  Where the
    slot [binding[c]] has the length of [binding[j]], the first case is
    [k + 1 < len(binding[j])] and the second [k + 1 = len(binding[j])]. *)
Theorem do_scan_dot_positions (s : PState) (r : nat) (i : ActiveItem)
    (token : string) (ti : nat) :
  wf s → store s !! r = Some i → scanned i = false → token_index i ≤ ti →
  let c := (dot_position i).1 in
  let k := (dot_position i).2 in
  let n := items_counter s + 1 in
  (get_symbol_after_dot i ≠ Some token →
   do_scan r token ti s = Done ([], []) s)
  ∧ (∀ atom, get_symbol_after_dot i = Some atom →
       PyStr.mem token (terminals (grammar s)) = true →
       PyStr.mem atom (terminals (grammar s)) = false →
       do_scan r token ti s = Done ([], []) s)
  ∧ (∀ j comp_j comp_c,
       range_order i !! c = Some j → vector_binding i !! j = Some comp_j →
       comp_j !! k = Some token →
       PyStr.mem token (terminals (grammar s)) = true →
       vector_binding i !! c = Some comp_c →
       k + 1 ≤ List.length comp_c →
       (∃ s' it completed,
          do_scan r token ti s = Done ([n], completed) s'
          ∧ store s' !! n = Some it
          ∧ dot_position it = (c, k + 1)
          ∧ antecedent_ids it = [item_id i]
          ∧ found_sequence it = found_sequence i ++ [token]
          ∧ ((completed = [] ∧ ignored it = false)
             ∨ (∃ done_item,
                  completed = [n + 1] ∧ ignored it = true
                  ∧ store s' !! (n + 1) = Some done_item
                  ∧ dot_position done_item = (c + 1, 0)
                  ∧ ignored done_item = false
                  ∧ antecedent_ids done_item = [n])))
       ∧ (List.length comp_c = List.length comp_j →
          (k + 1 < List.length comp_j →
           ∃ s', do_scan r token ti s = Done ([n], []) s')
          ∧ (k + 1 = List.length comp_j →
             ∃ s', do_scan r token ti s = Done ([n], [n + 1]) s'))).
Proof.
  intros Hw Hr Hsc Hti c k n. split; [|split].
  - by apply do_scan_other_symbol.
  - intros atom Hatom Htok Hnt. eapply do_scan_other_symbol; [done|].
    rewrite Hatom. intros [= ->]. congruence.
  - intros j comp_j comp_c Hj Hcj Htoken _ Hcc Hle.
    assert (get_symbol_after_dot i = Some token) as Hsym.
    { unfold get_symbol_after_dot. fold c k. rewrite Hj. simpl.
      rewrite Hcj. simpl. done. }
    destruct (do_scan_advances s r i token ti comp_c Hw Hr Hsc Hti Hsym Hcc)
      as [Hlt Heq]. fold k n in Hlt, Heq.
    split.
    + destruct (decide (k + 1 < List.length comp_c)) as [Hk|Hk].
      * destruct (Hlt Hk) as (s' & Hs' & Hn & _).
        eexists s', _, []. split; [exact Hs'|]. split; [exact Hn|].
        do 3 (split; [done|]). by left.
      * destruct Heq as (s' & d & Hs' & Hn & Hd & Hdot & _ & Hant & _ & Hign & _);
          [lia|].
        eexists s', _, [n + 1]. split; [exact Hs'|]. split; [exact Hn|].
        do 3 (split; [done|]). right. by exists d.
    + intros Hlen. split; intros Hk.
      * destruct Hlt as (s' & Hs' & _); [lia|]. by exists s'.
      * destruct Heq as (s' & d & Hs' & _); [lia|]. by exists s'.
Qed.

Lemma do_scan_dot_positions_witness :
  (∃ s' it completed,
     do_scan 1 "b" 0 state_permuted = Done ([2], completed) s'
     ∧ store s' !! 2 = Some it
     ∧ dot_position it = (0, 1)
     ∧ antecedent_ids it = [1]
     ∧ found_sequence it = ["b"]
     ∧ ((completed = [] ∧ ignored it = false)
        ∨ (∃ done_item,
             completed = [3] ∧ ignored it = true
             ∧ store s' !! 3 = Some done_item
             ∧ dot_position done_item = (1, 0)
             ∧ ignored done_item = false
             ∧ antecedent_ids done_item = [2])))
  ∧ ∃ s', do_scan 1 "b" 0 state_permuted = Done ([2], []) s'.
Proof.
  destruct (do_scan_dot_positions state_permuted 1 item_permuted "b" 0
              wf_state_permuted eq_refl eq_refl (le_n 0)) as (_ & _ & H).
  destruct (H 1 ["b"; "a"] ["a"; "b"] eq_refl eq_refl eq_refl eq_refl eq_refl)
    as [H1 H2]; [simpl; lia|].
  split; [exact H1|]. destruct (H2 eq_refl) as [H3 _]. apply H3. simpl. lia.
Defined.

(** What the amended claim leaves open.  [do_scan] compares the atom
    with the token and performs no terminal test, so a placeholder is
    scanned when the token is that very string; and the length that
    decides completion is that of slot [c] of the binding, not of the
    scheduled component [range_order[c]]. *)
Lemma do_scan_scans_placeholder :
  ∃ s',
    get_symbol_after_dot item_before_placeholder = Some "B(0)"
    ∧ PyStr.mem "B(0)" (terminals grammar_single_rule) = false
    ∧ do_scan 1 "B(0)" 0 (state_one_item item_before_placeholder)
      = Done ([2], []) s'.
Proof.
  eexists. do 2 (split; [reflexivity|]). vm_compute. reflexivity.
Qed.

(** ** The symbol after the dot *)

(** The dot of [i] points outside the range order, outside the binding,
    or past the end of its component. *)
Definition dot_out_of_range (i : ActiveItem) : Prop :=
  let c := (dot_position i).1 in
  let k := (dot_position i).2 in
  List.length (range_order i) ≤ c
  ∨ (∃ j, range_order i !! c = Some j ∧ List.length (vector_binding i) ≤ j)
  ∨ (∃ j comp, range_order i !! c = Some j ∧ vector_binding i !! j = Some comp
               ∧ List.length comp ≤ k).

Lemma get_symbol_after_dot_out_of_range i :
  dot_out_of_range i ↔ get_symbol_after_dot i = None.
Proof.
  unfold dot_out_of_range, get_symbol_after_dot.
  destruct (range_order i !! (dot_position i).1) as [j|] eqn:Hj; simpl.
  - destruct (vector_binding i !! j) as [comp|] eqn:Hc; simpl.
    + rewrite lookup_ge_None. split.
      * intros [H | [(j' & [= <-] & H) | (j' & comp' & [= <-] & Hc' & H)]].
        -- apply lookup_lt_Some in Hj. lia.
        -- apply lookup_lt_Some in Hc. lia.
        -- congruence.
      * intros H. right. right. by exists j, comp.
    + split; [done | intros _]. right. left. exists j.
      split; [done | by apply lookup_ge_None].
  - split; [done | intros _]. left. by apply lookup_ge_None.
Qed.

Lemma same_but_flags_symbol_after_dot i j :
  same_but_flags i j → get_symbol_after_dot j = get_symbol_after_dot i.
Proof.
  intros (_ & Hd & _ & _ & Hr & _ & _ & _ & _ & _ & _ & _ & Hv & _).
  unfold get_symbol_after_dot. by rewrite Hd, Hr, Hv.
Qed.

(** The object [r] exists and nothing follows its dot. *)
Definition nothing_after_dot (r : nat) (s : PState) : Prop :=
  wf s ∧ ∃ i, store s !! r = Some i ∧ get_symbol_after_dot i = None.

Lemma nothing_after_dot_frame r s s' :
  frame s s' → nothing_after_dot r s → nothing_after_dot r s'.
Proof.
  intros Hf (Hw & i & Hi & Hn). destruct (Hf Hw) as (Hw' & _ & _ & Hst).
  split; [done|]. destruct (Hst _ _ Hi) as (j & Hj & Hsame).
  exists j. split; [done|]. by rewrite (same_but_flags_symbol_after_dot i j).
Qed.

Lemma bind_ext {A B} (m : M A) (k1 k2 : A → M B) s :
  (∀ a s', m s = Done a s' → k1 a s' = k2 a s') →
  bind m k1 s = bind m k2 s.
Proof. intros H. unfold bind. destruct (m s); auto. Qed.

Lemma bind_cong {A B} (m1 m2 : M A) (k : A → M B) s :
  m1 s = m2 s → bind m1 k s = bind m2 k s.
Proof. intros H. unfold bind. by rewrite H. Qed.

Lemma candidates_skip component l1 r l2 s i :
  store s !! r = Some i → get_symbol_after_dot i = None →
  candidates_for_combining component (l1 ++ r :: l2) s
  = candidates_for_combining component (l1 ++ l2) s.
Proof.
  intros Hi Hn. induction l1 as [|x l1 IH]; simpl.
  - unfold bind at 1. rewrite (deref_eq _ _ _ Hi). unfold bind.
    destruct (candidates_for_combining component l2 s) as [l s'| |]; [|done..].
    rewrite Hn. by rewrite bool_decide_false.
  - unfold bind at 1 3. destruct (deref x s) as [a s'| |] eqn:Hx; [|done..].
    apply deref_Done in Hx as [_ ->]. unfold bind. by rewrite IH.
Qed.

Lemma collect2_ext_inv {A B C} (P : PState → Prop) (l : list A)
    (b1 b2 : A → M (list B * list C)) :
  (∀ x s, P s → b1 x s = b2 x s) →
  (∀ x s p s', P s → b1 x s = Done p s' → P s') →
  ∀ s, P s → collect2 l b1 s = collect2 l b2 s.
Proof.
  intros Hext Hinv. induction l as [|x l IH]; intros s Hs; simpl; [done|].
  unfold bind at 1 3. rewrite <- (Hext x s Hs).
  destruct (b1 x s) as [p s'| |] eqn:Hb; [|done..].
  unfold bind. by rewrite (IH s' (Hinv _ _ _ _ Hs Hb)).
Qed.

Lemma frame_combine_candidate d ti ccv cc v r :
  preserves frame (combine_candidate d ti ccv cc v r).
Proof.
  apply preserves_combine_candidate; [apply _ | apply frame_new_item
    | apply frame_mark_ignored |].
  intros p. apply chart_free_couples; first [apply _ | apply frame_chart].
Qed.

Lemma do_combine_skip d ti l1 r l2 s :
  nothing_after_dot r s →
  do_combine d ti (l1 ++ r :: l2) s = do_combine d ti (l1 ++ l2) s.
Proof.
  intros Hs. unfold do_combine.
  apply bind_ext. intros donor ? [_ ->]%deref_Done.
  apply bind_ext. intros ccv ? [_ ->]%lift_Done.
  apply (collect2_ext_inv (nothing_after_dot r)); [| |done].
  - intros kv s0 (_ & i & Hi & Hn). apply bind_cong.
    by apply (candidates_skip _ _ _ _ _ _ Hi Hn).
  - intros kv s0 p s' Hs0 (cs & s1 & H1 & H2)%bind_Done.
    apply read_only_candidates in H1 as ->.
    eapply nothing_after_dot_frame; [|done].
    eapply preserves_collect2; [apply _ | | exact H2].
    intros x _. apply frame_combine_candidate.
Qed.


Definition item_complete : ActiveItem :=
  {| symbol := "S"; dot_position := (1, 0); found_start := 0; found_end := 1;
     range_order := [0]; token_index := 0; action_type := complete; rule := 0;
     found_sequence := ["a"]; antecedent_ids := [];
     scanned := false; combined := false; ignored := false;
     item_id := 1; vector_binding := [["a"]] |}.


(** ** Combine *)

(** When the candidate has completed components of its own and the donor
    has more than one, the candidate is recorded in the memo and nothing
    is produced for it, whether the shared components agree or not. *)
Lemma combine_candidate_checked s r d c dn ti ccv cc v icc :
  store s !! r = Some c → store s !! d = Some dn →
  token_index c ≤ ti →
  (item_id c, item_id dn) ∉ combined_couples (chart s) →
  (item_id dn, item_id c) ∉ combined_couples (chart s) →
  get_all_completed_components_and_values c = Some icc → icc ≠ [] →
  1 < List.length (dict_keys ccv) →
  combine_candidate d ti ccv cc v r s
  = Done ([], [])
      (with_chart s (set_combined_couples (chart s)
         (combined_couples (chart s) ++ [(item_id c, item_id dn)]))).
Proof.
  intros Hc Hd Hti Hm1 Hm2 Hicc Hne Hlen. unfold combine_candidate.
  unfold bind at 1. rewrite (deref_eq _ _ _ Hc).
  unfold bind at 1. rewrite (deref_eq _ _ _ Hd).
  rewrite bool_decide_false by lia.
  unfold bind at 1, check_if_couple_is_already_combined, bind at 1, get, ret.
  unfold get_item_id.
  rewrite !bool_decide_false by done. simpl.
  unfold bind at 1, update_combined_couples, modify.
  unfold bind at 1. rewrite Hicc. simpl.
  rewrite bool_decide_false by done. rewrite bool_decide_true by done. simpl.
  set (m := for_each _ _).
  assert (∀ s0, m s0 = Done tt s0) as Hm.
  { subst m. generalize (common_components ccv icc). intros l s0.
    induction l as [|x l IH]; simpl; [done|]. unfold bind.
    by destruct (bool_decide _). }
  unfold bind. by rewrite Hm.
Qed.

(** The candidate and the donor of the pair that the parse of ["a b"]
    meets with the grammar [S → g(B)], [B → f5(B) | f2], where
    [g = <B(0) B(1)>], [f5 = <a, B(1)>] and [f2 = <a, b>]. *)
Definition candidate_item : ActiveItem :=
  {| symbol := "B"; dot_position := (1, 0); found_start := 0; found_end := 1;
     range_order := [0; 1]; token_index := 0; action_type := complete;
     rule := 1; found_sequence := ["a"]; antecedent_ids := [6];
     scanned := false; combined := false; ignored := false;
     item_id := 7; vector_binding := [["a"]; ["B(1)"]] |}.

Definition donor_item : ActiveItem :=
  {| symbol := "B"; dot_position := (2, 0); found_start := 0; found_end := 2;
     range_order := [0; 1]; token_index := 1; action_type := complete;
     rule := 2; found_sequence := ["a"; "b"]; antecedent_ids := [14];
     scanned := false; combined := false; ignored := false;
     item_id := 15; vector_binding := [["a"]; ["b"]] |}.

Definition grammar_shared_components : MCFG :=
  {| start_symbol := "S"; terminals := ["a"; "b"];
     rules :=
       [ {| rule_symbol := "S";
            function := RFunc {| func_name := "g"; input_args := ["B"];
                                 result_vector := [["B(0)"; "B(1)"]] |};
            vars := ["B"]; used := true |};
         {| rule_symbol := "B";
            function := RFunc {| func_name := "f5"; input_args := ["B"];
                                 result_vector := [["a"]; ["B(1)"]] |};
            vars := ["B"]; used := true |};
         {| rule_symbol := "B";
            function := RFunc {| func_name := "f2"; input_args := [];
                                 result_vector := [["a"]; ["b"]] |};
            vars := []; used := true |} ] |}.

Definition state_candidate_and_donor : PState :=
  {| grammar := grammar_shared_components;
     chart :=
       set_all_items
         (set_role
            (set_role (new_chart ["a"; "b"] ["a"; "b"]) active_items [7])
            active_items_with_completed_components [15])
         [7; 15];
     store := {[ 7 := candidate_item; 15 := donor_item ]};
     items_counter := 15 |}.


(** ** Grammars without productive rules *)

(** A symbol leads to terminals when it is a terminal, or the left-hand
    side of a terminating rule, or the left-hand side of a rule all of
    whose right-hand side symbols lead to terminals. *)
Inductive leads_to_terminals (terms : list string) (rs : list MCFGRule)
  : string → Prop :=
| leads_terminal t : t ∈ terms → leads_to_terminals terms rs t
| leads_terminating r :
    r ∈ rs → is_terminating_rule r = true →
    leads_to_terminals terms rs (rule_symbol r)
| leads_rule r rhs :
    r ∈ rs → Simplify.get_right_hand_side terms r = Some rhs →
    (∀ x, x ∈ rhs → leads_to_terminals terms rs x) →
    leads_to_terminals terms rs (rule_symbol r).

(** A rule is productive when it can derive a string of terminals. *)
Definition productive (terms : list string) (rs : list MCFGRule)
    (r : MCFGRule) : Prop :=
  is_terminating_rule r = true
  ∨ ∃ rhs, Simplify.get_right_hand_side terms r = Some rhs
           ∧ ∀ x, x ∈ rhs → leads_to_terminals terms rs x.

Lemma str_add_elem x y s : y ∈ Simplify.str_add x s ↔ y = x ∨ y ∈ s.
Proof.
  unfold Simplify.str_add, PyStr.mem. case_bool_decide.
  - split; [by right | intros [->|]; done].
  - rewrite elem_of_app, list_elem_of_singleton. tauto.
Qed.

Lemma fold_str_add_elem l acc y :
  y ∈ foldl (λ acc c, Simplify.str_add c acc) acc l ↔ y ∈ acc ∨ y ∈ l.
Proof.
  revert acc. induction l as [|x l IH]; intros acc; simpl.
  - split; [by left | intros [|H]; [done | inversion H]].
  - rewrite IH, str_add_elem, elem_of_cons. tauto.
Qed.

Section NoProductiveRule.
Context (terms : list string) (rs : list MCFGRule).
Hypothesis rhs_defined :
    ∀ r, r ∈ rs → is_Some (Simplify.get_right_hand_side terms r).
Hypothesis none_productive : ∀ r, r ∈ rs → ¬ productive terms rs r.

Let preds0 := foldl (λ acc c, Simplify.str_add c acc) [] terms.

Lemma terminating_pass_nothing l :
    (∀ r, r ∈ l → r ∈ rs) →
    Simplify.terminating_pass l [] preds0 = ([], preds0).
Proof.
    induction l as [|r l IH]; intros Hl; simpl; [done|].
    destruct (is_terminating_rule r) eqn:Ht.
    - destruct (none_productive r); [apply Hl; left | by left].
    - apply IH. intros r' Hr'. apply Hl. by right.
Qed.

Lemma useful_pass_nothing l :
    (∀ r, r ∈ l → r ∈ rs) →
    Simplify.useful_pass terms l [] preds0 = Some ([], preds0).
Proof.
    induction l as [|r l IH]; intros Hl; simpl; [done|].
    destruct (rhs_defined r) as [rhs Hrhs]; [apply Hl; left|].
    rewrite Hrhs. simpl.
    destruct (Simplify.all_vector_components_in_set rhs preds0) eqn:Hall.
    - destruct (none_productive r); [apply Hl; left|].
      right. exists rhs. split; [done|]. intros x Hx. apply leads_terminal.
      unfold Simplify.all_vector_components_in_set in Hall.
      rewrite forallb_forall in Hall.
      specialize (Hall x (proj1 (list_elem_of_In _ _) Hx)).
      unfold PyStr.mem in Hall. apply bool_decide_eq_true in Hall.
      apply fold_str_add_elem in Hall as [Hall|Hall]; [inversion Hall | done].
    - apply IH. intros r' Hr'. apply Hl. by right.
Qed.

Lemma eliminate_useless_rules_nothing fuel :
    Simplify.eliminate_useless_rules fuel terms rs = Some (Some []).
Proof.
    unfold Simplify.eliminate_useless_rules. fold preds0.
    rewrite terminating_pass_nothing by done. simpl.
    rewrite useful_pass_nothing by done. reflexivity.
Qed.

Lemma simplify_nothing fuel start :
    Simplify.simplify fuel terms start rs = Some (Some []).
Proof.
    unfold Simplify.simplify. rewrite eliminate_useless_rules_nothing.
    reflexivity.
Qed.
End NoProductiveRule.

(** ** Parsing with the empty grammar *)

(** The grammar has no rule and the three roles of the chart are empty. *)
Definition nothing_to_do (s : PState) : Prop :=
  rules (grammar s) = []
  ∧ ∀ n, role (chart s) n = [].

Lemma bind_run {A B} (m : M A) (k : A → M B) s a s' :
  m s = Done a s' → bind m k s = k a s'.
Proof. intros H. unfold bind. by rewrite H. Qed.

Lemma do_predict_no_rules token ti strategy s :
  rules (grammar s) = [] → do_predict token ti strategy s = Done [] s.
Proof.
  intros Hr. unfold do_predict.
  induction strategy as [|sym l IH]; simpl; [done|].
  erewrite bind_run; [|erewrite bind_run by reflexivity].
  2: { unfold vars_to_rules. rewrite Hr. reflexivity. }
  erewrite bind_run by exact IH. reflexivity.
Qed.

Lemma run_predict_no_rules strategy ti token s :
  rules (grammar s) = [] → run_predict strategy ti token s = Done false s.
Proof.
  intros Hr. unfold run_predict.
  erewrite bind_run by by apply do_predict_no_rules. reflexivity.
Qed.

Lemma get_items_list_empty n s :
  role (chart s) n = [] → get_items_list n s = Done [] s.
Proof.
  intros H. unfold get_items_list. erewrite bind_run by reflexivity.
  by rewrite H.
Qed.

Lemma sweep_nothing_to_do token index s :
  nothing_to_do s → sweep token index s = Done false s.
Proof.
  intros [Hr Hroles]. unfold sweep.
  erewrite bind_run by reflexivity.
  erewrite bind_run by by apply run_predict_no_rules.
  erewrite bind_run by by apply get_items_list_empty.
  erewrite bind_run by by apply get_items_list_empty.
  erewrite bind_run by reflexivity.
  erewrite bind_run by by apply get_items_list_empty.
  reflexivity.
Qed.

Lemma sweeps_nothing_to_do fuel token index s :
  nothing_to_do s → sweeps (S fuel) token index s = Done tt s.
Proof.
  intros Hs. simpl. erewrite bind_run by by apply sweep_nothing_to_do.
  reflexivity.
Qed.

Lemma run_incremental_nothing_to_do fuel toks index s :
  nothing_to_do s → index < List.length toks →
  run_incremental_parse_for_max_position_i (S fuel) toks index s = Done tt s.
Proof.
  intros Hs Hi. unfold run_incremental_parse_for_max_position_i.
  destruct (lookup_lt_is_Some_2 toks index Hi) as [token Ht].
  erewrite bind_run by (rewrite Ht; reflexivity).
  erewrite bind_run; [by apply sweeps_nothing_to_do|].
  destruct (bool_decide _); [|done].
  erewrite bind_run by reflexivity.
  erewrite bind_run by (apply run_predict_no_rules, Hs). reflexivity.
Qed.

Lemma token_loop_nothing_to_do fuel text toks indexes s :
  nothing_to_do s → (∀ i, i ∈ indexes → i < List.length toks) →
  token_loop (S fuel) text toks indexes None s = Done None s.
Proof.
  intros Hs. induction indexes as [|i l IH]; intros Hl; [done|].
  cbn [token_loop].
  erewrite bind_run
    by (apply run_incremental_nothing_to_do; [done | apply Hl; left]).
  erewrite bind_run by reflexivity.
  erewrite bind_run by (apply get_items_list_empty, Hs).
  erewrite bind_run by reflexivity.
  apply IH. intros j Hj. apply Hl. by right.
Qed.

Lemma parse_no_rules fuel text s :
  rules (grammar s) = [] →
  parse (S fuel) text s
  = Done None
      (with_chart s (new_chart (PyStr.split_space text) (terminals (grammar s)))).
Proof.
  intros Hr. unfold parse. erewrite bind_run by reflexivity.
  erewrite bind_run.
  2: { apply token_loop_nothing_to_do.
       - split; [done | by intros []].
       - intros i Hi. apply elem_of_seq in Hi. lia. }
  reflexivity.
Qed.


(** A rule set without productive rules: [S → f(S)] with [f = <S(0)>]. *)
Definition looping_function : MCFGFunc :=
  {| func_name := "f"; input_args := ["S"]; result_vector := [["S(0)"]] |}.

Definition looping_rule : MCFGRule :=
  {| rule_symbol := "S"; function := RFunc looping_function;
     vars := ["S"]; used := false |}.

Lemma looping_rule_leads_nowhere x :
  leads_to_terminals ["a"] [looping_rule] x → x ≠ "S".
Proof.
  induction 1 as [t Ht | r Hr Hterm | r rhs Hr Hrhs _ IH].
  - apply list_elem_of_singleton in Ht as ->. discriminate.
  - apply list_elem_of_singleton in Hr as ->. discriminate.
  - apply list_elem_of_singleton in Hr as ->. injection Hrhs as <-.
    exfalso. apply (IH "S"); [left | done].
Defined.


(** ** The compatibility filter *)

(** The state after [add_items_to_chart] has handled one item. *)
Definition after_add_item (s : PState) (n : chart_name) (item : ActiveItem)
    (r : nat) (dup : bool) : PState :=
  {| grammar := grammar s;
     chart :=
       set_role
         (set_all_items (chart s) (key_add (item_id item) (all_items (chart s))))
         n (key_add (item_id item) (role (chart s) n));
     store := if dup then alter mark_ignored r (store s) else store s;
     items_counter := items_counter s |}.

Lemma role_set_all_items c l n : role (set_all_items c l) n = role c n.
Proof. by destruct n. Qed.

Lemma add_item_to_chart_Done n r s a s' :
  add_item_to_chart n r s = Done a s' →
  ∃ item dup,
    store s !! r = Some item
    ∧ item_in_values item (role (chart s) n)
        (with_chart s (set_all_items (chart s)
           (key_add (item_id item) (all_items (chart s)))))
      = Done dup
          (with_chart s (set_all_items (chart s)
             (key_add (item_id item) (all_items (chart s)))))
    ∧ s' = after_add_item s n item r dup.
Proof.
  unfold add_item_to_chart.
  intros (item & ? & [Hitem ->]%deref_Done & H)%bind_Done.
  apply bind_Done in H as ([] & s1 & [= <-] & H).
  apply bind_Done in H as (? & ? & [= <- <-] & H).
  apply bind_Done in H as (dup & s2 & Hdup & H).
  pose proof (read_only_item_in_values _ _ _ _ _ Hdup) as <-.
  apply bind_Done in H as ([] & s3 & Hign & [= _ <-]).
  exists item, dup. split; [done|]. simpl in Hdup. rewrite role_set_all_items in Hdup.
  split; [done|]. unfold after_add_item, get_item_id.
  destruct dup.
  - rewrite update_item_Done in Hign. injection Hign as <-. simpl.
    by rewrite role_set_all_items.
  - injection Hign as <-. simpl. by rewrite role_set_all_items.
Qed.

(** The specification of [compatible]: an item whose found sequence is
    made of terminals is compatible exactly when the joined sequence
    occurs in the joined tokens; any other item is compatible. *)
Lemma compatible_spec c i :
  compatible c i = true ↔
  (all_terminals (chart_terminals c) (found_sequence i) = true →
   PyStr.infix_of (PyStr.join " " (found_sequence i)) (PyStr.join " " (tokens c))).
Proof.
  unfold compatible.
  destruct (all_terminals _ _); simpl.
  - rewrite contains_infix_of. split; auto.
  - split; [intros _ [=] | done].
Qed.

(** The filter keeps the objects that are compatible. *)
Definition keeps (s : PState) (r : nat) : bool :=
  match store s !! r with
  | Some i => compatible (chart s) i
  | None => false
  end.

Lemma filter_out_spec l s :
  (∀ r, r ∈ l → is_Some (store s !! r)) →
  filter_out_non_compatible_items l s
  = Done (filter (λ r, keeps s r = true) l) s.
Proof.
  induction l as [|r l IH]; intros Hl; [done|]. simpl.
  destruct (Hl r) as [i Hi]; [left|].
  erewrite bind_run by reflexivity.
  erewrite bind_run by by apply deref_eq.
  erewrite bind_run by (apply IH; intros r' Hr'; apply Hl; by right).
  unfold ret. f_equal. rewrite filter_cons.
  assert (keeps s r = compatible (chart s) i) as Hk
    by (unfold keeps; by rewrite Hi).
  destruct (decide (keeps s r = true)) as [Hd|Hd]; rewrite Hk in Hd;
    destruct (compatible (chart s) i); congruence.
Qed.

Lemma filter_out_Done l s l' s' :
  filter_out_non_compatible_items l s = Done l' s' →
  s' = s ∧ l' = filter (λ r, keeps s r = true) l.
Proof.
  revert l'. induction l as [|r l IH]; intros l'; simpl.
  - by intros [= <- <-].
  - intros (? & ? & [= <- <-] & (i & ? & [Hi ->]%deref_Done
             & (f & ? & Hf & [= <- <-])%bind_Done)%bind_Done)%bind_Done.
    destruct (IH _ Hf) as [-> ->]. split; [done|]. rewrite filter_cons.
    assert (keeps s r = compatible (chart s) i) as Hk
      by (unfold keeps; by rewrite Hi).
    destruct (decide (keeps s r = true)) as [Hd|Hd]; rewrite Hk in Hd;
      destruct (compatible (chart s) i); congruence.
Qed.

(** The object [r] is in the chart: in the index of all items or in one
    of the roles. *)
Definition in_chart (s : PState) (r : nat) : Prop :=
  r ∈ all_items (chart s) ∨ ∃ n, r ∈ role (chart s) n.

(** Every object in the chart passes the compatibility test. *)
Definition chart_compatible (s : PState) : Prop :=
  ∀ r, in_chart s r → keeps s r = true.

(** What the engine guarantees about compatibility: the text and the
    terminals stay, compatible objects stay compatible, and a chart of
    compatible objects stays one. *)
Definition keeps_frame (s s' : PState) : Prop :=
  wf s →
  wf s'
  ∧ tokens (chart s') = tokens (chart s)
  ∧ chart_terminals (chart s') = chart_terminals (chart s)
  ∧ (∀ r, keeps s r = true → keeps s' r = true)
  ∧ (chart_compatible s → chart_compatible s').

#[global] Instance keeps_frame_preorder : PreOrder keeps_frame.
Proof.
  split.
  - intros s Hw. done.
  - intros s1 s2 s3 H12 H23 Hw1.
    destruct (H12 Hw1) as (Hw2 & Ht2 & Hm2 & Hk2 & Hc2).
    destruct (H23 Hw2) as (Hw3 & Ht3 & Hm3 & Hk3 & Hc3).
    split; [done|]. split; [congruence|]. split; [congruence|]. split; auto.
Qed.

Lemma compatible_ext c c' i i' :
  tokens c' = tokens c → chart_terminals c' = chart_terminals c →
  found_sequence i' = found_sequence i →
  compatible c' i' = compatible c i.
Proof. intros Ht Hm Hf. unfold compatible. by rewrite Ht, Hm, Hf. Qed.

(** Updates that leave the roles alone and change objects only in their
    flags keep the compatibility guarantee. *)
Lemma keeps_frame_of_frame s s' :
  frame s s' →
  tokens (chart s') = tokens (chart s) →
  chart_terminals (chart s') = chart_terminals (chart s) →
  all_items (chart s') = all_items (chart s) →
  (∀ n, role (chart s') n = role (chart s) n) →
  keeps_frame s s'.
Proof.
  intros Hf Ht Hm Ha Hr Hw. destruct (Hf Hw) as (Hw' & _ & _ & Hst).
  assert (∀ r, keeps s r = true → keeps s' r = true) as Hk.
  { intros r. unfold keeps. destruct (store s !! r) as [i|] eqn:Hi; [|done].
    destruct (Hst _ _ Hi) as (j & -> & Hsame). intros <-.
    apply compatible_ext; [done..|].
    by destruct Hsame as (_&_&_&_&_&_&_&_&?&_). }
  do 4 (split; [done|]). intros Hc r [Hin | [n Hin]]; apply Hk, Hc.
  - left. by rewrite <- Ha.
  - right. exists n. by rewrite <- Hr.
Qed.

Lemma keeps_frame_new_item sym fs fe dot act order ti vb rl ants fseq :
  preserves keeps_frame
    (new_ActiveItem sym fs fe dot act order ti vb rl ants fseq).
Proof.
  intros s a s' H. apply keeps_frame_of_frame; [by eapply frame_new_item|..];
    rewrite new_ActiveItem_Done in H; injection H as ? ?; subst; try intros ?; reflexivity.
Qed.

Lemma keeps_frame_mark_scanned r : preserves keeps_frame (update_item r mark_scanned).
Proof.
  intros s a s' H. apply keeps_frame_of_frame; [by eapply frame_mark_scanned|..];
    rewrite update_item_Done in H; injection H as ? ?; subst; try intros ?; reflexivity.
Qed.

Lemma keeps_frame_mark_ignored r : preserves keeps_frame (update_item r mark_ignored).
Proof.
  intros s a s' H. apply keeps_frame_of_frame; [by eapply frame_mark_ignored|..];
    rewrite update_item_Done in H; injection H as ? ?; subst; try intros ?; reflexivity.
Qed.

Lemma keeps_frame_mark_rule_used i : preserves keeps_frame (mark_rule_used i).
Proof.
  intros s a s' H. apply keeps_frame_of_frame; [by eapply frame_mark_rule_used|..];
    injection H as ? ?; subst; try intros ?; reflexivity.
Qed.

Lemma keeps_frame_strategy l : preserves keeps_frame (add_item_to_prediction_strategy l).
Proof.
  intros s a s' H. apply keeps_frame_of_frame.
  - eapply chart_free_strategy; [apply _ | apply frame_chart | exact H].
  - injection H as ? ?; subst. by destruct (existsb _ _).
  - injection H as ? ?; subst. by destruct (existsb _ _).
  - injection H as ? ?; subst. by destruct (existsb _ _).
  - injection H as ? ?; subst. intros n. by destruct (existsb _ _), n.
Qed.

Lemma keeps_frame_couples p : preserves keeps_frame (update_combined_couples p).
Proof.
  intros s a s' H. apply keeps_frame_of_frame.
  - apply (chart_free_couples frame frame_chart p _ _ _ H).
  - injection H as ? ?; subst. reflexivity.
  - injection H as ? ?; subst. reflexivity.
  - injection H as ? ?; subst. reflexivity.
  - injection H as ? ?; subst. by intros [].
Qed.

#[global] Instance chart_name_eq_dec : EqDecision chart_name.
Proof. solve_decision. Defined.

Lemma keeps_after_add_item s n item r dup r' :
  store s !! r = Some item →
  keeps s r' = true → keeps (after_add_item s n item r dup) r' = true.
Proof.
  intros Hitem. unfold keeps, after_add_item. simpl.
  destruct dup; [|destruct (store s !! r'); [by destruct n | done]].
  rewrite lookup_alter. case_decide as Heq; [subst r'|].
  - rewrite Hitem. simpl. intros <-. by destruct n.
  - destruct (store s !! r'); [by destruct n | done].
Qed.

Lemma in_chart_after_add_item s n item r dup r' :
  in_chart (after_add_item s n item r dup) r' →
  r' = item_id item ∨ in_chart s r'.
Proof.
  unfold in_chart, after_add_item. simpl. intros [Hin | [m Hin]].
  - unfold key_add in Hin. revert Hin.
    case_bool_decide; intros Hin; [right; by left|].
    apply elem_of_app in Hin as [Hin|Hin%list_elem_of_singleton];
      [right; by left | by left].
  - destruct (decide (m = n)) as [->|Hne].
    + assert (r' ∈ key_add (item_id item) (role (chart s) n)) as Hin'
        by (by destruct n).
      unfold key_add in Hin'. revert Hin'.
      case_bool_decide; intros Hin'; [right; right; by exists n|].
      apply elem_of_app in Hin' as [Hin'|Hin'%list_elem_of_singleton];
        [right; right; by exists n | by left].
    + right. right. exists m. by destruct m, n.
Qed.

Lemma keeps_frame_add_item n r s a s' :
  keeps s r = true → add_item_to_chart n r s = Done a s' → keeps_frame s s'.
Proof.
  intros Hk (item & dup & Hitem & _ & ->)%add_item_to_chart_Done Hw.
  assert (wf (after_add_item s n item r dup)) as Hw'.
  { destruct dup; [|by apply (wf_same_store s)].
    assert (frame s (with_store s (alter mark_ignored r (store s)))) as Hf
      by (by eapply frame_mark_ignored).
    destruct (Hf Hw) as (Hw' & _). revert Hw'. by apply wf_same_store. }
  split; [done|]. split; [by destruct n|]. split; [by destruct n|].
  split; [intros r'; by apply keeps_after_add_item|].
  intros Hc r' [->|Hin]%in_chart_after_add_item.
  - destruct Hw as [_ Hids]. rewrite (Hids _ _ Hitem).
    by apply keeps_after_add_item.
  - by apply keeps_after_add_item, Hc.
Qed.

(** A loop over objects that are compatible when the loop starts. *)
Lemma keeps_frame_for_each l (body : nat → M unit) :
  (∀ r s a s', r ∈ l → keeps s r = true → body r s = Done a s' → keeps_frame s s') →
  ∀ s a s', wf s → (∀ r, r ∈ l → keeps s r = true) →
            for_each l body s = Done a s' → keeps_frame s s'.
Proof.
  induction l as [|r l IH]; intros Hbody s a s' Hw Hl; simpl.
  - intros [= _ <-]. reflexivity.
  - intros ([] & s1 & H1 & H2)%bind_Done.
    assert (keeps_frame s s1) as Hf1
      by (eapply Hbody; [left | apply Hl; left | exact H1]).
    destruct (Hf1 Hw) as (Hw1 & _ & _ & Hk1 & _).
    transitivity s1; [done|]. eapply IH; [| done | | exact H2].
    + intros r' s0 a0 s0' Hr'. apply Hbody. by right.
    + intros r' Hr'. apply Hk1, Hl. by right.
Qed.

Lemma keeps_frame_add_items l n s a s' :
  wf s → (∀ r, r ∈ l → keeps s r = true) →
  add_items_to_chart l n s = Done a s' → keeps_frame s s'.
Proof.
  apply keeps_frame_for_each. intros r s0 a0 s0' _. apply keeps_frame_add_item.
Qed.

Lemma keeps_frame_add_active l : preserves keeps_frame (add_active_items_to_chart l).
Proof.
  intros s a s'. unfold add_active_items_to_chart.
  intros (l' & ? & [-> ->]%filter_out_Done & ([] & s1 & H & [= _ <-])%bind_Done)%bind_Done.
  intros Hw. eapply keeps_frame_add_items; [done | | exact H | done].
  by intros r [Hr _]%list_elem_of_filter.
Qed.

Lemma keeps_frame_pop s r :
  keeps_frame s
    (if bool_decide (r ∈ role (chart s) active_items)
     then with_chart s (set_role (chart s) active_items
                          (key_pop r (role (chart s) active_items)))
     else s).
Proof.
  case_bool_decide; [|reflexivity]. intros Hw.
  split; [by apply (wf_same_store s)|]. do 2 (split; [done|]).
  split; [done|]. intros Hc r' [Hin | [n Hin]]; apply (Hc r').
  - by left.
  - right. exists n. destruct n; simpl in *; try done.
    by apply list_elem_of_filter in Hin as [_ ?].
Qed.

Lemma keeps_frame_add_completed l :
  preserves keeps_frame (add_completed_items_to_chart l).
Proof.
  intros s a s'. unfold add_completed_items_to_chart.
  intros (l' & ? & [-> ->]%filter_out_Done & H)%bind_Done.
  apply bind_Done in H as ([] & s1 & H1 & ([] & s2 & H2 & [= _ <-])%bind_Done).
  intros Hw.
  assert (∀ r, r ∈ filter (λ r, keeps s r = true) l → keeps s r = true) as Hl
    by (by intros r [Hr _]%list_elem_of_filter).
  assert (keeps_frame s s1) as Hf1.
  { eapply keeps_frame_for_each; [| done | exact Hl | exact H1].
    intros r s0 a0 s0' _ Hk (item & ? & [Hitem ->]%deref_Done & H)%bind_Done.
    destruct (bool_decide _).
    - apply bind_Done in H as ([] & s3 & H3 & [= _ <-]).
      transitivity s3; [|apply keeps_frame_pop].
      simpl in H3. apply bind_Done in H3 as ([] & s4 & H4 & [= <-]).
      by eapply keeps_frame_add_item.
    - injection H as _ <-. reflexivity. }
  destruct (Hf1 Hw) as (Hw1 & _ & _ & Hk1 & _).
  specialize (Hf1 Hw).
  assert (keeps_frame s1 s2) as Hf2.
  { eapply keeps_frame_add_items; [done | | exact H2]. intros r Hr. by apply Hk1, Hl. }
  destruct (Hf2 Hw1) as (Hw2 & Ht2 & Hm2 & Hk2 & Hc2).
  destruct Hf1 as (_ & Ht1 & Hm1 & _ & Hc1).
  split; [done|]. split; [congruence|]. split; [congruence|]. split; auto.
Qed.

Lemma split_space_not_nil s : PyStr.split_space s ≠ [].
Proof.
  destruct s as [|c s]; simpl; [done|].
  destruct (Ascii.eqb c " "); [done|]. by destruct (PyStr.split_space s).
Qed.

(** Joining the pieces of [text.split(' ')] with spaces gives the text. *)
Lemma join_split_space text : PyStr.join " " (PyStr.split_space text) = text.
Proof.
  induction text as [|c s IH]; [done|]. simpl.
  destruct (Ascii.eqb c " ") eqn:Hc.
  - apply Ascii.eqb_eq in Hc as ->.
    pose proof (split_space_not_nil s) as Hne.
    destruct (PyStr.split_space s) as [|h t]; [done|].
    change (PyStr.join " " ("" :: h :: t)) with (" " +:+ PyStr.join " " (h :: t)).
    by rewrite IH.
  - pose proof (split_space_not_nil s) as Hne.
    destruct (PyStr.split_space s) as [|h t]; [done|].
    rewrite <- IH. by destruct t.
Qed.

Lemma keeps_frame_sweeps fuel token index :
  preserves keeps_frame (sweeps fuel token index).
Proof.
  apply preserves_sweeps; auto using keeps_frame_new_item,
    keeps_frame_mark_scanned, keeps_frame_mark_ignored,
    keeps_frame_mark_rule_used, keeps_frame_strategy, keeps_frame_couples,
    keeps_frame_add_active, keeps_frame_add_completed; apply _.
Qed.

Lemma keeps_frame_token_loop fuel text toks indexes goal :
  preserves keeps_frame (token_loop fuel text toks indexes goal).
Proof.
  apply preserves_token_loop; auto using keeps_frame_new_item,
    keeps_frame_mark_scanned, keeps_frame_mark_ignored,
    keeps_frame_mark_rule_used, keeps_frame_strategy, keeps_frame_couples,
    keeps_frame_add_active, keeps_frame_add_completed; apply _.
Qed.

(** The steps of [parse]: the state with the new chart, the state after
    the token loop (which is the final state), and the goal. *)
Lemma parse_Done fuel text s res s' :
  parse fuel text s = Done res s' →
  let s0 := with_chart s (new_chart (PyStr.split_space text)
                            (terminals (grammar s))) in
  ∃ goal,
    token_loop fuel text (PyStr.split_space text)
      (seq 0 (List.length (PyStr.split_space text))) None s0 = Done goal s'
    ∧ match goal with
      | None => res = None
      | Some r =>
          ∃ item table, store s' !! r = Some item
                        ∧ get_parsing_table fuel (get_item_id item) s'
                          = Done table s'
                        ∧ res = Some table
      end.
Proof.
  unfold parse. intros ([] & ? & [= <-] & (goal & s1 & Hloop & H)%bind_Done)%bind_Done.
  exists goal. destruct goal as [r|].
  - apply bind_Done in H as (item & ? & [Hitem ->]%deref_Done & H).
    apply bind_Done in H as (table & s2 & Htable & [= <- <-]).
    pose proof (read_only_get_parsing_table _ _ _ _ _ Htable) as <-.
    split; [done|]. by exists item, table.
  - injection H as <- <-. by split.
Qed.

Lemma chart_compatible_after_parse fuel text s res s' :
  wf s → parse fuel text s = Done res s' →
  wf s' ∧ chart_compatible s'
  ∧ tokens (chart s') = PyStr.split_space text
  ∧ chart_terminals (chart s') = terminals (grammar s).
Proof.
  intros Hw (goal & Hloop & _)%parse_Done.
  apply keeps_frame_token_loop in Hloop.
  destruct Hloop as (Hw' & Ht & Hm & _ & Hc); [by apply (wf_same_store s)|].
  split; [done|]. split; [|by split].
  apply Hc. intros r [Hin | [n Hin]]; simpl in Hin.
  - inversion Hin.
  - destruct n; inversion Hin.
Qed.

Lemma keeps_spec s r :
  keeps s r = true ↔
  ∃ i, store s !! r = Some i
       ∧ (all_terminals (chart_terminals (chart s)) (found_sequence i) = true →
          PyStr.infix_of (PyStr.join " " (found_sequence i))
            (PyStr.join " " (tokens (chart s)))).
Proof.
  unfold keeps. destruct (store s !! r) as [i|].
  - rewrite compatible_spec. split; [intros H; by exists i | by intros (? & [= <-] & ?)].
  - split; [done | by intros (? & [=] & _)].
Qed.




(** ** Duplicate items *)

(** The grammar [S → g(B)], [B → k | h(C)], [C → a] with [g = <B(0) a>],
    [k = <a>] and [h = <C(0)>]: the symbol [B] derives [a] in two ways,
    the second one step longer than the first. *)
Definition grammar_duplicates : MCFG :=
  {| start_symbol := "S"; terminals := ["a"];
     rules :=
       [ {| rule_symbol := "S";
            function := RFunc {| func_name := "g"; input_args := ["B"];
                                 result_vector := [["B(0)"; "a"]] |};
            vars := ["B"]; used := false |};
         {| rule_symbol := "B";
            function := RFunc {| func_name := "k"; input_args := [];
                                 result_vector := [["a"]] |};
            vars := []; used := false |};
         {| rule_symbol := "B";
            function := RFunc {| func_name := "h"; input_args := ["C"];
                                 result_vector := [["C(0)"]] |};
            vars := ["C"]; used := false |};
         {| rule_symbol := "C"; function := RTerminal "a";
            vars := []; used := false |} ] |}.

(** The objects [a] and [b] are two different items of the active role,
    neither is ignored, and [ActiveItem.__eq__] finds them equal. *)
Definition equal_and_active (s : PState) (a b : nat) : bool :=
  bool_decide (a ≠ b)
  && bool_decide (a ∈ role (chart s) active_items)
  && bool_decide (b ∈ role (chart s) active_items)
  && match store s !! a, store s !! b with
     | Some i, Some j =>
         negb (ignored i) && negb (ignored j)
         && match item_eq (rules (grammar s)) i j with
            | Some true => true
            | _ => false
            end
     | _, _ => false
     end.

Lemma parse_leaves_duplicates :
  match parse 20 "a a" (initial_state grammar_duplicates 0) with
  | Done (Some _) s' => equal_and_active s' 7 14
  | _ => false
  end = true.
Proof. vm_compute. reflexivity. Qed.


(** ** Trace extraction *)

(** An item is reachable from the goal when a chain of antecedent ids,
    each looked up in the index of all items, leads from the goal to it. *)
Inductive reachable (s : PState) (goal : ActiveItem) : ActiveItem → Prop :=
| reachable_goal : reachable s goal goal
| reachable_antecedent x a y :
    reachable s goal x → a ∈ antecedent_ids x →
    a ∈ all_items (chart s) → store s !! a = Some y →
    reachable s goal y.

(** The id [a] is known to the chart, and the table holds the object it
    identifies or an object that [ActiveItem.__eq__] finds equal to it. *)
Definition covered (s : PState) (table : list ActiveItem) (a : nat) : Prop :=
  a ∈ all_items (chart s)
  ∧ ∃ y, store s !! a = Some y
       ∧ ∃ v, v ∈ table
            ∧ (item_id v = item_id y
               ∨ item_eq (rules (grammar s)) v y = Some true).

(** The object [x] is one of the objects of the chart. *)
Definition chart_object (s : PState) (x : ActiveItem) : Prop :=
  ∃ k, k ∈ all_items (chart s) ∧ store s !! k = Some x.

Lemma covered_mono s table table' a :
  (∀ v, v ∈ table → v ∈ table') → covered s table a → covered s table' a.
Proof.
  intros Hsub (Ha & y & Hy & v & Hv & H). split; [done|].
  exists y. split; [done|]. exists v. split; [auto | done].
Qed.

Lemma item_in_table_true rs y table :
  item_in_table rs y table = Some true →
  ∃ v, v ∈ table ∧ (item_id v = item_id y ∨ item_eq rs v y = Some true).
Proof.
  induction table as [|v table IH]; simpl; [done|].
  case_bool_decide as Hid.
  - intros _. exists v. split; [left | by left].
  - destruct (item_eq rs v y) as [[]|] eqn:Heq; simpl; [| |done].
    + intros _. exists v. split; [left | by right].
    + intros (w & Hw & H)%IH. exists w. split; [by right | done].
Qed.

Lemma all_items_lookup_Done a s y s' :
  all_items_lookup a s = Done y s' →
  a ∈ all_items (chart s) ∧ store s !! a = Some y ∧ s' = s.
Proof.
  unfold all_items_lookup. intros (? & ? & [= <- <-] & H)%bind_Done.
  case_bool_decide; [|done]. by apply deref_Done in H as [? ->].
Qed.

Lemma parsing_table_loop_spec fuel s goal ants table res s' :
  last table = Some goal →
  (∀ x, x ∈ table → reachable s goal x ∧ chart_object s x) →
  (∀ a, a ∈ ants → ∃ x, x ∈ table ∧ a ∈ antecedent_ids x) →
  (∀ x a, x ∈ table → a ∈ antecedent_ids x → a ∈ ants ∨ covered s table a) →
  parsing_table_loop fuel ants table s = Done res s' →
  s' = s ∧ last res = Some goal
  ∧ (∀ x, x ∈ res → reachable s goal x ∧ chart_object s x)
  ∧ (∀ x a, x ∈ res → a ∈ antecedent_ids x → covered s res a).
Proof.
  revert ants table. induction fuel as [|fuel IH]; intros ants table Hlast Hreach Hants Hcov.
  - destruct ants as [|a ants]; simpl; [|done]. intros [= <- <-].
    do 3 (split; [done|]). intros x a Hx Ha.
    destruct (Hcov x a Hx Ha) as [Hin|]; [inversion Hin | done].
  - destruct ants as [|a ants]; simpl.
    { intros [= <- <-]. do 3 (split; [done|]). intros x a Hx Ha.
      destruct (Hcov x a Hx Ha) as [Hin|]; [inversion Hin | done]. }
    intros (y & ? & (Ha & Hy & ->)%all_items_lookup_Done & H)%bind_Done.
    apply bind_Done in H as (? & ? & [= <- <-] & H).
    apply bind_Done in H as (present & ? & [Hpres ->]%lift_Done & H).
    destruct present.
    + apply IH in H; [done | done | done | |].
      * intros a' Ha'. apply Hants. by right.
      * intros x a' Hx Ha'. destruct (Hcov x a' Hx Ha') as [Hin|]; [|by right].
        apply elem_of_cons in Hin as [->|]; [|by left].
        right. split; [done|]. exists y. split; [done|].
        by apply item_in_table_true.
    + destruct (Hants a) as (x0 & Hx0 & Hax0); [left|].
      apply IH in H; [done | | | |].
      * rewrite last_cons. by rewrite Hlast.
      * intros x [->|Hx]%elem_of_cons; [|by apply Hreach]. split.
        -- eapply reachable_antecedent; [by apply Hreach | done..].
        -- by exists a.
      * intros a' [Ha'|Ha']%elem_of_app.
        -- destruct (Hants a') as (x & ? & ?); [by right|]. exists x.
           split; [by right | done].
        -- exists y. split; [left | done].
      * intros x a' [->|Hx]%elem_of_cons Ha'.
        -- left. apply elem_of_app. by right.
        -- destruct (Hcov x a' Hx Ha') as [Hin|Hc].
           ++ apply elem_of_cons in Hin as [->|Hin].
              ** right. split; [done|]. exists y. split; [done|].
                 exists y. split; [left | by left].
              ** left. apply elem_of_app. by left.
           ++ right. eapply covered_mono; [|done]. intros v Hv. by right.
Qed.

Lemma get_parsing_table_spec fuel g s table s' :
  get_parsing_table fuel g s = Done table s' →
  ∃ goal,
    g ∈ all_items (chart s) ∧ store s !! g = Some goal
    ∧ s' = s ∧ last table = Some goal
    ∧ (∀ x, x ∈ table → reachable s goal x ∧ chart_object s x)
    ∧ (∀ x a, x ∈ table → a ∈ antecedent_ids x → covered s table a).
Proof.
  unfold get_parsing_table.
  intros (goal & ? & (Hg & Hgoal & ->)%all_items_lookup_Done & H)%bind_Done.
  exists goal. do 2 (split; [done|]).
  eapply parsing_table_loop_spec in H; [done | done | | |].
  - intros x ->%list_elem_of_singleton. split; [constructor | by exists g].
  - intros a Ha. exists goal. split; [left | done].
  - intros x a ->%list_elem_of_singleton Ha. by left.
Qed.

(** The grammar [S → g(B)], [B → f(B) | h] with [g = <B(0)>],
    [f = <a B(0)>] and [h = <e>]. *)
Definition grammar_recursive : MCFG :=
  {| start_symbol := "S"; terminals := ["a"; "e"];
     rules :=
       [ {| rule_symbol := "S";
            function := RFunc {| func_name := "g"; input_args := ["B"];
                                 result_vector := [["B(0)"]] |};
            vars := ["B"]; used := false |};
         {| rule_symbol := "B";
            function := RFunc {| func_name := "f"; input_args := ["B"];
                                 result_vector := [["a"; "B(0)"]] |};
            vars := ["B"]; used := false |};
         {| rule_symbol := "B";
            function := RFunc {| func_name := "h"; input_args := [];
                                 result_vector := [["e"]] |};
            vars := []; used := false |} ] |}.

(** The item at position [p] of the table lists as an antecedent the
    item at the later position [q]. *)
Definition antecedent_after (table : list ActiveItem) (p q : nat) : bool :=
  bool_decide (p < q)
  && match table !! p, table !! q with
     | Some x, Some y => bool_decide (item_id y ∈ antecedent_ids x)
     | _, _ => false
     end.

Lemma parse_recursive_order :
  match parse 20 "a a e" (initial_state grammar_recursive 0) with
  | Done (Some table) _ => antecedent_after table 3 6
  | _ => false
  end = true.
Proof. vm_compute. reflexivity. Qed.


(** No two objects of the chart with different ids are equal for
    [ActiveItem.__eq__]. *)
Definition no_equal_items (s : PState) : Prop :=
  ∀ k1 k2 x y,
    k1 ∈ all_items (chart s) → k2 ∈ all_items (chart s) →
    store s !! k1 = Some x → store s !! k2 = Some y →
    item_eq (rules (grammar s)) x y = Some true → k1 = k2.



Lemma parse_single_rule_accepts :
  ∃ table s',
    parse 3 "a" (initial_state grammar_single_rule 0) = Done (Some table) s'.
Proof. eexists _, _. vm_compute. reflexivity. Qed.


(** ** The result of a parse *)

(** In state [s] the completed-items role lists the object [r], which
    is [item]: it is not ignored, its symbol is the start symbol, and
    its found sequence joined by single spaces is [text]. *)
Definition goal_in (s : PState) (text : string) (r : nat) (item : ActiveItem)
  : Prop :=
  r ∈ role (chart s) completed_items
  ∧ store s !! r = Some item
  ∧ ignored item = false
  ∧ symbol item = start_symbol (grammar s)
  ∧ PyStr.join " " (found_sequence item) = text.

Lemma get_items_list_of_Done keys s l s' :
  get_items_list_of keys s = Done l s' →
  s' = s
  ∧ ∀ r, r ∈ l ↔ r ∈ keys ∧ ∃ item, store s !! r = Some item ∧ ignored item = false.
Proof.
  revert l. induction keys as [|k keys IH]; intros l; simpl.
  - intros [= <- <-]. split; [done|]. intros r. split; [inversion 1 | by intros [? _]].
  - intros (v & ? & [Hv ->]%deref_Done & (l' & ? & Hl' & [= <- <-])%bind_Done)%bind_Done.
    destruct (IH _ Hl') as [-> Hiff]. split; [done|]. intros r.
    destruct (ignored v) eqn:Hign.
    + rewrite Hiff, elem_of_cons. split.
      * intros [Hr Hex]. split; [by right | done].
      * intros [[->|Hr] (item & Hitem & Hi)]; [congruence | by split; [|exists item]].
    + rewrite !elem_of_cons, Hiff. split.
      * intros [->|[Hr Hex]]; [split; [by left | by exists v] | split; [by right | done]].
      * intros [[->|Hr] Hex]; [by left | right; by split].
Qed.

Lemma find_goal_Done start text items s found s' :
  find_goal start text items s = Done found s' →
  s' = s
  ∧ match found with
    | Some r =>
        r ∈ items
        ∧ ∃ item, store s !! r = Some item ∧ symbol item = start
                  ∧ PyStr.join " " (found_sequence item) = text
    | None =>
        ∀ r item, r ∈ items → store s !! r = Some item →
                  ¬ (symbol item = start
                     ∧ PyStr.join " " (found_sequence item) = text)
    end.
Proof.
  induction items as [|r items IH]; simpl.
  - intros [= <- <-]. split; [done|]. intros r item Hr. inversion Hr.
  - intros (item & ? & [Hitem ->]%deref_Done & H)%bind_Done.
    destruct (String.eqb (symbol item) start
              && String.eqb (PyStr.join " " (found_sequence item)) text) eqn:Hb.
    + injection H as <- <-. split; [done|]. split; [left|].
      apply andb_true_iff in Hb as [Hs Hj].
      apply String.eqb_eq in Hs, Hj. by exists item.
    + destruct (IH H) as [-> Hf]. split; [done|]. destruct found as [r'|].
      * destruct Hf as [Hr' Hex]. split; [by right | done].
      * intros r0 item0 [->|Hr0]%elem_of_cons Hi0; [|by eapply Hf].
        rewrite Hitem in Hi0. injection Hi0 as <-. intros [Hs Hj].
        apply andb_false_iff in Hb as [Hb|Hb]; apply String.eqb_neq in Hb; done.
Qed.

(** The search for a goal after a token: it answers an object exactly
    when the state holds a goal, and then the object is a goal. *)
Lemma goal_search_Done s text found s' :
  (items <~ get_items_list completed_items ;;
   find_goal (start_symbol (grammar s)) text items) s = Done found s' →
  s' = s
  ∧ match found with
    | Some r => ∃ item, goal_in s text r item
    | None => ∀ r item, ¬ goal_in s text r item
    end.
Proof.
  intros (items & ? & Hitems & Hfind)%bind_Done.
  unfold get_items_list in Hitems.
  apply bind_Done in Hitems as (? & ? & [= <- <-] & Hitems).
  apply get_items_list_of_Done in Hitems as [-> Hiff].
  apply find_goal_Done in Hfind as [-> Hfound]. split; [done|].
  destruct found as [r|].
  - destruct Hfound as (Hr & item & Hitem & Hs & Hj).
    apply Hiff in Hr as (Hrole & item' & Hitem' & Hign).
    rewrite Hitem in Hitem'. injection Hitem' as <-. by exists item.
  - intros r item (Hrole & Hitem & Hign & Hs & Hj).
    apply (Hfound r item); [|done..]. apply Hiff. split; [done|]. by exists item.
Qed.

Lemma for_each_cons_Done {A} (x : A) l (body : A → M unit) s s1 s2 :
  body x s = Done tt s1 → for_each l body s1 = Done tt s2 →
  for_each (x :: l) body s = Done tt s2.
Proof. intros H1 H2. simpl. by erewrite bind_run by exact H1. Qed.

(** The token loop: its final state is that of the runs alone; the goal
    it answers was met after one of the runs, or handed in; and when it
    answers none, no run was followed by a state that holds a goal. *)
Lemma token_loop_goal fuel text toks l acc s1 g s2 :
  token_loop fuel text toks l acc s1 = Done g s2 →
  for_each l (run_incremental_parse_for_max_position_i fuel toks) s1 = Done tt s2
  ∧ (∀ r, g = Some r →
       acc = Some r
       ∨ ∃ l1 i l2 sk item,
           l = l1 ++ i :: l2
           ∧ for_each (l1 ++ [i])
               (run_incremental_parse_for_max_position_i fuel toks) s1
             = Done tt sk
           ∧ goal_in sk text r item)
  ∧ (g = None →
       acc = None
       ∧ ∀ l1 i l2 sk r item,
           l = l1 ++ i :: l2 →
           for_each (l1 ++ [i])
             (run_incremental_parse_for_max_position_i fuel toks) s1
           = Done tt sk →
           ¬ goal_in sk text r item).
Proof.
  revert acc s1. induction l as [|i l IH]; intros acc s1; simpl.
  - intros [= <- <-]. split; [done|]. split; [intros r ->; by left|].
    intros ->. split; [done|]. intros [|??] ????? Hl; discriminate Hl.
  - intros ([] & s1' & Hrun & H)%bind_Done.
    apply bind_Done in H as (? & ? & [= <- <-] & H).
    apply bind_Done in H as (items & s1a & Hitems & H).
    apply bind_Done in H as (found & s1b & Hfind & H).
    assert ((items <~ get_items_list completed_items ;;
             find_goal (start_symbol (grammar s1')) text items) s1'
            = Done found s1b) as Hsearch.
    { apply bind_Done. by exists items, s1a. }
    apply goal_search_Done in Hsearch as [-> Hfound].
    destruct (IH _ _ H) as (Hfor & Hsome & Hnone).
    split; [by eapply for_each_cons_Done|]. split.
    + intros r Hg. destruct (Hsome r Hg) as [Hacc | (l1 & j & l2 & sk & item & -> & Hsk & Hgoal)].
      * destruct found as [r'|]; [|by left]. injection Hacc as ->.
        destruct Hfound as [item Hgoal]. right.
        exists [], i, l, s1', item. split; [done|]. split; [|done].
        simpl. by erewrite bind_run by exact Hrun.
      * right. exists (i :: l1), j, l2, sk, item. split; [done|]. split; [|done].
        by eapply for_each_cons_Done.
    + intros Hg. destruct (Hnone Hg) as [Hacc Hno].
      destruct found as [r'|]; [done|]. split; [done|].
      intros [|i' l1] j l2 sk r item Hl Hsk.
      * injection Hl as <- <-. simpl in Hsk.
        erewrite bind_run in Hsk by exact Hrun. injection Hsk as <-.
        apply Hfound.
      * injection Hl as <- ->. simpl in Hsk.
        erewrite bind_run in Hsk by exact Hrun. by eapply Hno.
Qed.

Lemma seq_split_at n l1 i l2 :
  seq 0 n = l1 ++ i :: l2 → i < n ∧ l1 ++ [i] = seq 0 (S i).
Proof.
  intros H.
  assert (i = List.length l1) as ->.
  { assert (seq 0 n !! List.length l1 = Some i) as Hl
      by (rewrite H; by apply list_lookup_middle).
    apply lookup_seq in Hl as [Hl _]. simpl in Hl. done. }
  assert (List.length l1 < n) as Hlt.
  { apply (f_equal List.length) in H.
    rewrite length_seq, length_app in H. simpl in H. lia. }
  split; [done|].
  apply (f_equal (take (S (List.length l1)))) in H.
  rewrite take_seq, Nat.min_l in H by lia. rewrite H.
  replace (l1 ++ List.length l1 :: l2) with ((l1 ++ [List.length l1]) ++ l2)
    by (by rewrite <- app_assoc).
  replace (S (List.length l1)) with (List.length (l1 ++ [List.length l1]))
    by (rewrite length_app; simpl; lia).
  by rewrite take_app_length.
Qed.

Lemma for_each_app_Done {A} (l1 l2 : list A) (body : A → M unit) s s2 :
  for_each (l1 ++ l2) body s = Done tt s2 ↔
  ∃ s1, for_each l1 body s = Done tt s1 ∧ for_each l2 body s1 = Done tt s2.
Proof.
  revert s. induction l1 as [|x l1 IH]; intros s; simpl.
  - split; [intros H; by exists s | by intros (? & [= <-] & ?)].
  - rewrite bind_Done. split.
    + intros ([] & s0 & Hx & (s1 & H1 & H2)%IH). exists s1.
      split; [|done]. apply bind_Done. by exists tt, s0.
    + intros (s1 & ([] & s0 & Hx & H1)%bind_Done & H2).
      exists tt, s0. split; [done|]. apply IH. by exists s1.
Qed.

Lemma frame_runs fuel toks l :
  preserves frame (for_each l (run_incremental_parse_for_max_position_i fuel toks)).
Proof.
  apply preserves_for_each; [apply _|]. intros i _.
  apply preserves_run_incremental; first
    [ apply _ | apply frame_new_item | apply frame_mark_scanned
    | apply frame_mark_ignored | apply frame_mark_rule_used
    | intros; apply chart_free_strategy; first [apply _ | apply frame_chart]
    | intros; apply chart_free_couples; first [apply _ | apply frame_chart]
    | intros; apply chart_free_add_active;
        first [apply _ | apply frame_chart | apply frame_mark_ignored]
    | intros; apply chart_free_add_completed;
        first [apply _ | apply frame_chart | apply frame_mark_ignored] ].
Qed.

(** The result of a parse in terms of what [get_items_list] yields: a
    run that returns gives a parsing table exactly when, after the run
    for one of the token positions, the completed-items role lists
    (holds, not flagged as ignored) an item whose symbol is the start
    symbol and whose found sequence, joined by single spaces, is the
    text.  The last item of a returned table is such an item. *)
Lemma parse_returns_table_iff_goal (fuel : nat) (text : string)
    (s s' : PState) (res : option (list ActiveItem)) :
  wf s → parse fuel text s = Done res s' →
  let toks := PyStr.split_space text in
  let s0 := with_chart s (new_chart toks (terminals (grammar s))) in
  ((∃ table, res = Some table) ↔
   ∃ k sk r item,
     k < List.length toks
     ∧ for_each (seq 0 (S k))
         (run_incremental_parse_for_max_position_i fuel toks) s0
       = Done tt sk
     ∧ goal_in sk text r item)
  ∧ (res = None ∨ ∃ table, res = Some table)
  ∧ (∀ table, res = Some table →
       ∃ goal, last table = Some goal
               ∧ symbol goal = start_symbol (grammar s)
               ∧ PyStr.join " " (found_sequence goal) = text).
Proof.
  intros Hw Hp toks s0.
  assert (wf s0) as Hw0 by (by apply (wf_same_store s)).
  apply parse_Done in Hp as (g & Hloop & Hres). fold toks s0 in Hloop.
  destruct (token_loop_goal _ _ _ _ _ _ _ _ Hloop) as (Hfor & Hsome & Hnone).
  split; [|split].
  - split.
    + intros [table ->]. destruct g as [r|]; [|done].
      destruct (Hsome r eq_refl) as [|(l1 & i & l2 & sk & item & Hl & Hsk & Hg)];
        [done|].
      apply seq_split_at in Hl as [Hi Hl]. rewrite Hl in Hsk.
      by exists i, sk, r, item.
    + intros (k & sk & r & item & Hk & Hsk & Hg).
      destruct g as [r'|].
      * destruct Hres as (? & table & _ & _ & ->). by exists table.
      * destruct (Hnone eq_refl) as [_ Hno]. exfalso.
        apply (Hno (seq 0 k) k (seq (S k) (List.length toks - S k)) sk r item);
          [| |done].
        -- replace (List.length toks) with (S k + (List.length toks - S k))
             at 1 by lia.
           rewrite seq_app, seq_S. simpl. by rewrite <- app_assoc.
        -- by rewrite <- seq_S.
  - destruct g as [r|]; [right | by left].
    destruct Hres as (? & table & _ & _ & ->). by exists table.
  - intros table ->. destruct g as [r|]; [|done].
    destruct Hres as (item' & table' & Hitem' & Htable & [= <-]).
    destruct (Hsome r eq_refl) as [|(l1 & i & l2 & sk & item & Hl & Hsk & Hg)];
      [done|].
    replace (l1 ++ i :: l2) with ((l1 ++ [i]) ++ l2) in Hl
      by (by rewrite <- app_assoc).
    rewrite Hl in Hfor. apply for_each_app_Done in Hfor as (sk' & Hsk' & Hrest).
    rewrite Hsk in Hsk'. injection Hsk' as <-.
    destruct (frame_runs _ _ _ _ _ _ Hsk Hw0) as (Hwk & _ & (Hstart & _) & _).
    destruct (frame_runs _ _ _ _ _ _ Hrest Hwk) as ([_ Hids] & _ & _ & Hst).
    destruct Hg as (_ & Hitem & _ & Hsym & Hjoin).
    destruct (Hst _ _ Hitem) as (j & Hj & Hsame).
    rewrite Hitem' in Hj. injection Hj as <-.
    apply get_parsing_table_spec in Htable as (goal & _ & Hgoal & _ & Hlast & _).
    unfold get_item_id in Hgoal. rewrite (Hids _ _ Hitem') in Hgoal.
    rewrite Hitem' in Hgoal. injection Hgoal as <-.
    exists item'. split; [done|].
    destruct Hsame as (Hs & _ & _ & _ & _ & _ & _ & _ & Hf & _).
    rewrite <- Hs, <- Hf, Hsym, <- Hstart. done.
Qed.

(** A grammar in which the start symbol has a terminating rule and a
    rule with a function. *)
Definition grammar_mixed_rules : MCFG :=
  {| start_symbol := "S"; terminals := ["a"];
     rules :=
       [ {| rule_symbol := "S"; function := RTerminal "a"; vars := [];
            used := false |};
         {| rule_symbol := "S";
            function := RFunc {| func_name := "f"; input_args := ["X"];
                                 result_vector := [["X(0)"]] |};
            vars := ["A"]; used := false |};
         {| rule_symbol := "A"; function := RTerminal "a"; vars := [];
            used := false |} ] |}.

(** The constructor accepts the rules of [grammar_mixed_rules]. *)
Lemma grammar_mixed_rules_init :
  MCFG_init 3 ["a"]
    [ {| func_name := "f"; input_args := ["X"]; result_vector := [["X(0)"]] |} ]
    [ {| raw_symbol := "S"; raw_function := "a"; raw_vars := [] |};
      {| raw_symbol := "S"; raw_function := "f"; raw_vars := ["A"] |};
      {| raw_symbol := "A"; raw_function := "a"; raw_vars := [] |} ] "S"
  = Some (Some grammar_mixed_rules).
Proof. vm_compute. reflexivity. Qed.

(** On [grammar_mixed_rules] the first prediction makes one item for
    each of the two rules of the start symbol; the two items agree on
    every attribute up to the rule, so adding the second one to the
    chart compares the rules, a string with a function object, and the
    parse ends in an exception, however long the loops may run. *)
Lemma parse_mixed_rules_raises fuel :
  parse fuel "a" (initial_state grammar_mixed_rules 0) = Raise.
Proof. destruct fuel; vm_compute; reflexivity. Qed.


(** ** Ignored items in the completed-items role *)

(** A finished copy: an item made by [create_complete_item] whose dot
    is behind the last component. *)
Definition final (it : ActiveItem) : Prop :=
  action_type it = complete
  ∧ (dot_position it).1 = List.length (vector_binding it).

(** Fields that two equal items share and that never change. *)
Definition alike (a b : ActiveItem) : Prop :=
  symbol a = symbol b ∧ dot_position a = dot_position b
  ∧ action_type a = action_type b ∧ found_sequence a = found_sequence b
  ∧ vector_binding a = vector_binding b.

Lemma alike_refl a : alike a a.
Proof. by repeat split. Qed.

Lemma alike_flags a a' b b' :
  same_but_flags a a' → same_but_flags b b' → alike a b → alike a' b'.
Proof.
  unfold same_but_flags, alike. intros Ha Hb H.
  destruct Ha as (?&?&?&?&?&?&?&?&?&?&?&?&?&?&?).
  destruct Hb as (?&?&?&?&?&?&?&?&?&?&?&?&?&?&?).
  destruct H as (?&?&?&?&?).
  repeat split; congruence.
Qed.

Lemma final_flags a a' : same_but_flags a a' → final a ↔ final a'.
Proof.
  unfold same_but_flags, final.
  intros (?&Hd&?&?&?&?&Ha&?&?&?&?&?&Hv&?&?). by rewrite Hd, Ha, Hv.
Qed.

Lemma final_alike a b : alike a b → final a → final b.
Proof.
  unfold alike, final. intros (?&Hd&Ha&?&Hv) [? ?]. rewrite <- Hd, <- Ha, <- Hv. done.
Qed.

Lemma item_eq_alike rs a b : item_eq rs a b = Some true → alike a b.
Proof.
  unfold item_eq.
  destruct (String.eqb (symbol a) (symbol b)) eqn:Hs; simpl; [|done].
  apply String.eqb_eq in Hs.
  repeat (case_bool_decide; simpl; [|done]).
  destruct (rule_ref_eq rs (rule a) (rule b)) as [[]|]; simpl; [|done|done].
  repeat (case_bool_decide; simpl; [|done]).
  intros _. by repeat split.
Qed.

(** [item in values] answers [True] only when the values hold the item
    itself or an item equal to it. *)
Lemma item_in_values_true item keys s s' :
  wf s → store s !! item_id item = Some item →
  item_in_values item keys s = Done true s' →
  ∃ z v, z ∈ keys ∧ store s !! z = Some v ∧ alike v item.
Proof.
  intros [_ Hids] Hitem. induction keys as [|k keys IH]; simpl; [done|].
  intros (? & ? & [= <- <-] & (v & ? & [Hv ->]%deref_Done & H)%bind_Done)%bind_Done.
  case_bool_decide as Hid.
  - exists k, v. split; [left|]. split; [done|].
    rewrite (Hids _ _ Hv) in Hid. subst k. rewrite Hitem in Hv.
    injection Hv as <-. apply alike_refl.
  - apply bind_Done in H as (same & ? & [Hsame ->]%lift_Done & H).
    destruct same.
    + exists k, v. split; [left|]. split; [done|]. by eapply item_eq_alike.
    + destruct (IH H) as (z & w & Hz & Hw & Ha). exists z, w.
      split; [by right | done].
Qed.

(** The active-items role after [pop]. *)
Definition popped (pop : bool) (r : nat) (s : PState) : PState :=
  if pop && bool_decide (r ∈ role (chart s) active_items)
  then with_chart s (set_role (chart s) active_items
                       (key_pop r (role (chart s) active_items)))
  else s.

(** One turn of a loop that adds the objects that pass the test [g] to
    the role [n], and with [pop] takes them out of the active items. *)
Definition add_step (n : chart_name) (g : ActiveItem → bool) (pop : bool)
    (r : nat) (s s' : PState) : Prop :=
  ∃ it, store s !! r = Some it
        ∧ if g it
          then ∃ dup,
                 (dup = true →
                  ∃ z itz, z ∈ role (chart s) n ∧ store s !! z = Some itz
                           ∧ alike itz it)
                 ∧ s' = popped pop r (after_add_item s n it r dup)
          else s' = s.

Lemma add_item_to_chart_step n r s a s' :
  wf s → add_item_to_chart n r s = Done a s' →
  add_step n (λ _, true) false r s s'.
Proof.
  intros Hw (item & dup & Hitem & Hdup & ->)%add_item_to_chart_Done.
  exists item. split; [done|]. exists dup. split; [|done].
  intros ->.
  apply item_in_values_true in Hdup as (z & v & Hz & Hv & Ha).
  - by exists z, v.
  - by apply (wf_same_store s).
  - simpl. destruct Hw as [_ Hids]. by rewrite (Hids _ _ Hitem).
Qed.

Lemma role_set_role c n l m :
  role (set_role c n l) m = if decide (m = n) then l else role c m.
Proof. by destruct n, m. Qed.

Lemma elem_of_key_add x k keys : x ∈ key_add k keys ↔ x ∈ keys ∨ x = k.
Proof.
  unfold key_add. case_bool_decide as Hk.
  - split; [by left | by intros [?| ->]].
  - rewrite elem_of_app, list_elem_of_singleton. done.
Qed.

Lemma elem_of_key_pop x k keys : x ∈ key_pop k keys ↔ x ∈ keys ∧ x ≠ k.
Proof. unfold key_pop. rewrite list_elem_of_filter. tauto. Qed.

Lemma role_after_add_item s n it r dup m :
  role (chart (after_add_item s n it r dup)) m
  = if decide (m = n) then key_add (item_id it) (role (chart s) n)
    else role (chart s) m.
Proof.
  unfold after_add_item. simpl. rewrite role_set_role.
  case_decide; [done|]. apply role_set_all_items.
Qed.

Lemma wf_after_add_item s n it r dup : wf s → wf (after_add_item s n it r dup).
Proof.
  intros Hw. destruct dup; [|by apply (wf_same_store s)].
  assert (frame s (with_store s (alter mark_ignored r (store s)))) as Hf
    by (by eapply frame_mark_ignored).
  destruct (Hf Hw) as (Hw' & _). revert Hw'. by apply wf_same_store.
Qed.

Lemma popped_store pop r s : store (popped pop r s) = store s.
Proof. unfold popped. by destruct (_ && _). Qed.

Lemma popped_counter pop r s : items_counter (popped pop r s) = items_counter s.
Proof. unfold popped. by destruct (_ && _). Qed.

Lemma popped_tokens pop r s :
  tokens (chart (popped pop r s)) = tokens (chart s)
  ∧ chart_terminals (chart (popped pop r s)) = chart_terminals (chart s).
Proof. unfold popped. by destruct (_ && _). Qed.

Lemma popped_role pop r s m x :
  x ∈ role (chart (popped pop r s)) m ↔
  x ∈ role (chart s) m ∧ ¬ (pop = true ∧ m = active_items ∧ x = r).
Proof.
  unfold popped. destruct pop; simpl.
  - case_bool_decide as Hr; simpl.
    + rewrite role_set_role. case_decide as Hm.
      * subst m. rewrite elem_of_key_pop. split.
        -- intros [? ?]. split; [done|]. by intros (_ & _ & ?).
        -- intros [? Hn]. split; [done|]. intros ->. by apply Hn.
      * split; [intros ?; split; [done|]; by intros (_ & ? & _) | by intros [? _]].
    + split; [|by intros [? _]]. intros Hx. split; [done|].
      intros (_ & -> & ->). done.
  - split; [|by intros [? _]]. intros Hx. split; [done|]. by intros ([=] & _).
Qed.

Lemma add_step_facts n g pop r s s' :
  wf s → (pop = true → n ≠ active_items) → add_step n g pop r s s' →
  ∃ it it',
    store s !! r = Some it ∧ store s' !! r = Some it' ∧ same_but_flags it it'
    ∧ (ignored it' = true →
       ignored it = true
       ∨ ∃ z itz, z ∈ role (chart s) n ∧ store s !! z = Some itz ∧ alike itz it)
    ∧ wf s' ∧ items_counter s' = items_counter s
    ∧ tokens (chart s') = tokens (chart s)
    ∧ chart_terminals (chart s') = chart_terminals (chart s)
    ∧ (∀ x, x ≠ r → store s' !! x = store s !! x)
    ∧ (∀ x, x ∈ role (chart s') n ↔ x ∈ role (chart s) n ∨ (x = r ∧ g it = true))
    ∧ (∀ m x, m ≠ n → (pop = false ∨ m ≠ active_items) →
         x ∈ role (chart s') m ↔ x ∈ role (chart s) m)
    ∧ (pop = true →
       ∀ x, x ∈ role (chart s') active_items ↔
            x ∈ role (chart s) active_items ∧ ¬ (x = r ∧ g it = true)).
Proof.
  intros Hw Hpop (it & Hit & H). exists it.
  destruct (g it) eqn:Hg.
  - destruct H as (dup & Hdup & ->).
    assert (item_id it = r) as Hid by (destruct Hw as [_ Hids]; by apply Hids).
    exists (if dup then mark_ignored it else it).
    split; [done|]. split.
    { rewrite popped_store. unfold after_add_item. simpl. destruct dup; [|done].
      by rewrite lookup_alter_eq, Hit. }
    split. { destruct dup; [by repeat split | apply same_but_flags_refl]. }
    split. { destruct dup; [intros _; right; by apply Hdup | by left]. }
    split.
    { apply (wf_same_store (after_add_item s n it r dup));
        [apply popped_store | apply popped_counter | by apply wf_after_add_item]. }
    split; [by rewrite popped_counter|].
    split; [rewrite (proj1 (popped_tokens _ _ _)); by destruct n|].
    split; [rewrite (proj2 (popped_tokens _ _ _)); by destruct n|].
    split.
    { intros x Hx. rewrite popped_store. unfold after_add_item. simpl.
      destruct dup; [|done]. by rewrite lookup_alter_ne. }
    split.
    { intros x. rewrite popped_role, role_after_add_item, decide_True by done.
      rewrite elem_of_key_add, Hid. split.
      - intros [[?| ->] _]; [by left | by right].
      - intros H. split; [destruct H as [?|[-> _]]; [by left | by right]|].
        intros (Hp & -> & _). by apply Hpop. }
    split.
    { intros m x Hm Hor. rewrite popped_role, role_after_add_item, decide_False by done.
      split; [by intros [? _]|]. intros Hx. split; [done|].
      intros (-> & -> & _). by destruct Hor. }
    intros -> x. rewrite popped_role, role_after_add_item.
    rewrite decide_False by (intros <-; by apply Hpop). split.
    + intros [Hx Hn]. split; [done|]. intros [-> _]. by apply Hn.
    + intros [Hx Hn]. split; [done|]. intros (_ & _ & ->). by apply Hn.
  - subst s'. exists it. split; [done|]. split; [done|].
    split; [apply same_but_flags_refl|]. split; [by left|].
    do 4 (split; [done|]). split; [done|].
    split; [intros x; split; [by left | by intros [?|[_ [=]]]]|].
    split; [done|]. intros _ x. split; [|by intros [? _]].
    intros Hx. split; [done|]. by intros [_ [=]].
Qed.

(** The object [x] passes the test [g]. *)
Definition passes (g : ActiveItem → bool) (s : PState) (x : nat) : Prop :=
  ∃ it, store s !! x = Some it ∧ g it = true.

(** What a loop of such turns over distinct objects does to the chart
    and to the flags: an object of the list that ends up ignored was
    ignored before, or is like an object that was in the role before
    or stands earlier in the list. *)
Definition add_loop_facts (n : chart_name) (g : ActiveItem → bool) (pop : bool)
    (l : list nat) (s s' : PState) : Prop :=
  wf s' ∧ items_counter s' = items_counter s
  ∧ tokens (chart s') = tokens (chart s)
  ∧ chart_terminals (chart s') = chart_terminals (chart s)
  ∧ (∀ x, x ∉ l → store s' !! x = store s !! x)
  ∧ (∀ x it, store s !! x = Some it →
       ∃ it', store s' !! x = Some it' ∧ same_but_flags it it')
  ∧ (∀ x, x ∈ l → is_Some (store s !! x))
  ∧ (∀ x, x ∈ role (chart s') n ↔ x ∈ role (chart s) n ∨ (x ∈ l ∧ passes g s x))
  ∧ (∀ m x, m ≠ n → (pop = false ∨ m ≠ active_items) →
       x ∈ role (chart s') m ↔ x ∈ role (chart s) m)
  ∧ (pop = true →
     ∀ x, x ∈ role (chart s') active_items ↔
          x ∈ role (chart s) active_items ∧ ¬ (x ∈ l ∧ passes g s x))
  ∧ (∀ l1 y l2 it', l = l1 ++ y :: l2 → store s' !! y = Some it' →
       ignored it' = true →
       (∃ it, store s !! y = Some it ∧ ignored it = true)
       ∨ ∃ z itz, (z ∈ role (chart s) n ∨ z ∈ l1) ∧ store s' !! z = Some itz
                  ∧ alike itz it').

Lemma add_loop n g pop l (body : nat → M unit) s s' :
  (∀ a b, same_but_flags a b → g a = g b) →
  (pop = true → n ≠ active_items) →
  (∀ r s0 s1, wf s0 → body r s0 = Done tt s1 → add_step n g pop r s0 s1) →
  NoDup l → wf s → for_each l body s = Done tt s' →
  add_loop_facts n g pop l s s'.
Proof.
  intros Hg Hpop Hbody. revert s.
  induction l as [|r l IH]; intros s Hnd Hw; simpl.
  - intros [= <-]. unfold add_loop_facts. do 4 (split; [done|]).
    split; [done|]. split; [by eauto using same_but_flags_refl|].
    split; [by intros x Hx%elem_of_nil|].
    split; [intros x; split; [by left | by intros [?|[?%elem_of_nil _]]]|].
    split; [done|].
    split; [intros _ x; split; [intros ?; split; [done|]; by intros [?%elem_of_nil _]
                               | by intros [? _]]|].
    intros l1 y l2 it' Hl. by destruct l1.
  - intros ([] & s1 & H1 & H2)%bind_Done.
    apply NoDup_cons in Hnd as [Hr Hnd].
    destruct (add_step_facts _ _ _ _ _ _ Hw Hpop (Hbody _ _ _ Hw H1))
      as (it & it1 & Hit & Hit1 & Hsame & Hcause & Hw1 & Hc1 & Ht1 & Hm1
          & Hout1 & Hrole1 & Hother1 & Hact1).
    destruct (IH s1 Hnd Hw1 H2)
      as (Hw' & Hc' & Ht' & Hm' & Hout' & Hfr' & Hdom' & Hrole' & Hother'
          & Hact' & Hcause').
    assert (∀ x, x ∈ l → store s1 !! x = store s !! x) as Hkeep.
    { intros x Hx. apply Hout1. intros ->. done. }
    assert (∀ x, x ∈ l → passes g s1 x ↔ passes g s x) as Hpass.
    { intros x Hx. unfold passes. by rewrite Hkeep. }
    assert (∀ x it0, store s !! x = Some it0 →
              ∃ it1, store s1 !! x = Some it1 ∧ same_but_flags it0 it1) as Hfr1.
    { intros x it0 Hx. destruct (decide (x = r)) as [->|Hne].
      - rewrite Hit in Hx. injection Hx as <-. by exists it1.
      - exists it0. rewrite Hout1 by done. split; [done | apply same_but_flags_refl]. }
    assert (∀ x it0, store s !! x = Some it0 →
              ∃ it', store s' !! x = Some it' ∧ same_but_flags it0 it') as Hfr.
    { intros x it0 Hx. destruct (Hfr1 _ _ Hx) as (i1 & Hi1 & Hs1).
      destruct (Hfr' _ _ Hi1) as (i2 & Hi2 & Hs2). exists i2.
      split; [done | by eapply same_but_flags_trans]. }
    assert (passes g s r ↔ g it = true) as Hpr.
    { unfold passes. rewrite Hit. split; [by intros (? & [= <-] & ?) | by eauto]. }
    unfold add_loop_facts. split; [done|]. split; [congruence|].
    split; [congruence|]. split; [congruence|].
    split.
    { intros x Hx. rewrite not_elem_of_cons in Hx. destruct Hx as [Hx1 Hx2].
      rewrite Hout' by done. by apply Hout1. }
    split; [done|].
    split.
    { intros x [->|Hx]%elem_of_cons; [by eauto|].
      rewrite <- Hkeep by done. by apply Hdom'. }
    split.
    { intros x. rewrite Hrole', Hrole1, elem_of_cons. split.
      - intros [[?|[-> ?]]|[Hx Hp]]; [by left | right | right].
        + split; [by left | by apply Hpr].
        + split; [by right | by apply Hpass].
      - intros [?|[[->|Hx] Hp]]; [by left; left | left; right | right].
        + split; [done | by apply Hpr].
        + split; [done | by apply Hpass]. }
    split.
    { intros m x Hm Hor. by rewrite Hother', Hother1. }
    split.
    { intros Hp x. rewrite (Hact' Hp), (Hact1 Hp), elem_of_cons. split.
      - intros [[Hx Hn1] Hn2]. split; [done|].
        intros [[->|Hx'] Hps]; [apply Hn1 | apply Hn2].
        + split; [done | by apply Hpr].
        + split; [done | by apply Hpass].
      - intros [Hx Hn]. split; [split; [done|]|].
        + intros [-> Hgi]. apply Hn. split; [by left | by apply Hpr].
        + intros [Hx' Hps]. apply Hn. split; [by right | by apply Hpass]. }
    intros l1 y l2 it' Hl Hy Hign.
    destruct l1 as [|r' l1]; simpl in Hl; injection Hl as -> ->.
    + rewrite Hout' in Hy by done. rewrite Hit1 in Hy. injection Hy as <-.
      destruct (Hcause Hign) as [?|(z & itz & Hz & Hitz & Ha)]; [left; by eauto|].
      right. destruct (Hfr _ _ Hitz) as (itz' & Hitz' & Hsz).
      exists z, itz'. split; [by left|]. split; [done|].
      by eapply alike_flags.
    + assert (y ∈ l1 ++ y :: l2) as Hyl by (rewrite elem_of_app; right; left).
      destruct (Hcause' l1 y l2 it' eq_refl Hy Hign)
        as [(it0 & Hit0 & Hi0)|(z & itz & Hz & Hitz & Ha)].
      * left. exists it0. by rewrite <- Hkeep.
      * right. exists z, itz. split; [|done].
        destruct Hz as [Hz|Hz]; [|right; by right].
        apply Hrole1 in Hz as [?|[-> _]]; [by left | right; by left].
Qed.

Lemma filter_ext_in {A} (P Q : A → Prop) `{!∀ x, Decision (P x)}
    `{!∀ x, Decision (Q x)} (l : list A) :
  (∀ x, x ∈ l → P x ↔ Q x) → filter P l = filter Q l.
Proof.
  induction l as [|x l IH]; intros Hl; [done|].
  rewrite !filter_cons.
  assert (P x ↔ Q x) as Hx by (apply Hl; left).
  rewrite IH by (intros y Hy; apply Hl; by right).
  destruct (decide (P x)), (decide (Q x)); tauto.
Qed.

(** The completed-items role of [s] lists an item with the symbol and
    the found sequence of [it]. *)
Definition winner (s : PState) (it : ActiveItem) : Prop :=
  ∃ r' it', r' ∈ role (chart s) completed_items ∧ store s !! r' = Some it'
            ∧ ignored it' = false ∧ symbol it' = symbol it
            ∧ found_sequence it' = found_sequence it.

(** What holds of the chart between two actions of the engine: the
    roles hold stored objects; no finished copy is among the active
    items; the finished copies among the items with completed components
    are in the completed-items role; and for every item of the
    completed-items role the role lists an item with its symbol and
    found sequence. *)
Definition chart_inv (s : PState) : Prop :=
  wf s
  ∧ (∀ n r, r ∈ role (chart s) n → is_Some (store s !! r))
  ∧ (∀ r it, r ∈ role (chart s) active_items → store s !! r = Some it → ¬ final it)
  ∧ (∀ r it, r ∈ role (chart s) active_items_with_completed_components →
       store s !! r = Some it → final it → r ∈ role (chart s) completed_items)
  ∧ (∀ r it, r ∈ role (chart s) completed_items → store s !! r = Some it →
       winner s it).

Lemma winner_alike s a b :
  symbol a = symbol b → found_sequence a = found_sequence b →
  winner s a → winner s b.
Proof.
  intros Hs Hf (r' & it' & ? & ? & ? & ? & ?). exists r', it'.
  repeat split; try done; congruence.
Qed.

Definition dot_behind_last (item : ActiveItem) : bool :=
  bool_decide ((dot_position item).1 = List.length (vector_binding item)).

Lemma dot_behind_last_flags a b :
  same_but_flags a b → dot_behind_last a = dot_behind_last b.
Proof.
  unfold same_but_flags, dot_behind_last.
  intros (?&Hd&?&?&?&?&?&?&?&?&?&?&Hv&?&?). by rewrite Hd, Hv.
Qed.

(** One turn of the first loop of [add_completed_items_to_chart]. *)
Lemma completed_loop_step r s s' :
  wf s →
  (item <~ deref r ;;
   if bool_decide ((dot_position item).1 = List.length (vector_binding item))
   then
     add_items_to_chart [r] completed_items ;;;
     let item_id := get_item_id item in
     modify (λ s,
       if bool_decide (item_id ∈ role (chart s) active_items)
       then with_chart s
              (set_role (chart s) active_items
                 (key_pop item_id (role (chart s) active_items)))
       else s)
   else ret tt) s = Done tt s' →
  add_step completed_items dot_behind_last true r s s'.
Proof.
  intros Hw (item & ? & [Hitem ->]%deref_Done & H)%bind_Done.
  exists item. split; [done|]. unfold dot_behind_last.
  destruct (bool_decide _).
  - apply bind_Done in H as ([] & s3 & H3 & [= <-]).
    simpl in H3. apply bind_Done in H3 as ([] & s4 & H4 & [= <-]).
    destruct (add_item_to_chart_step _ _ _ _ _ Hw H4) as (it & Hit & dup & Hdup & ->).
    rewrite Hitem in Hit. injection Hit as <-.
    exists dup. split; [done|]. unfold popped at 2. simpl.
    unfold popped, get_item_id. simpl.
    destruct Hw as [_ Hids]. by rewrite (Hids _ _ Hitem).
  - by injection H as <-.
Qed.

(** Adding new items that are not finished copies to the active items. *)
Lemma inv_add_active A s b s' :
  chart_inv s → NoDup A →
  (∀ a, a ∈ A → (∀ n, a ∉ role (chart s) n)
                ∧ ∃ it, store s !! a = Some it ∧ action_type it ≠ complete) →
  add_active_items_to_chart A s = Done b s' →
  chart_inv s'
  ∧ items_counter s' = items_counter s
  ∧ (∀ x, x ∉ A → store s' !! x = store s !! x)
  ∧ (∀ x it, store s !! x = Some it →
       ∃ it', store s' !! x = Some it' ∧ same_but_flags it it')
  ∧ (∀ n x, x ∈ role (chart s') n → x ∈ role (chart s) n ∨ x ∈ A).
Proof.
  intros (Hw & Hdom & Hact & Hawcc & Hwin) Hnd HA.
  unfold add_active_items_to_chart.
  intros (l' & ? & [-> ->]%filter_out_Done & ([] & s1 & H & [= _ <-])%bind_Done)%bind_Done.
  assert (NoDup (filter (λ r, keeps s r = true) A)) as Hnd' by (by apply NoDup_filter).
  destruct (add_loop active_items (λ _, true) false _ _ s s1
              (λ _ _ _, eq_refl) (λ H, ltac:(done))
              (λ r s0 s1 Hw0 H0, add_item_to_chart_step _ _ _ _ _ Hw0 H0)
              Hnd' Hw H)
    as (Hw' & Hc' & _ & _ & Hout & Hfr & _ & Hrole & Hother & _ & _).
  assert (∀ x, x ∉ A → store s1 !! x = store s !! x) as HoutA.
  { intros x Hx. apply Hout. by intros [_ ?]%list_elem_of_filter. }
  assert (∀ n x, x ∈ role (chart s) n → store s1 !! x = store s !! x) as Hold.
  { intros n x Hx. apply HoutA. intros Hin. by apply (proj1 (HA _ Hin) n). }
  assert (∀ n x, n ≠ active_items → x ∈ role (chart s1) n ↔ x ∈ role (chart s) n)
    as Hsame.
  { intros n x Hn. apply Hother; [done | by left]. }
  split; [|split; [done|]; split; [done|]; split; [done|]].
  - split; [done|]. split.
    { intros n r Hr. destruct (decide (n = active_items)) as [->|Hn].
      - apply Hrole in Hr as [Hr|[Hr _]].
        + rewrite (Hold _ _ Hr). by eapply Hdom.
        + apply list_elem_of_filter in Hr as [_ Hr].
          destruct (HA _ Hr) as (_ & it & Hit & _).
          destruct (Hfr _ _ Hit) as (it' & -> & _). by eauto.
      - apply Hsame in Hr; [|done]. rewrite (Hold _ _ Hr). by eapply Hdom. }
    split.
    { intros r it Hr Hit. apply Hrole in Hr as [Hr|[Hr _]].
      - rewrite (Hold _ _ Hr) in Hit. by eapply Hact.
      - apply list_elem_of_filter in Hr as [_ Hr].
        destruct (HA _ Hr) as (_ & it0 & Hit0 & Hne).
        destruct (Hfr _ _ Hit0) as (it' & Hit' & Hs). rewrite Hit in Hit'.
        injection Hit' as <-. intros [Hc _]. apply Hne.
        destruct Hs as (?&?&?&?&?&?&Ha&_). congruence. }
    split.
    { intros r it Hr Hit Hfin. apply Hsame in Hr; [|done].
      apply Hsame; [done|]. rewrite (Hold _ _ Hr) in Hit. by eapply Hawcc. }
    intros r it Hr Hit. apply Hsame in Hr; [|done].
    rewrite (Hold _ _ Hr) in Hit.
    destruct (Hwin _ _ Hr Hit) as (r' & it' & Hr' & Hit' & ? & ? & ?).
    exists r', it'. split; [by apply Hsame|]. by rewrite (Hold _ _ Hr').
  - intros n x Hx. destruct (decide (n = active_items)) as [->|Hn].
    + apply Hrole in Hx as [?|[Hx _]]; [by left|].
      right. by apply list_elem_of_filter in Hx as [_ ?].
    + left. by apply Hsame.
Qed.

Lemma list_prefix_ind {A} (P : A → Prop) (l : list A) :
  (∀ l1 y l2, l = l1 ++ y :: l2 → (∀ z, z ∈ l1 → P z) → P y) →
  ∀ y, y ∈ l → P y.
Proof.
  intros Hstep.
  enough (∀ l1 l2, l = l1 ++ l2 → ∀ z, z ∈ l1 → P z) as Hall
    by (apply (Hall l []); by rewrite app_nil_r).
  induction l1 as [|y l1 IH] using rev_ind; intros l2 Hl z Hz.
  - by apply elem_of_nil in Hz.
  - rewrite <- app_assoc in Hl. simpl in Hl.
    apply elem_of_app in Hz as [Hz|Hz%list_elem_of_singleton].
    + by eapply IH.
    + subst z. eapply Hstep; [exact Hl|]. intros z Hz. by eapply IH.
Qed.

Lemma alike_sym a b : alike a b → alike b a.
Proof. unfold alike. intros (?&?&?&?&?). by repeat split. Qed.

Lemma alike_dot_behind_last a b :
  alike a b → dot_behind_last a = dot_behind_last b.
Proof. unfold alike, dot_behind_last. intros (?&Hd&?&?&Hv). by rewrite Hd, Hv. Qed.

(** Adding new finished or unfinished copies to the chart: what
    [run_action_and_add_items_to_chart] does with the completed items
    of a scan or of a combination. *)
Lemma inv_add_completed L s b1 s1 b2 s2 :
  chart_inv s → NoDup L →
  (∀ y, y ∈ L → (∀ n, y ∉ role (chart s) n)
                ∧ ∃ it, store s !! y = Some it ∧ action_type it = complete
                        ∧ ignored it = false) →
  add_active_items_to_chart L s = Done b1 s1 →
  add_completed_items_to_chart L s1 = Done b2 s2 →
  chart_inv s2.
Proof.
  intros (Hw & Hdom & Hact & Hawcc & Hwin) Hnd HL.
  unfold add_active_items_to_chart.
  intros (l' & ? & [-> ->]%filter_out_Done & ([] & s1' & HA & [= _ <-])%bind_Done)%bind_Done.
  assert (NoDup (filter (λ r, keeps s r = true) L)) as Hnd' by (by apply NoDup_filter).
  destruct (add_loop active_items (λ _, true) false _ _ s s1'
              (λ _ _ _, eq_refl) (λ H, ltac:(done))
              (λ r s0 s1 Hw0 H0, add_item_to_chart_step _ _ _ _ _ Hw0 H0)
              Hnd' Hw HA)
    as (Hw1 & Hc1 & Ht1 & Hm1 & HoutA & HfrA & HdomA & HroleA & HotherA & _ & HcauseA).
  unfold add_completed_items_to_chart.
  intros (l'' & ? & [-> ->]%filter_out_Done & H)%bind_Done.
  assert (filter (λ r, keeps s1' r = true) L = filter (λ r, keeps s r = true) L)
    as Hsame_filter.
  { apply filter_ext_in. intros y Hy.
    destruct (HL _ Hy) as (_ & it & Hit & _).
    destruct (HfrA _ _ Hit) as (it' & Hit' & Hs).
    unfold keeps. rewrite Hit, Hit'.
    erewrite compatible_ext; [done | done | done |].
    destruct Hs as (?&?&?&?&?&?&?&?&Hf&_). by rewrite Hf. }
  rewrite Hsame_filter in H. set (l' := filter (λ r, keeps s r = true) L) in *.
  apply bind_Done in H as ([] & sB & HB & ([] & s2' & HC & [= _ <-])%bind_Done).
  destruct (add_loop completed_items dot_behind_last true _ _ s1' sB
              dot_behind_last_flags (λ H, ltac:(done))
              (λ r s0 s1 Hw0 H0, completed_loop_step r s0 s1 Hw0 H0)
              Hnd' Hw1 HB)
    as (HwB & HcB & HtB & HmB & HoutB & HfrB & HdomB & HroleB & HotherB & HactB & HcauseB).
  destruct (add_loop active_items_with_completed_components (λ _, true) false _ _ sB s2'
              (λ _ _ _, eq_refl) (λ H, ltac:(done))
              (λ r s0 s1 Hw0 H0, add_item_to_chart_step _ _ _ _ _ Hw0 H0)
              Hnd' HwB HC)
    as (Hw2 & Hc2 & Ht2 & Hm2 & HoutC & HfrC & HdomC & HroleC & HotherC & _ & HcauseC).
  specialize (HactB eq_refl).
  assert (∀ y, y ∈ l' → y ∈ L) as Hsub
    by (by intros y [_ ?]%list_elem_of_filter).
  assert (∀ n x, x ∈ role (chart s) n → x ∉ l') as Hold.
  { intros n x Hx Hin. by apply (proj1 (HL _ (Hsub _ Hin)) n). }
  assert (∀ x, x ∉ l' → store s2' !! x = store s !! x) as Hout.
  { intros x Hx. by rewrite HoutC, HoutB, HoutA. }
  assert (∀ x it1, store s1' !! x = Some it1 →
            ∃ it2, store s2' !! x = Some it2 ∧ same_but_flags it1 it2) as Hfr12.
  { intros x it1 Hx. destruct (HfrB _ _ Hx) as (i1 & Hi1 & Hs1).
    destruct (HfrC _ _ Hi1) as (i2 & Hi2 & Hs2). exists i2.
    split; [done | by eapply same_but_flags_trans]. }
  assert (∀ x it0, store s !! x = Some it0 →
            ∃ it2, store s2' !! x = Some it2 ∧ same_but_flags it0 it2) as Hfr02.
  { intros x it0 Hx. destruct (HfrA _ _ Hx) as (i1 & Hi1 & Hs1).
    destruct (Hfr12 _ _ Hi1) as (i2 & Hi2 & Hs2). exists i2.
    split; [done | by eapply same_but_flags_trans]. }
  assert (∀ x, x ∈ role (chart s2') active_items ↔
               (x ∈ role (chart s) active_items ∨ x ∈ l')
               ∧ ¬ (x ∈ l' ∧ passes dot_behind_last s1' x)) as Hrole_act.
  { intros x. rewrite (HotherC active_items x) by (done || by left).
    rewrite HactB, HroleA. split.
    - intros [[?|[? _]] ?]; (split; [by auto | done]).
    - intros [[?|Hx] ?]; (split; [|done]); [by left|]. right. split; [done|].
      destruct (HL _ (Hsub _ Hx)) as (_ & it & Hit & _). by exists it. }
  assert (∀ x, x ∈ role (chart s2') completed_items ↔
               x ∈ role (chart s) completed_items
               ∨ (x ∈ l' ∧ passes dot_behind_last s1' x)) as Hrole_comp.
  { intros x. rewrite (HotherC completed_items x) by (done || by left).
    rewrite HroleB. by rewrite (HotherA completed_items x) by (done || by left). }
  assert (∀ x, x ∈ role (chart s2') active_items_with_completed_components ↔
               x ∈ role (chart s) active_items_with_completed_components
               ∨ x ∈ l') as Hrole_awcc.
  { intros x. rewrite HroleC.
    rewrite (HotherB active_items_with_completed_components x) by (done || by right).
    rewrite (HotherA active_items_with_completed_components x) by (done || by left).
    split; [intros [?|[? _]]; by auto|]. intros [?|Hx]; [by left|]. right.
    split; [done|]. destruct (HdomC _ Hx) as [it Hit]. by exists it. }
  assert (∀ y it2, y ∈ l' → store s2' !! y = Some it2 →
            action_type it2 = complete ∧
            (dot_behind_last it2 = true → passes dot_behind_last s1' y)) as Hnew.
  { intros y it2 Hy Hit2. destruct (HL _ (Hsub _ Hy)) as (_ & it0 & Hit0 & Hc0 & _).
    destruct (HfrA _ _ Hit0) as (it1 & Hit1 & Hs01).
    destruct (Hfr12 _ _ Hit1) as (it2' & Hit2' & Hs12).
    rewrite Hit2 in Hit2'. injection Hit2' as <-. split.
    - destruct Hs01 as (?&?&?&?&?&?&Ha1&_). destruct Hs12 as (?&?&?&?&?&?&Ha2&_).
      congruence.
    - intros Hd. exists it1. split; [done|].
      by rewrite (dot_behind_last_flags _ _ Hs12). }
  assert (∀ z itz, z ∈ role (chart s) completed_items → store s !! z = Some itz →
            winner s2' itz) as Hold_win.
  { intros z itz Hz Hitz.
    destruct (Hwin _ _ Hz Hitz) as (r' & it' & Hr' & Hit' & ? & ? & ?).
    exists r', it'. split; [apply Hrole_comp; by left|].
    split; [|done]. rewrite Hout; [done | by eapply Hold]. }
  split; [done|]. split.
  { assert (∀ x, x ∈ l' → is_Some (store s2' !! x)) as Hsome.
    { intros x Hx. destruct (HL _ (Hsub _ Hx)) as (_ & it & Hit & _).
      destruct (Hfr02 _ _ Hit) as (it2 & -> & _). by eauto. }
    assert (∀ n x, x ∈ role (chart s) n → is_Some (store s2' !! x)) as Hsome_old.
    { intros n x Hx. destruct (Hdom _ _ Hx) as [it Hit].
      destruct (Hfr02 _ _ Hit) as (it2 & -> & _). by eauto. }
    intros n r Hr. destruct n.
    - apply Hrole_act in Hr as [[Hr|Hr] _]; [by eapply Hsome_old | by apply Hsome].
    - apply Hrole_awcc in Hr as [Hr|Hr]; [by eapply Hsome_old | by apply Hsome].
    - apply Hrole_comp in Hr as [Hr|[Hr _]]; [by eapply Hsome_old | by apply Hsome]. }
  split.
  { intros r it Hr Hit Hfin. apply Hrole_act in Hr as [[Hr|Hr] Hn].
    - rewrite Hout in Hit by (by eapply Hold). by eapply Hact.
    - apply Hn. split; [done|]. apply (Hnew _ _ Hr Hit).
      unfold dot_behind_last. apply bool_decide_eq_true. apply Hfin. }
  split.
  { intros r it Hr Hit Hfin. apply Hrole_comp. apply Hrole_awcc in Hr as [Hr|Hr].
    - left. rewrite Hout in Hit by (by eapply Hold). by eapply Hawcc.
    - right. split; [done|]. apply (Hnew _ _ Hr Hit).
      unfold dot_behind_last. apply bool_decide_eq_true. apply Hfin. }
  intros r it Hr Hit. apply Hrole_comp in Hr as [Hr|[Hr Hp]].
  { apply (Hold_win r); [done|]. rewrite <- Hout; [done | by eapply Hold]. }
  assert (dot_behind_last it = true) as Hd.
  { destruct Hp as (it1 & Hit1 & Hd1). destruct (Hfr12 _ _ Hit1) as (it2 & Hit2 & Hs).
    rewrite Hit in Hit2. injection Hit2 as <-.
    by rewrite <- (dot_behind_last_flags _ _ Hs). }
  clear Hp. revert it Hit Hd. revert r Hr.
  apply (list_prefix_ind
           (λ y, ∀ it, store s2' !! y = Some it → dot_behind_last it = true →
                       winner s2' it)).
  intros l1 y l2 Hl IH it2 Hit2 Hd.
  assert (y ∈ l') as Hy by (rewrite Hl, elem_of_app; right; left).
  destruct (Hnew _ _ Hy Hit2) as [Hc2' Hp]. specialize (Hp Hd).
  assert (final it2) as Hfin.
  { split; [done|]. unfold dot_behind_last in Hd.
    by apply bool_decide_eq_true in Hd. }
  destruct (ignored it2) eqn:Hign.
  2:{ exists y, it2. split; [apply Hrole_comp; by right|]. by repeat split. }
  assert (∀ z itz, z ∈ l1 → store s2' !! z = Some itz → alike itz it2 →
            winner s2' it2) as Hz_prefix.
  { intros z itz Hz Hitz Ha.
    apply (winner_alike _ itz); [apply Ha | apply Ha |].
    apply (IH z Hz _ Hitz). by rewrite (alike_dot_behind_last _ _ Ha). }
  assert (∀ z itz, z ∈ role (chart s) completed_items → store s2' !! z = Some itz →
            alike itz it2 → winner s2' it2) as Hz_completed.
  { intros z itz Hz Hitz Ha.
    apply (winner_alike _ itz); [apply Ha | apply Ha |].
    apply (Hold_win z); [done|]. rewrite <- Hout; [done | by eapply Hold]. }
  assert (∀ z itz, z ∈ role (chart s) active_items_with_completed_components →
            store s2' !! z = Some itz → alike itz it2 → winner s2' it2) as Hz_awcc.
  { intros z itz Hz Hitz Ha. apply (Hz_completed z itz); [|done|done].
    apply (Hawcc z itz); [done| |].
    - rewrite <- Hout; [done | by eapply Hold].
    - apply (final_alike it2); [by apply alike_sym | done]. }
  assert (∀ z itz, z ∈ role (chart s) active_items → store s2' !! z = Some itz →
            alike itz it2 → False) as Hz_active.
  { intros z itz Hz Hitz Ha. apply (Hact z itz); [done| |].
    - rewrite <- Hout; [done | by eapply Hold].
    - apply (final_alike it2); [by apply alike_sym | done]. }
  destruct (HcauseC l1 y l2 it2 Hl Hit2 Hign)
    as [(itB & HitB & HignB)|(z & itz & Hz & Hitz & Ha)].
  2:{ destruct Hz as [Hz|Hz]; [|by eapply Hz_prefix].
      apply (HotherB active_items_with_completed_components z) in Hz;
        [|done | by right].
      apply (HotherA active_items_with_completed_components z) in Hz;
        [|done | by left].
      by eapply Hz_awcc. }
  assert (same_but_flags itB it2) as HsB2.
  { destruct (HfrC _ _ HitB) as (i2 & Hi2 & Hs). rewrite Hit2 in Hi2.
    by injection Hi2 as <-. }
  destruct (HcauseB l1 y l2 itB Hl HitB HignB)
    as [(it1 & Hit1 & Hign1)|(z & itz & Hz & Hitz & Ha)].
  2:{ destruct (HfrC _ _ Hitz) as (itz2 & Hitz2 & Hsz).
      assert (alike itz2 it2) as Ha2 by (by eapply alike_flags).
      destruct Hz as [Hz|Hz]; [|by eapply Hz_prefix].
      apply (HotherA completed_items z) in Hz; [|done | by left].
      by eapply Hz_completed. }
  assert (same_but_flags it1 it2) as Hs12.
  { destruct (Hfr12 _ _ Hit1) as (i2 & Hi2 & Hs). rewrite Hit2 in Hi2.
    by injection Hi2 as <-. }
  destruct (HcauseA l1 y l2 it1 Hl Hit1 Hign1)
    as [(it0 & Hit0 & Hign0)|(z & itz & Hz & Hitz & Ha)].
  { destruct (HL _ (Hsub _ Hy)) as (_ & it0' & Hit0' & _ & Hn).
    rewrite Hit0 in Hit0'. injection Hit0' as <-. congruence. }
  destruct (Hfr12 _ _ Hitz) as (itz2 & Hitz2 & Hsz).
  assert (alike itz2 it2) as Ha2 by (by eapply alike_flags).
  destruct Hz as [Hz|Hz]; [|by eapply Hz_prefix].
  exfalso. by eapply Hz_active.
Qed.

(** The objects that exist in [s] are still there in [s'], with the
    same [ignored] flag, and the roles are the same. *)
Definition old_kept (s s' : PState) : Prop :=
  (∀ n, role (chart s') n = role (chart s) n)
  ∧ items_counter s ≤ items_counter s'
  ∧ ∀ x it, store s !! x = Some it →
      ∃ it', store s' !! x = Some it' ∧ same_but_flags it it'
             ∧ ignored it' = ignored it.

(** From [s] to [s'] the new items [A], none made by
    [create_complete_item], and the new copies [L], made by it and not
    ignored, have been created, all distinct. *)
Definition produced (s s' : PState) (A L : list nat) : Prop :=
  wf s' ∧ old_kept s s'
  ∧ NoDup A ∧ NoDup L
  ∧ (∀ a, a ∈ A → items_counter s < a
                  ∧ ∃ it, store s' !! a = Some it ∧ action_type it ≠ complete)
  ∧ (∀ y, y ∈ L → items_counter s < y
                  ∧ ∃ it, store s' !! y = Some it ∧ action_type it = complete
                          ∧ ignored it = false).

Lemma old_kept_refl s : old_kept s s.
Proof.
  split; [done|]. split; [done|]. intros x it Hx. exists it.
  split; [done|]. split; [apply same_but_flags_refl | done].
Qed.

Lemma old_kept_trans s1 s2 s3 : old_kept s1 s2 → old_kept s2 s3 → old_kept s1 s3.
Proof.
  intros (Hr1 & Hc1 & Hs1) (Hr2 & Hc2 & Hs2).
  split; [intros n; by rewrite Hr2|]. split; [lia|].
  intros x it Hx. destruct (Hs1 _ _ Hx) as (it1 & Hx1 & Hf1 & Hi1).
  destruct (Hs2 _ _ Hx1) as (it2 & Hx2 & Hf2 & Hi2). exists it2.
  split; [done|]. split; [by eapply same_but_flags_trans | congruence].
Qed.

Lemma produced_refl s : wf s → produced s s [] [].
Proof.
  intros Hw. split; [done|]. split; [apply old_kept_refl|].
  split; [constructor|]. split; [constructor|].
  split; intros ? ?%elem_of_nil; done.
Qed.

Lemma wf_le s x it : wf s → store s !! x = Some it → x ≤ items_counter s.
Proof.
  intros [Hf _] Hx. destruct (decide (x ≤ items_counter s)); [done|].
  rewrite Hf in Hx; [done | lia].
Qed.

Lemma produced_new s s1 A L sym fs fe dot act order ti vb rl ants fseq x s2 :
  produced s s1 A L →
  new_ActiveItem sym fs fe dot act order ti vb rl ants fseq s1 = Done x s2 →
  produced s s2 (if decide (act = complete) then A else A ++ [x])
                (if decide (act = complete) then L ++ [x] else L).
Proof.
  intros (Hw1 & (Hr & Hc & Hs) & HndA & HndL & HA & HL) Hnew.
  pose proof (frame_new_item _ _ _ _ _ _ _ _ _ _ _ _ _ _ Hnew Hw1) as (Hw2 & _).
  rewrite new_ActiveItem_Done in Hnew. injection Hnew as <- <-.
  set (x := items_counter s1 + 1) in *.
  assert (∀ z it, store s1 !! z = Some it → z ≠ x) as Hfresh.
  { intros z it Hz. apply (wf_le _ _ _ Hw1) in Hz. unfold x. lia. }
  assert (∀ a, a ∈ A → a ≠ x) as HAx.
  { intros a Ha. destruct (HA _ Ha) as (_ & it & Hit & _). by eapply Hfresh. }
  assert (∀ y, y ∈ L → y ≠ x) as HLx.
  { intros y Hy. destruct (HL _ Hy) as (_ & it & Hit & _). by eapply Hfresh. }
  assert (∀ a, a ∈ A → items_counter s < a
             ∧ ∃ it, <[x := fresh_item s1 sym fs fe dot act order ti vb rl ants fseq]>
                       (store s1) !! a = Some it
                     ∧ action_type it ≠ complete) as HA'.
  { intros a Ha. destruct (HA _ Ha) as (? & it & Hit & ?). split; [done|].
    exists it. rewrite lookup_insert_ne; [done|]. intros Heq. by apply (HAx a). }
  assert (∀ y, y ∈ L → items_counter s < y
             ∧ ∃ it, <[x := fresh_item s1 sym fs fe dot act order ti vb rl ants fseq]>
                       (store s1) !! y = Some it
                     ∧ action_type it = complete ∧ ignored it = false) as HL'.
  { intros y Hy. destruct (HL _ Hy) as (? & it & Hit & ?). split; [done|].
    exists it. rewrite lookup_insert_ne; [done|]. intros Heq. by apply (HLx y). }
  split; [done|]. split.
  { split; [done|]. split; [simpl; lia|]. intros z it Hz.
    destruct (Hs _ _ Hz) as (it1 & Hz1 & Hf1 & Hi1). exists it1. simpl.
    rewrite lookup_insert_ne; [done|]. intros Heq. by apply (Hfresh z it1). }
  simpl. destruct (decide (act = complete)) as [Hact|Hact].
  - split; [done|]. split.
    { apply NoDup_app. split; [done|]. split; [|apply NoDup_singleton].
      intros y Hy ->%list_elem_of_singleton. by apply (HLx x). }
    split; [done|]. intros y [Hy| ->%list_elem_of_singleton]%elem_of_app; [by apply HL'|].
    split; [unfold x; lia|]. eexists. rewrite lookup_insert_eq. done.
  - split.
    { apply NoDup_app. split; [done|]. split; [|apply NoDup_singleton].
      intros y Hy ->%list_elem_of_singleton. by apply (HAx x). }
    split; [done|]. split; [|done].
    intros a [Ha| ->%list_elem_of_singleton]%elem_of_app; [by apply HA'|].
    split; [unfold x; lia|]. eexists. rewrite lookup_insert_eq. done.
Qed.

Lemma produced_scanned s s1 A L r :
  produced s s1 A L →
  produced s (with_store s1 (alter mark_scanned r (store s1))) A L.
Proof.
  intros (Hw1 & (Hr & Hc & Hs) & HndA & HndL & HA & HL).
  assert (∀ z it, store s1 !! z = Some it →
            ∃ it', alter mark_scanned r (store s1) !! z = Some it'
                   ∧ same_but_flags it it' ∧ ignored it' = ignored it
                   ∧ action_type it' = action_type it) as Hlook.
  { intros z it Hz. rewrite lookup_alter. case_decide; [subst z|].
    - rewrite Hz. simpl. eexists. split; [done|]. by repeat split.
    - exists it. split; [done|]. split; [apply same_but_flags_refl | done]. }
  split.
  { pose proof (frame_mark_scanned r s1 tt _ (update_item_Done _ _ _) Hw1) as [? _].
    done. }
  split.
  { split; [done|]. split; [done|]. intros z it Hz.
    destruct (Hs _ _ Hz) as (it1 & Hz1 & Hf1 & Hi1).
    destruct (Hlook _ _ Hz1) as (it2 & Hz2 & Hf2 & Hi2 & _). exists it2.
    split; [done|]. split; [by eapply same_but_flags_trans | congruence]. }
  do 2 (split; [done|]). split.
  - intros a Ha. destruct (HA _ Ha) as (? & it & Hit & ?). split; [done|].
    destruct (Hlook _ _ Hit) as (it' & Hit' & _ & _ & Hact). exists it'.
    split; [done | congruence].
  - intros y Hy. destruct (HL _ Hy) as (? & it & Hit & ? & ?). split; [done|].
    destruct (Hlook _ _ Hit) as (it' & Hit' & _ & Hi & Hact). exists it'.
    split; [done|]. split; congruence.
Qed.

Lemma produced_ignored s s1 A L a :
  wf s → produced s s1 A L → a ∈ A →
  produced s (with_store s1 (alter mark_ignored a (store s1))) A L.
Proof.
  intros Hw (Hw1 & (Hr & Hc & Hs) & HndA & HndL & HA & HL) Ha.
  destruct (HA _ Ha) as (Hlt & ita & Hita & Hacta).
  split.
  { pose proof (frame_mark_ignored a s1 tt _ (update_item_Done _ _ _) Hw1) as [? _].
    done. }
  split.
  { split; [done|]. split; [done|]. intros z it Hz.
    destruct (Hs _ _ Hz) as (it1 & Hz1 & Hf1 & Hi1). exists it1. simpl.
    rewrite lookup_alter_ne; [done|]. intros <-.
    apply (wf_le _ _ _ Hw) in Hz. lia. }
  do 2 (split; [done|]). split.
  - intros b Hb. destruct (HA _ Hb) as (? & it & Hit & ?). split; [done|].
    simpl. rewrite lookup_alter. case_decide; [subst b|by eauto].
    rewrite Hit. simpl. eexists. split; [done|]. done.
  - intros y Hy. destruct (HL _ Hy) as (? & it & Hit & Hc' & ?). split; [done|].
    simpl. rewrite lookup_alter_ne; [by eauto|]. intros <-.
    rewrite Hita in Hit. injection Hit as <-. done.
Qed.

Lemma produced_same_store s s1 s2 A L :
  produced s s1 A L →
  store s2 = store s1 → items_counter s2 = items_counter s1 →
  (∀ n, role (chart s2) n = role (chart s1) n) →
  produced s s2 A L.
Proof.
  intros (Hw1 & (Hr & Hc & Hs) & HndA & HndL & HA & HL) Hst Hcn Hrl.
  split; [by apply (wf_same_store s1)|]. split.
  { split; [intros n; by rewrite Hrl|]. split; [lia|]. by rewrite Hst. }
  do 2 (split; [done|]). by rewrite Hst.
Qed.

Lemma produced_app s s1 s2 A1 L1 A2 L2 :
  produced s s1 A1 L1 → produced s1 s2 A2 L2 →
  produced s s2 (A1 ++ A2) (L1 ++ L2).
Proof.
  intros (Hw1 & Hk1 & HndA1 & HndL1 & HA1 & HL1)
         (Hw2 & Hk2 & HndA2 & HndL2 & HA2 & HL2).
  pose proof Hk1 as (_ & Hc1 & _). pose proof Hk2 as (_ & _ & Hs2).
  split; [done|]. split; [by eapply old_kept_trans|].
  split.
  { apply NoDup_app. split; [done|]. split; [|done]. intros a Ha1 Ha2.
    destruct (HA1 _ Ha1) as (_ & it & Hit & _). apply (wf_le _ _ _ Hw1) in Hit.
    destruct (HA2 _ Ha2) as (? & _). lia. }
  split.
  { apply NoDup_app. split; [done|]. split; [|done]. intros a Ha1 Ha2.
    destruct (HL1 _ Ha1) as (_ & it & Hit & _). apply (wf_le _ _ _ Hw1) in Hit.
    destruct (HL2 _ Ha2) as (? & _). lia. }
  split.
  - intros a [Ha|Ha]%elem_of_app.
    + destruct (HA1 _ Ha) as (? & it & Hit & Hact). split; [done|].
      destruct (Hs2 _ _ Hit) as (it' & Hit' & Hf & _). exists it'.
      split; [done|]. destruct Hf as (?&?&?&?&?&?&Hsame&_). congruence.
    + destruct (HA2 _ Ha) as (? & Hex). split; [lia | done].
  - intros a [Ha|Ha]%elem_of_app.
    + destruct (HL1 _ Ha) as (? & it & Hit & Hact & Hign). split; [done|].
      destruct (Hs2 _ _ Hit) as (it' & Hit' & Hf & Hi). exists it'.
      split; [done|]. destruct Hf as (?&?&?&?&?&?&Hsame&_).
      split; congruence.
    + destruct (HL2 _ Ha) as (? & Hex). split; [lia | done].
Qed.

Lemma produced_collect2 {X} (l : list X) (body : X → M (list nat * list nat)) :
  (∀ x s p s', wf s → body x s = Done p s' → produced s s' p.1 p.2) →
  ∀ s p s', wf s → collect2 l body s = Done p s' → produced s s' p.1 p.2.
Proof.
  intros Hbody. induction l as [|x l IH]; intros s p s' Hw; simpl.
  - intros [= <- <-]. by apply produced_refl.
  - intros (p1 & s1 & H1 & (p2 & s2 & H2 & [= <- <-])%bind_Done)%bind_Done.
    pose proof (Hbody _ _ _ _ Hw H1) as P1.
    simpl. eapply produced_app; [exact P1|]. apply IH; [apply P1 | done].
Qed.

Lemma produced_collect {X} (l : list X) (body : X → M (list nat)) :
  (∀ x s ys s', wf s → body x s = Done ys s' → produced s s' ys []) →
  ∀ s ys s', wf s → collect l body s = Done ys s' → produced s s' ys [].
Proof.
  intros Hbody. induction l as [|x l IH]; intros s ys s' Hw; simpl.
  - intros [= <- <-]. by apply produced_refl.
  - intros (y1 & s1 & H1 & (y2 & s2 & H2 & [= <- <-])%bind_Done)%bind_Done.
    pose proof (Hbody _ _ _ _ Hw H1) as P1.
    apply (produced_app s s1 s2 y1 [] y2 []); [done|].
    apply IH; [apply P1 | done].
Qed.

Lemma produced_create_complete_item s s1 A L r y s2 :
  produced s s1 A L → create_complete_item r s1 = Done y s2 →
  produced s s2 A (L ++ [y]).
Proof.
  intros P1. unfold create_complete_item.
  intros (self & ? & [Hself ->]%deref_Done
          & (next & ? & [Hnext ->]%lift_Done & Hnew)%bind_Done)%bind_Done.
  by apply (produced_new _ _ _ _ _ _ _ _ _ _ _ _ _ _ _ _ _ P1) in Hnew.
Qed.

(** The items that [do_scan] returns are new. *)
Lemma do_scan_produced r token ti s p s' :
  wf s → do_scan r token ti s = Done p s' → produced s s' p.1 p.2.
Proof.
  intros Hw. unfold do_scan.
  intros (active_item & ? & [Hitem ->]%deref_Done & H)%bind_Done.
  case_bool_decide; [injection H as <- <-; by apply produced_refl|].
  destruct (is_scanned active_item); [injection H as <- <-; by apply produced_refl|].
  cbv zeta in H.
  case_bool_decide; [|injection H as <- <-; by apply produced_refl].
  apply bind_Done in H as (nc & ? & [Hnc ->]%lift_Done & H).
  apply bind_Done in H as (x & s1 & Hnew & H).
  apply (produced_new _ _ _ _ _ _ _ _ _ _ _ _ _ _ _ _ _ (produced_refl s Hw)) in Hnew.
  simpl in Hnew.
  apply bind_Done in H as ([] & s2 & H2 & H).
  rewrite update_item_Done in H2. injection H2 as <-.
  apply (produced_scanned _ _ _ _ r) in Hnew.
  destruct (nc.2).
  - apply bind_Done in H as ([] & s3 & H3 & H).
    rewrite update_item_Done in H3. injection H3 as <-.
    apply (produced_ignored _ _ _ _ x Hw) in Hnew; [|left].
    apply bind_Done in H as (y & s4 & H4 & [= <- <-]).
    by apply (produced_create_complete_item _ _ _ _ _ _ _ Hnew) in H4.
  - by injection H as <- <-.
Qed.

Lemma for_each_no_effect {X} (l : list X) (b : X → bool) s :
  for_each l (λ c, if b c then ret tt else ret tt) s = Done tt s.
Proof.
  induction l as [|x l IH]; simpl; [done|].
  unfold bind. by destruct (b x).
Qed.

(** The items that one turn of the loop over the candidates returns
    are new. *)
Lemma combine_candidate_produced d ti ccv cc v r s p s' :
  wf s → combine_candidate d ti ccv cc v r s = Done p s' →
  produced s s' p.1 p.2.
Proof.
  intros Hw. unfold combine_candidate.
  intros (active_item & ? & [Hitem ->]%deref_Done & H)%bind_Done.
  apply bind_Done in H as (donor & ? & [Hdonor ->]%deref_Done & H).
  case_bool_decide; [injection H as <- <-; by apply produced_refl|].
  cbv zeta in H.
  apply bind_Done in H as (seen & s0 & Hseen & H).
  pose proof (read_only_check_couple _ _ _ _ Hseen) as <-.
  destruct seen; [injection H as <- <-; by apply produced_refl|].
  apply bind_Done in H as ([] & s1 & [= <-] & H).
  assert (produced s
            (with_chart s
               (set_combined_couples (chart s)
                  (combined_couples (chart s)
                   ++ [(get_item_id active_item, get_item_id donor)]))) [] [])
    as P0.
  { apply (produced_same_store s s); [by apply produced_refl | done | done|].
    intros n. by destruct n. }
  apply bind_Done in H as (icc & ? & [Hicc ->]%lift_Done & H).
  destruct (_ && _).
  - apply bind_Done in H as ([] & s2 & H2 & [= <- <-]).
    rewrite (for_each_no_effect _
               (λ component, bool_decide (dict_get component icc
                                          ≠ dict_get component ccv))) in H2.
    by injection H2 as <-.
  - apply bind_Done in H as (nvb & ? & [Hnvb ->]%lift_Done & H).
    apply bind_Done in H as (nc & ? & [Hnc ->]%lift_Done & H).
    apply bind_Done in H as (x & s2 & Hnew & H).
    apply (produced_new _ _ _ _ _ _ _ _ _ _ _ _ _ _ _ _ _ P0) in Hnew.
    simpl in Hnew.
    destruct (nc.2).
    + apply bind_Done in H as ([] & s3 & H3 & H).
      rewrite update_item_Done in H3. injection H3 as <-.
      apply (produced_ignored _ _ _ _ x Hw) in Hnew; [|left].
      apply bind_Done in H as (y & s4 & H4 & [= <- <-]).
      by apply (produced_create_complete_item _ _ _ _ _ _ _ Hnew) in H4.
    + by injection H as <- <-.
Qed.

Lemma do_combine_produced d ti l s p s' :
  wf s → do_combine d ti l s = Done p s' → produced s s' p.1 p.2.
Proof.
  intros Hw. unfold do_combine.
  intros (donor & ? & [Hdonor ->]%deref_Done
          & (ccv & ? & [Hccv ->]%lift_Done & H)%bind_Done)%bind_Done.
  revert H. apply produced_collect2; [|done].
  intros kv s0 p0 s0' Hw0 (cands & s1 & Hc & H)%bind_Done.
  pose proof (read_only_candidates _ _ _ _ _ Hc) as <-.
  revert H. apply produced_collect2; [|done].
  intros r s2 p2 s2' Hw2. by apply combine_candidate_produced.
Qed.

Lemma predict_orders_produced sym ti vb r l s s1 A ids s2 :
  produced s s1 A [] → predict_orders sym ti vb r l s1 = Done ids s2 →
  produced s s2 (A ++ ids) [].
Proof.
  revert s1 A ids. induction l as [|o l IH]; intros s1 A ids P1; simpl.
  - intros [= <- <-]. by rewrite app_nil_r.
  - intros (x & s3 & Hnew & (rest & s4 & H4 & [= <- <-])%bind_Done)%bind_Done.
    apply (produced_new _ _ _ _ _ _ _ _ _ _ _ _ _ _ _ _ _ P1) in Hnew.
    simpl in Hnew. apply (IH _ _ _ Hnew) in H4.
    by rewrite <- app_assoc in H4.
Qed.

Lemma predict_rule_produced token ti sym r s ids s' :
  wf s → predict_rule token ti sym r s = Done ids s' → produced s s' ids [].
Proof.
  intros Hw. unfold predict_rule.
  intros (s0 & ? & [= <- <-] & (rl & ? & [Hrl ->]%lift_Done & H)%bind_Done)%bind_Done.
  destruct (used_in_prediction rl); [injection H as <- <-; by apply produced_refl|].
  apply bind_Done in H as (bo & ? & [Hbo ->]%lift_Done & H).
  cbv zeta in H.
  apply bind_Done in H as (fst & ? & [Hfst ->]%lift_Done & H).
  destruct (_ && _); [injection H as <- <-; by apply produced_refl|].
  apply bind_Done in H as ([] & s1 & [= <-] & H).
  apply bind_Done in H as ([] & s2 & H2 & H).
  assert (produced s s2 [] []) as P0.
  { unfold add_item_to_prediction_strategy, modify in H2. injection H2 as <-.
    apply (produced_same_store s s); [by apply produced_refl | | |].
    - by destruct (existsb _ _).
    - by destruct (existsb _ _).
    - intros n. destruct (existsb _ _); by destruct n. }
  by apply (predict_orders_produced _ _ _ _ _ _ _ _ _ _ P0) in H.
Qed.

(** The items that [do_predict] returns are new. *)
Lemma do_predict_produced token ti strategy s ids s' :
  wf s → do_predict token ti strategy s = Done ids s' → produced s s' ids [].
Proof.
  intros Hw. unfold do_predict. apply produced_collect; [|done].
  intros sym s0 ys s0' Hw0 (s1 & ? & [= <- <-] & H)%bind_Done.
  revert H. apply produced_collect; [|done].
  intros r s2 zs s2' Hw2. by apply predict_rule_produced.
Qed.

Lemma inv_old_kept s s' : chart_inv s → wf s' → old_kept s s' → chart_inv s'.
Proof.
  intros (Hw & Hdom & Hact & Hawcc & Hwin) Hw' (Hr & Hc & Hs).
  assert (∀ n r it', r ∈ role (chart s) n → store s' !! r = Some it' →
            ∃ it, store s !! r = Some it ∧ same_but_flags it it'
                  ∧ ignored it' = ignored it) as Hback.
  { intros n r it' Hin Hit'. destruct (Hdom _ _ Hin) as [it Hit].
    destruct (Hs _ _ Hit) as (it2 & Hit2 & Hf & Hi). rewrite Hit' in Hit2.
    injection Hit2 as <-. by exists it. }
  split; [done|]. split.
  { intros n r. rewrite Hr. intros Hin. destruct (Hdom _ _ Hin) as [it Hit].
    destruct (Hs _ _ Hit) as (it' & -> & _). by eauto. }
  split.
  { intros r it'. rewrite Hr. intros Hin Hit'.
    destruct (Hback _ _ _ Hin Hit') as (it & Hit & Hf & _).
    rewrite <- (final_flags _ _ Hf). by eapply Hact. }
  split.
  { intros r it'. rewrite !Hr. intros Hin Hit'.
    destruct (Hback _ _ _ Hin Hit') as (it & Hit & Hf & _).
    rewrite <- (final_flags _ _ Hf). by eapply Hawcc. }
  intros r it'. rewrite Hr. intros Hin Hit'.
  destruct (Hback _ _ _ Hin Hit') as (it & Hit & Hf & _).
  destruct (Hwin _ _ Hin Hit) as (r2 & it2 & Hin2 & Hit2 & Hi2 & Hsym & Hseq).
  destruct (Hs _ _ Hit2) as (it2' & Hit2' & Hf2 & Hi2').
  exists r2, it2'. rewrite Hr. split; [done|]. split; [done|].
  split; [congruence|].
  destruct Hf as (Hs1 & _ & _ & _ & _ & _ & _ & _ & Hq1 & _).
  destruct Hf2 as (Hs2 & _ & _ & _ & _ & _ & _ & _ & Hq2 & _).
  split; congruence.
Qed.

(** Adding the items of a prediction, of a scan or of a combination to
    the chart. *)
Lemma inv_add_produced s s1 A L b1 s2 b2 s3 b3 s4 :
  chart_inv s → produced s s1 A L →
  add_active_items_to_chart A s1 = Done b1 s2 →
  add_active_items_to_chart L s2 = Done b2 s3 →
  add_completed_items_to_chart L s3 = Done b3 s4 →
  chart_inv s4.
Proof.
  intros Hinv (Hw1 & Hk & HndA & HndL & HA & HL) H1 H2 H3.
  pose proof (inv_old_kept _ _ Hinv Hw1 Hk) as Hinv1.
  assert (∀ n x, x ∈ role (chart s1) n → x ≤ items_counter s) as Hfresh.
  { intros n x. rewrite (proj1 Hk). intros Hx.
    destruct Hinv as (Hw & Hdom & _). destruct (Hdom _ _ Hx) as [it Hit].
    by eapply wf_le. }
  destruct (inv_add_active A s1 b1 s2 Hinv1 HndA) as (Hinv2 & _ & Hout & _ & Hroles);
    [|done|].
  { intros a Ha. destruct (HA _ Ha) as (Hlt & Hex). split; [|done].
    intros n Hin. apply Hfresh in Hin. lia. }
  apply (inv_add_completed L s2 b2 s3 b3 s4 Hinv2 HndL); [|done|done].
  intros y Hy. destruct (HL _ Hy) as (Hlt & it & Hit & Hact & Hign).
  assert (y ∉ A) as HyA.
  { intros Ha. destruct (HA _ Ha) as (_ & it' & Hit' & Hact').
    rewrite Hit in Hit'. injection Hit' as <-. done. }
  split.
  - intros n Hin. apply Hroles in Hin as [Hin|Hin]; [|done].
    apply Hfresh in Hin. lia.
  - exists it. by rewrite Hout.
Qed.

Lemma add_nothing_active s : add_active_items_to_chart [] s = Done false s.
Proof. reflexivity. Qed.

Lemma add_nothing_completed s : add_completed_items_to_chart [] s = Done false s.
Proof. reflexivity. Qed.

(** The engine keeps [chart_inv]. *)
Definition keeps_inv (s s' : PState) : Prop := chart_inv s → chart_inv s'.

#[global] Instance keeps_inv_preorder : PreOrder keeps_inv.
Proof.
  split; [intros s Hs; exact Hs|].
  intros s1 s2 s3 H12 H23 H1. apply H23. apply H12. exact H1.
Qed.

Lemma keeps_inv_run_scan r token ti : preserves keeps_inv (run_scan r token ti).
Proof.
  intros s b s'. unfold run_scan.
  intros (p & s1 & Hp & (f1 & s2 & H1 & (f2 & s3 & H2
          & (f3 & s4 & H3 & [= _ <-])%bind_Done)%bind_Done)%bind_Done)%bind_Done.
  intros Hinv. apply do_scan_produced in Hp; [|apply Hinv].
  by eapply inv_add_produced.
Qed.

Lemma keeps_inv_run_combine d ti l : preserves keeps_inv (run_combine d ti l).
Proof.
  intros s b s'. unfold run_combine.
  intros (p & s1 & Hp & (f1 & s2 & H1 & (f2 & s3 & H2
          & (f3 & s4 & H3 & [= _ <-])%bind_Done)%bind_Done)%bind_Done)%bind_Done.
  intros Hinv. apply do_combine_produced in Hp; [|apply Hinv].
  by eapply inv_add_produced.
Qed.

Lemma keeps_inv_run_predict strategy ti token :
  preserves keeps_inv (run_predict strategy ti token).
Proof.
  intros s b s'. unfold run_predict.
  intros (ids & s1 & Hp & H1)%bind_Done Hinv.
  apply do_predict_produced in Hp; [|apply Hinv].
  eapply (inv_add_produced s s1 ids []); [done | done | exact H1 | |];
    [apply add_nothing_active | apply add_nothing_completed].
Qed.

Lemma keeps_inv_read_only {A} (m : M A) : read_only m → preserves keeps_inv m.
Proof. apply read_only_preserves. apply _. Qed.

Lemma keeps_inv_sweep token index : preserves keeps_inv (sweep token index).
Proof.
  unfold sweep. pres;
    first [ apply keeps_inv_read_only;
            first [ apply read_only_get_items_list
                  | apply read_only_get_current_prediction_strategy ]
          | apply keeps_inv_run_predict | apply keeps_inv_run_combine
          | apply keeps_inv_run_scan ].
Qed.

Lemma keeps_inv_sweeps fuel token index :
  preserves keeps_inv (sweeps fuel token index).
Proof. induction fuel; simpl; pres; try done. apply keeps_inv_sweep. Qed.

Lemma keeps_inv_run_incremental fuel toks index :
  preserves keeps_inv (run_incremental_parse_for_max_position_i fuel toks index).
Proof.
  unfold run_incremental_parse_for_max_position_i. pres;
    first [apply keeps_inv_run_predict | apply keeps_inv_sweeps].
Qed.

Lemma keeps_inv_runs fuel toks l :
  preserves keeps_inv
    (for_each l (run_incremental_parse_for_max_position_i fuel toks)).
Proof.
  apply preserves_for_each; [apply _|]. intros i _.
  apply keeps_inv_run_incremental.
Qed.

(** A new chart satisfies [chart_inv]. *)
Lemma chart_inv_new_chart s toks terms :
  wf s → chart_inv (with_chart s (new_chart toks terms)).
Proof.
  intros Hw. split; [by apply (wf_same_store s)|].
  split; [intros n r Hr; destruct n; by apply elem_of_nil in Hr|].
  split; [intros r it Hr; by apply elem_of_nil in Hr|].
  split; intros r it Hr; by apply elem_of_nil in Hr.
Qed.

(** Every item of the completed-items role, ignored or not, has its
    symbol and found sequence on an item that the role lists. *)
Lemma completed_role_has_winner fuel toks terms l s sk r item :
  wf s →
  for_each l (run_incremental_parse_for_max_position_i fuel toks)
    (with_chart s (new_chart toks terms)) = Done tt sk →
  r ∈ role (chart sk) completed_items → store sk !! r = Some item →
  winner sk item.
Proof.
  intros Hw Hrun Hr Hitem.
  pose proof (keeps_inv_runs _ _ _ _ _ _ Hrun (chart_inv_new_chart s toks terms Hw))
    as (_ & _ & _ & _ & Hwin).
  by eapply Hwin.
Qed.



(** ** The pair of C2 in a parse *)

(** [grammar_shared_components] before any prediction. *)
Definition grammar_shared_components_unused : MCFG :=
  {| start_symbol := "S"; terminals := ["a"; "b"];
     rules :=
       [ {| rule_symbol := "S";
            function := RFunc {| func_name := "g"; input_args := ["B"];
                                 result_vector := [["B(0)"; "B(1)"]] |};
            vars := ["B"]; used := false |};
         {| rule_symbol := "B";
            function := RFunc {| func_name := "f5"; input_args := ["B"];
                                 result_vector := [["a"]; ["B(1)"]] |};
            vars := ["B"]; used := false |};
         {| rule_symbol := "B";
            function := RFunc {| func_name := "f2"; input_args := [];
                                 result_vector := [["a"]; ["b"]] |};
            vars := []; used := false |} ] |}.

#[global] Instance MCFGFunc_eq_dec : EqDecision MCFGFunc.
Proof. solve_decision. Defined.

#[global] Instance rule_function_eq_dec : EqDecision rule_function.
Proof. solve_decision. Defined.

#[global] Instance MCFGRule_eq_dec : EqDecision MCFGRule.
Proof. solve_decision. Defined.

#[global] Instance MCFG_eq_dec : EqDecision MCFG.
Proof. solve_decision. Defined.

#[global] Instance ActiveItem_eq_dec : EqDecision ActiveItem.
Proof. solve_decision. Defined.

(** The objects 7 and 15 are [candidate_item] and [donor_item], the
    pair is in the memo, and no object has the two as antecedents. *)
Definition pair_met_and_dropped (s : PState) : bool :=
  bool_decide (store s !! 7 = Some candidate_item)
  && bool_decide (store s !! 15 = Some donor_item)
  && bool_decide ((7, 15) ∈ combined_couples (chart s))
  && bool_decide (map_Forall (λ _ it, antecedent_ids it ≠ [7; 15]) (store s))
  && bool_decide (grammar s = grammar_shared_components).

Lemma parse_shared_components :
  match parse 20 "a b" (initial_state grammar_shared_components_unused 0) with
  | Done (Some _) s' => pair_met_and_dropped s'
  | _ => false
  end = true.
Proof. vm_compute. reflexivity. Qed.

(** The candidate and the donor of [state_candidate_and_donor] are the
    objects 7 and 15 of the parse of ["a b"]: when the parse ends they
    are in the store as given, the grammar is
    [grammar_shared_components], the pair has been recorded, and no
    item has been made from it. *)
Lemma parse_meets_candidate_and_donor :
  ∃ table s',
    parse 20 "a b" (initial_state grammar_shared_components_unused 0)
    = Done (Some table) s'
    ∧ grammar s' = grammar_shared_components
    ∧ store s' !! 7 = Some candidate_item
    ∧ store s' !! 15 = Some donor_item
    ∧ (7, 15) ∈ combined_couples (chart s')
    ∧ ∀ k it, store s' !! k = Some it → antecedent_ids it ≠ [7; 15].
Proof.
  pose proof parse_shared_components as H.
  destruct (parse 20 "a b" (initial_state grammar_shared_components_unused 0))
    as [[table|] s'| |]; try discriminate.
  unfold pair_met_and_dropped in H.
  apply andb_true_iff in H as [H Hg].
  apply andb_true_iff in H as [H Hall].
  apply andb_true_iff in H as [H Hmemo].
  apply andb_true_iff in H as [H7 H15].
  apply bool_decide_eq_true_1 in Hg, Hall, Hmemo, H7, H15.
  exists table, s'. split; [done|]. do 4 (split; [done|]).
  intros k it Hk. by apply (Hall k it).
Qed.

(** ** Further properties of the chart and of the actions *)


Lemma run_single_rule_first_position :
  ∃ sk, for_each [0] (run_incremental_parse_for_max_position_i 3 ["a"])
          (with_chart (initial_state grammar_single_rule 0)
             (new_chart ["a"] ["a"])) = Done tt sk
        ∧ role (chart sk) completed_items = [3].
Proof. eexists. split; vm_compute; reflexivity. Qed.





Lemma symbol_after_dot_Some c cc :
  get_symbol_after_dot c = Some cc →
  ∃ j comp, range_order c !! (dot_position c).1 = Some j
            ∧ vector_binding c !! j = Some comp
            ∧ comp !! (dot_position c).2 = Some cc.
Proof.
  unfold get_symbol_after_dot.
  destruct (range_order c !! (dot_position c).1) as [j|]; simpl; [|done].
  destruct (vector_binding c !! j) as [comp|] eqn:Hcomp; simpl; [|done].
  intros H. exists j, comp. split; [reflexivity|]. split; [exact Hcomp | exact H].
Qed.


(** The predicted item of [S → g(B)] in the parse of ["a b"], which
    waits for [B(0)], and a state that holds it with [donor_item]. *)
Definition waiting_item : ActiveItem :=
  {| symbol := "S"; dot_position := (0, 0); found_start := 0; found_end := 0;
     range_order := [0]; token_index := 0; action_type := predict; rule := 0;
     found_sequence := []; antecedent_ids := [];
     scanned := false; combined := false; ignored := false;
     item_id := 1; vector_binding := [["B(0)"; "B(1)"]] |}.

Definition state_waiting_and_donor : PState :=
  {| grammar := grammar_shared_components;
     chart :=
       set_all_items
         (set_role
            (set_role (new_chart ["a"; "b"] ["a"; "b"]) active_items [1])
            active_items_with_completed_components [15])
         [1; 15];
     store := <[ 1 := waiting_item ]> {[ 15 := donor_item ]};
     items_counter := 15 |}.

Lemma wf_state_waiting_and_donor : wf state_waiting_and_donor.
Proof.
  split.
  - intros k Hk. simpl in *. rewrite lookup_insert_ne by lia.
    apply lookup_singleton_ne. lia.
  - intros k j. simpl. intros [[<- <-]|[_ [<- <-]%lookup_singleton_Some]]%lookup_insert_Some;
      reflexivity.
Defined.


(** ** A grammar whose rules have all been used *)

Lemma vars_to_rules_from_lookup pos rs sym r :
  r ∈ vars_to_rules_from pos rs sym →
  pos ≤ r ∧ ∃ rl, rs !! (r - pos) = Some rl.
Proof.
  revert pos. induction rs as [|x rs IH]; intros pos; simpl.
  - by intros ?%elem_of_nil.
  - assert (r ∈ vars_to_rules_from (S pos) rs sym →
            pos ≤ r ∧ ∃ rl, (x :: rs) !! (r - pos) = Some rl) as Hrest.
    { intros (Hle & rl & Hrl)%IH. split; [lia|]. exists rl.
      replace (r - pos) with (S (r - S pos)) by lia. done. }
    destruct (String.eqb (rule_symbol x) sym); [|done].
    intros [->|Hin]%elem_of_cons; [|by apply Hrest].
    split; [done|]. exists x. by rewrite Nat.sub_diag.
Qed.

Lemma collect_all_nil {X Y} (l : list X) (body : X → M (list Y)) s :
  (∀ x, x ∈ l → body x s = Done [] s) → collect l body s = Done [] s.
Proof.
  induction l as [|x l IH]; intros Hl; simpl; [done|].
  erewrite bind_run by (apply Hl; left).
  erewrite bind_run by (apply IH; intros y Hy; apply Hl; by right).
  reflexivity.
Qed.

Lemma do_predict_all_used token ti strategy s :
  (∀ r, r ∈ rules (grammar s) → used r = true) →
  do_predict token ti strategy s = Done [] s.
Proof.
  intros Hused. unfold do_predict. apply collect_all_nil. intros sym _.
  erewrite bind_run by reflexivity.
  apply collect_all_nil. intros r Hr.
  apply vars_to_rules_from_lookup in Hr as (_ & rl & Hrl).
  rewrite Nat.sub_0_r in Hrl.
  apply predict_rule_skips_used. exists rl. split; [done|].
  apply Hused. by eapply list_elem_of_lookup_2.
Qed.

Lemma run_predict_all_used strategy ti token s :
  (∀ r, r ∈ rules (grammar s) → used r = true) →
  run_predict strategy ti token s = Done false s.
Proof.
  intros Hused. unfold run_predict.
  erewrite bind_run by by apply do_predict_all_used. reflexivity.
Qed.

(** Every rule has been used and the three roles of the chart are
    empty. *)
Definition idle (s : PState) : Prop :=
  (∀ r, r ∈ rules (grammar s) → used r = true)
  ∧ ∀ n, role (chart s) n = [].

Lemma sweep_idle token index s : idle s → sweep token index s = Done false s.
Proof.
  intros [Hused Hroles]. unfold sweep.
  erewrite bind_run by reflexivity.
  erewrite bind_run by by apply run_predict_all_used.
  erewrite bind_run by by apply get_items_list_empty.
  erewrite bind_run by by apply get_items_list_empty.
  erewrite bind_run by reflexivity.
  erewrite bind_run by by apply get_items_list_empty.
  reflexivity.
Qed.

Lemma run_incremental_idle fuel toks index s :
  idle s → index < List.length toks →
  run_incremental_parse_for_max_position_i (S fuel) toks index s = Done tt s.
Proof.
  intros Hs Hi. unfold run_incremental_parse_for_max_position_i.
  destruct (lookup_lt_is_Some_2 toks index Hi) as [token Ht].
  erewrite bind_run by (rewrite Ht; reflexivity).
  erewrite bind_run.
  - simpl. erewrite bind_run by by apply sweep_idle. reflexivity.
  - destruct (bool_decide _); [|done].
    erewrite bind_run by reflexivity.
    erewrite bind_run by (apply run_predict_all_used, Hs). reflexivity.
Qed.

Lemma token_loop_idle fuel text toks indexes s :
  idle s → (∀ i, i ∈ indexes → i < List.length toks) →
  token_loop (S fuel) text toks indexes None s = Done None s.
Proof.
  intros Hs. induction indexes as [|i l IH]; intros Hl; [done|].
  cbn [token_loop].
  erewrite bind_run by (apply run_incremental_idle; [done | apply Hl; left]).
  erewrite bind_run by reflexivity.
  erewrite bind_run by (apply get_items_list_empty, Hs).
  erewrite bind_run by reflexivity.
  apply IH. intros j Hj. apply Hl. by right.
Qed.


Lemma parse_single_rule_uses_it :
  ∃ table s',
    parse 3 "a" (initial_state grammar_single_rule 0) = Done (Some table) s'
    ∧ forallb used (rules (grammar s')) = true.
Proof. eexists _, _. split; vm_compute; reflexivity. Qed.


(** ** Scanning an item once *)

Lemma do_scan_scanned s r j token ti :
  store s !! r = Some j → scanned j = true →
  do_scan r token ti s = Done ([], []) s.
Proof.
  intros Hj Hs. unfold do_scan.
  erewrite bind_run by by apply deref_eq.
  unfold is_scanned. rewrite Hs. by destruct (bool_decide _).
Qed.



(** ** Combining a pair once *)

(** The pair of the objects [r] and [d] is in the memo, in one order or
    the other. *)
Definition pair_recorded (s : PState) (r d : nat) : Prop :=
  ∃ c dn, store s !! r = Some c ∧ store s !! d = Some dn
          ∧ ((item_id c, item_id dn) ∈ combined_couples (chart s)
             ∨ (item_id dn, item_id c) ∈ combined_couples (chart s)).

Lemma combine_candidate_recorded s r d ti ccv cc v :
  pair_recorded s r d →
  combine_candidate d ti ccv cc v r s = Done ([], []) s.
Proof.
  intros (c & dn & Hc & Hd & Hmemo). unfold combine_candidate.
  erewrite bind_run by by apply deref_eq.
  erewrite bind_run by by apply deref_eq.
  case_bool_decide; [done|]. cbv zeta.
  erewrite bind_run.
  2: { unfold check_if_couple_is_already_combined.
       erewrite bind_run by reflexivity. reflexivity. }
  unfold get_item_id. simpl.
  destruct Hmemo as [Hm|Hm].
  - by rewrite (bool_decide_true _ Hm).
  - rewrite (bool_decide_true _ Hm). by rewrite orb_true_r.
Qed.

Lemma pair_recorded_sym s r d : pair_recorded s r d → pair_recorded s d r.
Proof.
  intros (c & dn & Hc & Hd & Hmemo). exists dn, c.
  split; [done|]. split; [done|]. tauto.
Qed.



(** ** Soundness of the simplification *)

Lemma set_add_elem r s y : y ∈ Simplify.set_add r s → y = r ∨ y ∈ s.
Proof.
  unfold Simplify.set_add. destruct (existsb _ _); [by right|].
  rewrite elem_of_app, list_elem_of_singleton. tauto.
Qed.

Lemma all_vector_components_in_set_true l preds :
  Simplify.all_vector_components_in_set l preds = true →
  ∀ x, x ∈ l → x ∈ preds.
Proof.
  unfold Simplify.all_vector_components_in_set. rewrite forallb_forall.
  intros Hall x Hx. specialize (Hall x (proj1 (list_elem_of_In _ _) Hx)).
  unfold PyStr.mem in Hall. by apply bool_decide_eq_true in Hall.
Qed.

Lemma rule_remove_sub r l l' :
  Simplify.rule_remove r l = Some l' → ∀ y, y ∈ l' → y ∈ l.
Proof.
  revert l'. induction l as [|x l IH]; intros l'; simpl; [done|].
  destruct (rule_eq x r) as [[]|]; simpl; [| |done].
  - intros [= <-] y Hy. by right.
  - destruct (Simplify.rule_remove r l) as [l0|]; simpl; [|done].
    intros [= <-] y [->|Hy]%elem_of_cons; [left | right; by apply (IH l0)].
Qed.

Lemma update_original_rules_sub useful orig found orig' found' :
  Simplify.update_original_rules useful orig found = Some (orig', found') →
  ∀ y, y ∈ orig' → y ∈ orig.
Proof.
  revert orig found. induction useful as [|r useful IH]; intros orig found; simpl.
  - by intros [= <- <-].
  - destruct (Simplify.rule_in r orig) as [[]|]; simpl; [| |done].
    + destruct (Simplify.rule_remove r orig) as [l|] eqn:Hl; simpl; [|done].
      intros H y Hy. eapply rule_remove_sub; [done|]. by eapply IH.
    + apply IH.
Qed.

Section Soundness.
Context (terms : list string) (rs : list MCFGRule).

(** The rules collected so far are productive rules of the input, and
    the symbols collected so far lead to terminals. *)
Definition sound (useful : list MCFGRule) (preds : list string) : Prop :=
  (∀ r, r ∈ useful → r ∈ rs ∧ productive terms rs r)
  ∧ (∀ x, x ∈ preds → leads_to_terminals terms rs x).

Lemma sound_initial :
  sound [] (foldl (λ acc c, Simplify.str_add c acc) [] terms).
Proof.
  split; [by intros r ?%elem_of_nil|].
  intros x [Hx|Hx]%fold_str_add_elem; [by apply elem_of_nil in Hx|].
  by apply leads_terminal.
Qed.

Lemma terminating_pass_sound l useful preds :
  (∀ r, r ∈ l → r ∈ rs) → sound useful preds →
  sound (Simplify.terminating_pass l useful preds).1
        (Simplify.terminating_pass l useful preds).2.
Proof.
  revert useful preds. induction l as [|r l IH]; intros useful preds Hl Hs;
    simpl; [done|].
  assert (r ∈ rs) as Hr by (apply Hl; left).
  assert (∀ r', r' ∈ l → r' ∈ rs) as Hl' by (intros r' Hr'; apply Hl; by right).
  destruct (is_terminating_rule r) eqn:Ht; [|by apply IH].
  apply IH; [done|]. destruct Hs as [Hu Hp]. split.
  - intros r' [->|Hr']%set_add_elem; [|by apply Hu]. split; [done | by left].
  - intros x [->|Hx]%str_add_elem; [|by apply Hp]. by apply leads_terminating.
Qed.

Lemma useful_pass_sound l useful preds useful' preds' :
  (∀ r, r ∈ l → r ∈ rs) → sound useful preds →
  Simplify.useful_pass terms l useful preds = Some (useful', preds') →
  sound useful' preds'.
Proof.
  revert useful preds. induction l as [|r l IH]; intros useful preds Hl Hs;
    simpl.
  - by intros [= <- <-].
  - assert (r ∈ rs) as Hr by (apply Hl; left).
    assert (∀ r', r' ∈ l → r' ∈ rs) as Hl'
      by (intros r' Hr'; apply Hl; by right).
    destruct (Simplify.get_right_hand_side terms r) as [rhs|] eqn:Hrhs;
      simpl; [|done].
    destruct (Simplify.all_vector_components_in_set rhs preds) eqn:Hall;
      [|by apply IH].
    apply IH; [done|]. destruct Hs as [Hu Hp].
    pose proof (all_vector_components_in_set_true _ _ Hall) as Hin.
    split.
    + intros r' [->|Hr']%set_add_elem; [|by apply Hu]. split; [done|].
      right. exists rhs. split; [done|]. intros x Hx. by apply Hp, Hin.
    + intros x [->|Hx]%str_add_elem; [|by apply Hp].
      apply (leads_rule terms rs r rhs); [done | done|].
      intros y Hy. by apply Hp, Hin.
Qed.

Lemma useful_loop_sound fuel orig useful preds res :
  (∀ r, r ∈ orig → r ∈ rs) → sound useful preds →
  Simplify.useful_loop fuel terms orig useful preds = Some (Some res) →
  ∀ r, r ∈ res → r ∈ rs ∧ productive terms rs r.
Proof.
  revert orig useful preds. induction fuel as [|fuel IH];
    intros orig useful preds Ho Hs; simpl; [done|].
  destruct (Simplify.useful_pass terms orig useful preds) as [[u p]|] eqn:Hp;
    simpl; [|done].
  pose proof (useful_pass_sound _ _ _ _ _ Ho Hs Hp) as Hs'.
  destruct (Simplify.update_original_rules u orig false) as [[o f]|] eqn:Hu;
    simpl; [|done].
  destruct f.
  - apply IH; [|done]. intros r Hr. apply Ho.
    by eapply update_original_rules_sub.
  - intros [= <-]. apply Hs'.
Qed.

Lemma eliminate_useless_rules_sound fuel res :
  Simplify.eliminate_useless_rules fuel terms rs = Some (Some res) →
  ∀ r, r ∈ res → r ∈ rs ∧ productive terms rs r.
Proof.
  unfold Simplify.eliminate_useless_rules.
  pose proof (terminating_pass_sound rs [] _ (λ r Hr, Hr) sound_initial) as Hs0.
  destruct (Simplify.terminating_pass rs [] _) as [u0 p0]. simpl in *.
  destruct (Simplify.useful_pass terms rs u0 p0) as [[u p]|] eqn:Hp;
    simpl; [|done].
  pose proof (useful_pass_sound _ _ _ _ _ (λ r Hr, Hr) Hs0 Hp) as Hs.
  destruct (Simplify.update_original_rules u rs false) as [[o f]|] eqn:Hu;
    simpl; [|done].
  destruct f; simpl.
  - apply useful_loop_sound; [|done]. intros r Hr.
    by eapply update_original_rules_sub.
  - intros [= <-] r Hr. by apply elem_of_nil in Hr.
Qed.
End Soundness.

Lemma reachable_pass_sub terms l test acc preds acc' preds' :
  Simplify.reachable_pass terms l test acc preds = Some (acc', preds') →
  ∀ y, y ∈ acc' → y ∈ acc ∨ y ∈ l.
Proof.
  revert acc preds. induction l as [|r l IH]; intros acc preds; simpl.
  - intros [= <- <-] y Hy. by left.
  - destruct (test r preds).
    + destruct (Simplify.get_right_hand_side terms r) as [rhs|]; simpl; [|done].
      intros H y Hy. destruct (IH _ _ H y Hy) as [[->|Hin]%set_add_elem|Hin].
      * right. left.
      * by left.
      * right. by right.
    + intros H y Hy. destruct (IH _ _ H y Hy) as [Hin|Hin]; [by left|].
      right. by right.
Qed.

Lemma reachable_loop_sub fuel terms orig acc preds res (rs : list MCFGRule) :
  (∀ r, r ∈ orig → r ∈ rs) → (∀ r, r ∈ acc → r ∈ rs) →
  Simplify.reachable_loop fuel terms orig acc preds = Some (Some res) →
  ∀ r, r ∈ res → r ∈ rs.
Proof.
  revert orig acc preds. induction fuel as [|fuel IH];
    intros orig acc preds Ho Ha; simpl; [done|].
  destruct (Simplify.reachable_pass terms orig _ acc preds) as [[a p]|] eqn:Hp;
    simpl; [|done].
  assert (∀ r, r ∈ a → r ∈ rs) as Ha'.
  { intros r Hr. destruct (reachable_pass_sub _ _ _ _ _ _ _ Hp r Hr); auto. }
  destruct (Simplify.update_original_rules a orig false) as [[o f]|] eqn:Hu;
    simpl; [|done].
  destruct f.
  - apply IH; [|done]. intros r Hr. apply Ho.
    by eapply update_original_rules_sub.
  - by intros [= <-].
Qed.

Lemma eliminate_unreachable_rules_sub fuel terms start rs res :
  Simplify.eliminate_unreachable_rules fuel terms start rs = Some (Some res) →
  ∀ r, r ∈ res → r ∈ rs.
Proof.
  unfold Simplify.eliminate_unreachable_rules.
  destruct (Simplify.reachable_pass terms rs _ [] []) as [[a p]|] eqn:Hp;
    simpl; [|done].
  assert (∀ r, r ∈ a → r ∈ rs) as Ha.
  { intros r Hr. destruct (reachable_pass_sub _ _ _ _ _ _ _ Hp r Hr) as [H|H];
      [by apply elem_of_nil in H | done]. }
  destruct (Simplify.update_original_rules a rs false) as [[o f]|] eqn:Hu;
    simpl; [|done].
  destruct f; simpl.
  - apply reachable_loop_sub; [|done]. intros r Hr.
    by eapply update_original_rules_sub.
  - intros [= <-] r Hr. by apply elem_of_nil in Hr.
Qed.



(** A symbol is reached from the start symbol when it is the start
    symbol or occurs in the right-hand side of a rule whose left-hand
    side is reached. *)
Inductive reaches (terms : list string) (rs : list MCFGRule) (start : string)
  : string → Prop :=
| reaches_start : reaches terms rs start start
| reaches_step r rhs x :
    r ∈ rs → reaches terms rs start (rule_symbol r) →
    Simplify.get_right_hand_side terms r = Some rhs → x ∈ rhs →
    reaches terms rs start x.

Lemma reaches_mono terms rs rs' start x :
  (∀ r, r ∈ rs → r ∈ rs') → reaches terms rs start x → reaches terms rs' start x.
Proof.
  intros Hsub. induction 1 as [|r rhs x Hr _ IH Hrhs Hx]; [constructor|].
  eapply reaches_step; [by apply Hsub | done | done | done].
Qed.

Section Reached.
Context (terms : list string) (rs : list MCFGRule) (start : string).

(** The rules collected so far are rules of the input with a reached
    left-hand side, and the symbols collected so far are reached. *)
Definition reached (acc : list MCFGRule) (preds : list string) : Prop :=
  (∀ r, r ∈ acc → r ∈ rs ∧ reaches terms rs start (rule_symbol r))
  ∧ (∀ x, x ∈ preds → reaches terms rs start x).

Lemma reachable_pass_reached l test acc preds acc' preds' :
  (∀ r p, test r p = true → rule_symbol r = start ∨ rule_symbol r ∈ p) →
  (∀ r, r ∈ l → r ∈ rs) → reached acc preds →
  Simplify.reachable_pass terms l test acc preds = Some (acc', preds') →
  reached acc' preds'.
Proof.
  intros Htest. revert acc preds.
  induction l as [|r l IH]; intros acc preds Hl Hs; simpl.
  - by intros [= <- <-].
  - assert (r ∈ rs) as Hr by (apply Hl; left).
    assert (∀ r', r' ∈ l → r' ∈ rs) as Hl'
      by (intros r' Hr'; apply Hl; by right).
    destruct (test r preds) eqn:Ht; [|by apply IH].
    destruct (Simplify.get_right_hand_side terms r) as [rhs|] eqn:Hrhs;
      simpl; [|done].
    apply IH; [done|]. destruct Hs as [Ha Hp].
    assert (reaches terms rs start (rule_symbol r)) as Hreach.
    { destruct (Htest _ _ Ht) as [->|Hin]; [constructor | by apply Hp]. }
    split.
    + intros r' [->|Hr']%set_add_elem; [by split | by apply Ha].
    + intros x [Hx|Hx]%fold_str_add_elem; [by apply Hp|].
      by eapply reaches_step.
Qed.

Lemma reachable_loop_reached fuel orig acc preds res :
  (∀ r, r ∈ orig → r ∈ rs) → reached acc preds →
  Simplify.reachable_loop fuel terms orig acc preds = Some (Some res) →
  ∀ r, r ∈ res → r ∈ rs ∧ reaches terms rs start (rule_symbol r).
Proof.
  revert orig acc preds. induction fuel as [|fuel IH];
    intros orig acc preds Ho Hs; simpl; [done|].
  destruct (Simplify.reachable_pass terms orig _ acc preds) as [[a p]|] eqn:Hp;
    simpl; [|done].
  assert (reached a p) as Hs'.
  { eapply reachable_pass_reached; [| done | done | exact Hp].
    intros r q Ht. right. unfold PyStr.mem in Ht.
    by apply bool_decide_eq_true in Ht. }
  destruct (Simplify.update_original_rules a orig false) as [[o f]|] eqn:Hu;
    simpl; [|done].
  destruct f.
  - apply IH; [|done]. intros r Hr. apply Ho.
    by eapply update_original_rules_sub.
  - intros [= <-]. apply Hs'.
Qed.

Lemma eliminate_unreachable_rules_reached fuel res :
  Simplify.eliminate_unreachable_rules fuel terms start rs = Some (Some res) →
  ∀ r, r ∈ res → r ∈ rs ∧ reaches terms rs start (rule_symbol r).
Proof.
  unfold Simplify.eliminate_unreachable_rules.
  destruct (Simplify.reachable_pass terms rs _ [] []) as [[a p]|] eqn:Hp;
    simpl; [|done].
  assert (reached a p) as Hs.
  { eapply reachable_pass_reached; [| | | exact Hp].
    - intros r q Ht. left. by apply String.eqb_eq in Ht.
    - done.
    - split; intros ? ?%elem_of_nil; done. }
  destruct (Simplify.update_original_rules a rs false) as [[o f]|] eqn:Hu;
    simpl; [|done].
  destruct f; simpl.
  - apply reachable_loop_reached; [|done]. intros r Hr.
    by eapply update_original_rules_sub.
  - intros [= <-] r Hr. by apply elem_of_nil in Hr.
Qed.
End Reached.



(** ** A chart without equal items *)

(** The test of [no_equal_items], carried out on the index of all
    items. *)
Definition no_equal_items_b (s : PState) : bool :=
  forallb (λ k1,
    forallb (λ k2,
      match store s !! k1, store s !! k2 with
      | Some x, Some y =>
          match item_eq (rules (grammar s)) x y with
          | Some true => bool_decide (k1 = k2)
          | _ => true
          end
      | _, _ => true
      end) (all_items (chart s))) (all_items (chart s)).

Lemma no_equal_items_b_true s : no_equal_items_b s = true → no_equal_items s.
Proof.
  unfold no_equal_items_b, no_equal_items. rewrite forallb_forall.
  intros Hall k1 k2 x y Hk1 Hk2 Hx Hy Heq.
  specialize (Hall k1 (proj1 (list_elem_of_In _ _) Hk1)).
  rewrite forallb_forall in Hall.
  specialize (Hall k2 (proj1 (list_elem_of_In _ _) Hk2)).
  rewrite Hx, Hy, Heq in Hall. by apply bool_decide_eq_true in Hall.
Qed.

Lemma parse_single_rule_no_equal_items :
  ∃ table s',
    parse 3 "a" (initial_state grammar_single_rule 0) = Done (Some table) s'
    ∧ no_equal_items_b s' = true.
Proof. eexists _, _. split; vm_compute; reflexivity. Qed.
